(** * Adorable: stream lifecycle, resilience, monitoring and error handling

    A shallow embedding of the server-side library of the Adorable app
    builder (stream-manager, resilience, monitoring, error-handler and
    chat-service) together with the properties its specification states
    about it, followed by further properties read off the code.

    Conventions of the embedding.
    - JavaScript integers (timestamps, counters, delays) are [Z].  The two
      quotients computed by the monitoring module ([successRate] and
      [averageResponseTime]) are exact rationals [Q]: the rounding of IEEE
      doubles is not part of the model.
    - Module-level mutable state (the Redis store, [streamHealth],
      [activeStreams], [Resilience.circuitBreakers], [Monitoring.metrics])
      is gathered in one record [World]; an [async] function body becomes a
      computation in the state-and-exception monad [M] over it.  A call runs
      to completion before the next one starts, so the [streamLocks] table of
      the stream manager, which only serves overlapping calls, is always
      empty on entry and is not represented.
    - External collaborators (Redis, the AI service, the dev-server request)
      are driven by scripts stored in the world: a fault schedule for store
      calls, a list of producer behaviours, a list of dev-server outcomes.
    - [Date.now()] reads the field [now]; time advances only through
      [setTimeout] sleeps and through explicit elapse steps of a script. *)

From Stdlib Require Import ZArith QArith Lia List Bool.
From stdpp Require Import gmap strings list.

Local Open Scope string_scope.
Local Open Scope list_scope.
Local Open Scope Z_scope.

(** ** JavaScript values used by the code *)

Module Js.

(** What a [throw] carries: an [Error] object with its message, or any
    other value (shown by its string form). *)
Inductive JsError : Type :=
| ErrorObj (message : string)
| Thrown (value : string).

(** [String(error)] *)
Definition toString (e : JsError) : string :=
  match e with
  | ErrorObj m => "Error: " +:+ m
  | Thrown v => v
  end.

(** [s.includes(sub)] *)
Fixpoint includes (s sub : string) : bool :=
  if String.prefix sub s then true
  else match s with
       | EmptyString => false
       | String _ s' => includes s' sub
       end.

(** [patterns.some(p => s.includes(p))] *)
Definition includesAny (patterns : list string) (s : string) : bool :=
  existsb (includes s) patterns.

End Js.
Export Js.

(** ** monitoring.ts: data *)

Record ErrorEntry : Type := mkErrorEntry {
  entryTimestamp : Z;
  entryContext : string;
  entryMessage : string
}.

Record Performance : Type := mkPerformance {
  averageResponseTime : Q;
  totalRequests : Z;
  successfulRequests : Z;
  failedRequests : Z;
  successRate : Q
}.

(** [Monitoring.metrics] without the two fields that [getMetrics] refreshes
    on every read ([timestamp], [circuitBreakers]), plus
    [Monitoring.requestTimes]. *)
Record MonitoringState : Type := mkMonitoringState {
  performance : Performance;
  errorsRecent : list ErrorEntry;
  errorsCount : Z;
  requestTimes : list Z
}.

Module Monitoring.

Definition MAX_ERRORS : nat := 100.
Definition MAX_REQUEST_TIMES : nat := 1000.

Definition initial : MonitoringState :=
  {| performance :=
       {| averageResponseTime := 0; totalRequests := 0;
          successfulRequests := 0; failedRequests := 0; successRate := 100 |};
     errorsRecent := [];
     errorsCount := 0;
     requestTimes := [] |}.

Definition withPerformance (f : Performance -> Performance)
    (m : MonitoringState) : MonitoringState :=
  {| performance := f (performance m);
     errorsRecent := errorsRecent m;
     errorsCount := errorsCount m;
     requestTimes := requestTimes m |}.

(** [updateSuccessRate]: the rate is recomputed only when there is at
    least one request. *)
Definition updateSuccessRate (m : MonitoringState) : MonitoringState :=
  withPerformance (fun p =>
    if 0 <? totalRequests p then
      {| averageResponseTime := averageResponseTime p;
         totalRequests := totalRequests p;
         successfulRequests := successfulRequests p;
         failedRequests := failedRequests p;
         successRate :=
           (inject_Z (successfulRequests p) / inject_Z (totalRequests p)) * 100 |}
    else p) m.

(** [arr.slice(-n)]: the last [n] elements. *)
Definition sliceLast {A} (n : nat) (l : list A) : list A :=
  skipn (length l - n)%nat l.

Definition sumZ (l : list Z) : Z := fold_left Z.add l 0.

(** [recordRequestTime] *)
Definition recordRequestTime (duration : Z) (m : MonitoringState)
    : MonitoringState :=
  let pushed := requestTimes m ++ [duration] in
  let times :=
    if (MAX_REQUEST_TIMES <? length pushed)%nat
    then sliceLast MAX_REQUEST_TIMES pushed else pushed in
  {| performance :=
       (let p := performance m in
        {| averageResponseTime :=
             inject_Z (sumZ times) / inject_Z (Z.of_nat (length times));
           totalRequests := totalRequests p;
           successfulRequests := successfulRequests p;
           failedRequests := failedRequests p;
           successRate := successRate p |});
     errorsRecent := errorsRecent m;
     errorsCount := errorsCount m;
     requestTimes := times |}.

(** [recordError]; [now] is the value of [Date.now()]. *)
Definition recordError (now : Z) (context error : string)
    (m : MonitoringState) : MonitoringState :=
  let unshifted := mkErrorEntry now context error :: errorsRecent m in
  {| performance := performance m;
     errorsRecent :=
       if (MAX_ERRORS <? length unshifted)%nat
       then firstn MAX_ERRORS unshifted else unshifted;
     errorsCount := errorsCount m + 1;
     requestTimes := requestTimes m |}.

Definition bumpSuccess (p : Performance) : Performance :=
  {| averageResponseTime := averageResponseTime p;
     totalRequests := totalRequests p + 1;
     successfulRequests := successfulRequests p + 1;
     failedRequests := failedRequests p;
     successRate := successRate p |}.

Definition bumpFailure (p : Performance) : Performance :=
  {| averageResponseTime := averageResponseTime p;
     totalRequests := totalRequests p + 1;
     successfulRequests := successfulRequests p;
     failedRequests := failedRequests p + 1;
     successRate := successRate p |}.

(** [Monitoring.recordSuccess(duration)] *)
Definition recordSuccess (duration : Z) (m : MonitoringState)
    : MonitoringState :=
  recordRequestTime duration (updateSuccessRate (withPerformance bumpSuccess m)).

(** [Monitoring.recordFailure(duration, context, error)] *)
Definition recordFailure (now duration : Z) (context error : string)
    (m : MonitoringState) : MonitoringState :=
  recordError now context error
    (recordRequestTime duration
       (updateSuccessRate (withPerformance bumpFailure m))).

(** A recorded outcome, for replaying a history of calls. *)
Inductive Call : Type :=
| Success (duration : Z)
| Failure (now duration : Z) (context error : string).

Definition step (m : MonitoringState) (c : Call) : MonitoringState :=
  match c with
  | Success d => recordSuccess d m
  | Failure n d c e => recordFailure n d c e m
  end.

Definition replay (calls : list Call) : MonitoringState :=
  fold_left step calls initial.

(** The value the counters determine for the success rate. *)
Definition expectedRate (p : Performance) : Q :=
  if totalRequests p =? 0 then 100
  else 100 * inject_Z (successfulRequests p) / inject_Z (totalRequests p).

(** The counters add up and the rate is the one they determine. *)
Definition consistent (m : MonitoringState) : Prop :=
  let p := performance m in
  0 <= successfulRequests p /\ 0 <= failedRequests p /\
  totalRequests p = successfulRequests p + failedRequests p /\
  (successRate p == expectedRate p)%Q.

End Monitoring.


(** ** The world: module state, external collaborators, observations *)

(** A value of [streamHealth]. *)
Record StreamHealthRecord : Type := mkHealth {
  lastActivity : Z;
  startTime : Z;
  messageCount : Z
}.

(** A Redis key: its value and, when set with [EX], the instant at which
    it expires. *)
Record StoreEntry : Type := mkEntry {
  entryValue : string;
  expiresAt : option Z
}.

Inductive BreakerStatus : Type := CbClosed | CbOpen | CbHalfOpen.

(** [interface CircuitBreakerState] *)
Record CircuitBreakerState : Type := mkBreaker {
  state : BreakerStatus;
  failureCount : Z;
  lastFailureTime : Z
}.

(** The one message sent on a session channel:
    [JSON.stringify({ type: "abort-stream" })]. *)
Inductive ChannelMessage : Type := AbortStream.

(** What the producer (AIService.sendMessage) does with the hooks it is
    given, in order; [AbortSignal] is the delivery of an abort message to
    the first subscription of the call, [Elapse] lets time pass. *)
Inductive HookEvent : Type :=
| Chunk
| StepFinish
| ErrorHook
| FinishHook
| AbortSignal
| Elapse (ms : Z).

(** The [stream] object of an AI response, as far as the code inspects it. *)
Record StreamObject : Type := mkStreamObject {
  hasToUIMessageStreamResponse : bool;
  hasBody : bool
}.

Inductive ProducerResult : Type :=
| Returns (stream : StreamObject)
| Throws (error : JsError).

(** [streamContext.createNewResumableStream] *)
Inductive ResumableOutcome : Type :=
| Created
| ReturnsNull
| Rejects (error : JsError).

(** One call of the producer: the hooks it fires before it returns, how it
    returns, and what the resumable-stream library answers afterwards. *)
Record Producer : Type := mkProducer {
  hooks : list HookEvent;
  result : ProducerResult;
  resumable : ResumableOutcome
}.

(** What is recorded of a run, in the order it happens: messages published
    and subscriptions taken on Redis, waits, and the calls of
    [forceCleanupStream], [reserveStreamSlot] (with its answer), the
    producer, [controller.abort], [saveMessagesToMemory] and the fallback
    block. *)
Inductive Event : Type :=
| EvPublish (channel : string) (message : ChannelMessage)
| EvSubscribe (channel : string)
| EvTimeout (ms : Z)
| EvSleep (ms : Z)
| EvForceCleanup (appId : string)
| EvReserve (appId : string) (granted : bool)
| EvProducer (appId : string)
| EvAbort (reason : string)
| EvSave (appId : string) (messages : list string)
| EvFallback (appId : string).

Record World : Type := mkWorld {
  now : Z;
  storeFaults : list bool;
  store : gmap string StoreEntry;
  streamHealth : list (string * StreamHealthRecord);
  activeStreams : list string;
  circuitBreakers : gmap string CircuitBreakerState;
  metrics : MonitoringState;
  producers : list Producer;
  memoryFaults : list bool;
  unsavedMessages : gmap string (list string);
  devServers : list (JsError + string);
  trace : list Event
}.

Definition setNow (v : Z) (w : World) : World :=
  mkWorld v (storeFaults w) (store w) (streamHealth w) (activeStreams w)
    (circuitBreakers w) (metrics w) (producers w) (memoryFaults w)
    (unsavedMessages w) (devServers w) (trace w).

Definition setStoreFaults (v : list bool) (w : World) : World :=
  mkWorld (now w) v (store w) (streamHealth w) (activeStreams w)
    (circuitBreakers w) (metrics w) (producers w) (memoryFaults w)
    (unsavedMessages w) (devServers w) (trace w).

Definition setStore (v : gmap string StoreEntry) (w : World) : World :=
  mkWorld (now w) (storeFaults w) v (streamHealth w) (activeStreams w)
    (circuitBreakers w) (metrics w) (producers w) (memoryFaults w)
    (unsavedMessages w) (devServers w) (trace w).

Definition setStreamHealth (v : list (string * StreamHealthRecord)) (w : World) : World :=
  mkWorld (now w) (storeFaults w) (store w) v (activeStreams w)
    (circuitBreakers w) (metrics w) (producers w) (memoryFaults w)
    (unsavedMessages w) (devServers w) (trace w).

Definition setActiveStreams (v : list string) (w : World) : World :=
  mkWorld (now w) (storeFaults w) (store w) (streamHealth w) v
    (circuitBreakers w) (metrics w) (producers w) (memoryFaults w)
    (unsavedMessages w) (devServers w) (trace w).

Definition setCircuitBreakers (v : gmap string CircuitBreakerState) (w : World) : World :=
  mkWorld (now w) (storeFaults w) (store w) (streamHealth w)
    (activeStreams w) v (metrics w) (producers w) (memoryFaults w)
    (unsavedMessages w) (devServers w) (trace w).

Definition setMetrics (v : MonitoringState) (w : World) : World :=
  mkWorld (now w) (storeFaults w) (store w) (streamHealth w)
    (activeStreams w) (circuitBreakers w) v (producers w) (memoryFaults w)
    (unsavedMessages w) (devServers w) (trace w).

Definition setProducers (v : list Producer) (w : World) : World :=
  mkWorld (now w) (storeFaults w) (store w) (streamHealth w)
    (activeStreams w) (circuitBreakers w) (metrics w) v (memoryFaults w)
    (unsavedMessages w) (devServers w) (trace w).

Definition setMemoryFaults (v : list bool) (w : World) : World :=
  mkWorld (now w) (storeFaults w) (store w) (streamHealth w)
    (activeStreams w) (circuitBreakers w) (metrics w) (producers w) v
    (unsavedMessages w) (devServers w) (trace w).

Definition setUnsavedMessages (v : gmap string (list string)) (w : World) : World :=
  mkWorld (now w) (storeFaults w) (store w) (streamHealth w)
    (activeStreams w) (circuitBreakers w) (metrics w) (producers w)
    (memoryFaults w) v (devServers w) (trace w).

Definition setDevServers (v : list (JsError + string)) (w : World) : World :=
  mkWorld (now w) (storeFaults w) (store w) (streamHealth w)
    (activeStreams w) (circuitBreakers w) (metrics w) (producers w)
    (memoryFaults w) (unsavedMessages w) v (trace w).

Definition setTrace (v : list Event) (w : World) : World :=
  mkWorld (now w) (storeFaults w) (store w) (streamHealth w)
    (activeStreams w) (circuitBreakers w) (metrics w) (producers w)
    (memoryFaults w) (unsavedMessages w) (devServers w) v.

Definition initialWorld : World :=
  {| now := 0; storeFaults := []; store := ∅; streamHealth := [];
     activeStreams := []; circuitBreakers := ∅; metrics := Monitoring.initial;
     producers := []; memoryFaults := []; unsavedMessages := ∅;
     devServers := []; trace := [] |}.

(** ** The monad of [async] functions: state and exceptions *)

Definition Result (A : Type) : Type := (JsError + A)%type.

Definition M (A : Type) : Type := World -> Result A * World.

Definition ret {A} (a : A) : M A := fun w => (inr a, w).

Definition throw {A} (e : JsError) : M A := fun w => (inl e, w).

Definition bind {A B} (m : M A) (k : A -> M B) : M B :=
  fun w => match m w with
           | (inr a, w') => k a w'
           | (inl e, w') => (inl e, w')
           end.

(** [try { m } catch (e) { h e }] *)
Definition tryCatch {A} (m : M A) (h : JsError -> M A) : M A :=
  fun w => match m w with
           | (inl e, w') => h e w'
           | (inr a, w') => (inr a, w')
           end.

(** Runs [m] and hands back how it ended instead of throwing. *)
Definition attempt {A} (m : M A) : M (Result A) :=
  fun w => let (r, w') := m w in (inr r, w').

Definition gets {A} (f : World -> A) : M A := fun w => (inr (f w), w).

Definition modify (f : World -> World) : M unit := fun w => (inr tt, f w).

Notation "'let*' x := m 'in' k" := (bind m (fun x => k))
  (at level 10, x name, m at level 100, k at level 200).
Notation "m >> k" := (bind m (fun _ => k))
  (at level 100, k at level 200, right associativity).

Definition when (b : bool) (m : M unit) : M unit := if b then m else ret tt.

(** [for (const x of xs) await f(x)] *)
Fixpoint forEach {A} (xs : list A) (f : A -> M unit) : M unit :=
  match xs with
  | [] => ret tt
  | x :: rest => f x >> forEach rest f
  end.

Definition log (e : Event) : M unit :=
  modify (fun w => setTrace (trace w ++ [e]) w).

(** [Date.now()] *)
Definition dateNow : M Z := gets now.

(** [await new Promise(resolve => setTimeout(resolve, ms))] *)
Definition elapse (ms : Z) : M unit :=
  modify (fun w => setNow (now w + Z.max 0 ms) w).

(** ** The Redis clients ([redis] and [redisPublisher] reach one store) *)

Module Redis.

(** Every awaited command first consults the fault schedule: a scheduled
    fault makes the command reject and leaves the store as it was. *)
Definition command : M unit :=
  fun w => match storeFaults w with
           | true :: rest =>
               (inl (ErrorObj "Redis command failed"), setStoreFaults rest w)
           | false :: rest => (inr tt, setStoreFaults rest w)
           | [] => (inr tt, w)
           end.

Definition live (n : Z) (e : StoreEntry) : bool :=
  match expiresAt e with
  | Some t => n <? t
  | None => true
  end.

(** What a read of [key] sees at this instant. *)
Definition read (key : string) (w : World) : option string :=
  match store w !! key with
  | Some e => if live (now w) e then Some (entryValue e) else None
  | None => None
  end.

Definition get (key : string) : M (option string) :=
  command >> gets (read key).

(** [set(key, value, { EX: seconds })] *)
Definition setEx (key value : string) (seconds : Z) : M unit :=
  command >>
  modify (fun w =>
    setStore (<[key := mkEntry value (Some (now w + seconds * 1000))]> (store w)) w).

Definition del (key : string) : M unit :=
  command >> modify (fun w => setStore (delete key (store w)) w).

Definition publish (channel : string) (message : ChannelMessage) : M unit :=
  command >> log (EvPublish channel message).

(** [subscribe] is never awaited by the code: it only registers. *)
Definition subscribe (channel : string) : M unit :=
  log (EvSubscribe channel).

End Redis.


(** ** resilience.ts *)

Module Resilience.

Record RetryOptions : Type := mkRetryOptions {
  maxAttempts : Z;
  baseDelay : Z;
  maxDelay : Z;
  backoffMultiplier : Z
}.

Record CircuitBreakerOptions : Type := mkCircuitBreakerOptions {
  failureThreshold : Z;
  recoveryTimeout : Z;
  monitoringWindow : Z
}.

(** [Partial<RetryOptions>]: [None] is an absent property. *)
Record PartialRetryOptions : Type := mkPartialRetryOptions {
  maxAttempts' : option Z;
  baseDelay' : option Z;
  maxDelay' : option Z;
  backoffMultiplier' : option Z
}.

Record PartialCircuitBreakerOptions : Type := mkPartialCircuitBreakerOptions {
  failureThreshold' : option Z;
  recoveryTimeout' : option Z;
  monitoringWindow' : option Z
}.

Definition noRetryOptions : PartialRetryOptions :=
  mkPartialRetryOptions None None None None.

Definition noCircuitBreakerOptions : PartialCircuitBreakerOptions :=
  mkPartialCircuitBreakerOptions None None None.

Definition defaultRetryOptions : RetryOptions :=
  {| maxAttempts := 3; baseDelay := 1000; maxDelay := 10000;
     backoffMultiplier := 2 |}.

Definition defaultCircuitBreakerOptions : CircuitBreakerOptions :=
  {| failureThreshold := 5; recoveryTimeout := 30000;
     monitoringWindow := 60000 |}.

(** [{ ...this.defaultRetryOptions, ...options }] *)
Definition retryConfig (options : PartialRetryOptions) : RetryOptions :=
  {| maxAttempts := default (maxAttempts defaultRetryOptions) (maxAttempts' options);
     baseDelay := default (baseDelay defaultRetryOptions) (baseDelay' options);
     maxDelay := default (maxDelay defaultRetryOptions) (maxDelay' options);
     backoffMultiplier :=
       default (backoffMultiplier defaultRetryOptions) (backoffMultiplier' options) |}.

(** [{ ...this.defaultCircuitBreakerOptions, ...options }] *)
Definition circuitBreakerConfig (options : PartialCircuitBreakerOptions)
    : CircuitBreakerOptions :=
  {| failureThreshold :=
       default (failureThreshold defaultCircuitBreakerOptions) (failureThreshold' options);
     recoveryTimeout :=
       default (recoveryTimeout defaultCircuitBreakerOptions) (recoveryTimeout' options);
     monitoringWindow :=
       default (monitoringWindow defaultCircuitBreakerOptions) (monitoringWindow' options) |}.

Definition retryableErrors : list string :=
  ["ECONNRESET"; "ETIMEDOUT"; "ENOTFOUND"; "ECONNREFUSED"; "NETWORK_ERROR";
   "TIMEOUT"; "RATE_LIMIT"; "SERVICE_UNAVAILABLE"].

Definition isRetryableError (error : JsError) : bool :=
  match error with
  | ErrorObj message => includesAny retryableErrors message
  | Thrown _ => false
  end.

(** [Math.min(baseDelay * Math.pow(backoffMultiplier, attempt - 1), maxDelay)] *)
Definition calculateBackoffDelay (attempt : Z) (config : RetryOptions) : Z :=
  let delay := baseDelay config * backoffMultiplier config ^ (attempt - 1) in
  Z.min delay (maxDelay config).

Definition sleep (ms : Z) : M unit := log (EvSleep ms) >> elapse ms.

(** The [for] loop of [withRetry] from [attempt] on, with [remaining]
    iterations left before [attempt] exceeds [maxAttempts]; the code after
    the loop rethrows [lastError]. *)
Fixpoint retryFrom {T} (remaining : nat) (attempt : Z) (lastError : JsError)
    (config : RetryOptions) (operation : M T) : M T :=
  match remaining with
  | O => throw lastError
  | S remaining' =>
      tryCatch operation (fun error =>
        if attempt =? maxAttempts config then throw error
        else if negb (isRetryableError error) then throw error
        else
          let delay := calculateBackoffDelay attempt config in
          sleep delay >>
          retryFrom remaining' (attempt + 1) error config operation)
  end.

(** [Resilience.withRetry(operation, context, options)] *)
Definition withRetry {T} (operation : M T) (context : string)
    (options : PartialRetryOptions) : M T :=
  let config := retryConfig options in
  retryFrom (Z.to_nat (maxAttempts config)) 1 (Thrown "undefined") config operation.

Definition freshBreaker : CircuitBreakerState :=
  {| state := CbClosed; failureCount := 0; lastFailureTime := 0 |}.

(** The entry of [context] in the table, as [getOrCreateCircuitBreaker]
    would return it. *)
Definition breakerOf (context : string) (w : World) : CircuitBreakerState :=
  default freshBreaker (circuitBreakers w !! context).

(** [if (!this.circuitBreakers.has(context)) this.circuitBreakers.set(...)] *)
Definition ensureBreaker (context : string) (w : World) : World :=
  match circuitBreakers w !! context with
  | Some _ => w
  | None => setCircuitBreakers (<[context := freshBreaker]> (circuitBreakers w)) w
  end.

Definition getOrCreateCircuitBreaker (context : string) : M CircuitBreakerState :=
  modify (ensureBreaker context) >> gets (breakerOf context).

(** Field assignments on the breaker object, which the table shares. *)
Definition updateBreaker (context : string)
    (f : CircuitBreakerState -> CircuitBreakerState) : M unit :=
  modify (fun w => setCircuitBreakers (alter f context (circuitBreakers w)) w).

Definition circuitOpenError (context : string) : JsError :=
  ErrorObj ("Circuit breaker is open for " +:+ context +:+ ". Please try again later.").

Definition halfOpen (cb : CircuitBreakerState) : CircuitBreakerState :=
  {| state := CbHalfOpen; failureCount := 0; lastFailureTime := lastFailureTime cb |}.

Definition onSuccess (cb : CircuitBreakerState) : CircuitBreakerState :=
  match state cb with
  | CbHalfOpen =>
      {| state := CbClosed; failureCount := 0; lastFailureTime := lastFailureTime cb |}
  | _ => cb
  end.

Definition onFailure (config : CircuitBreakerOptions) (n : Z)
    (cb : CircuitBreakerState) : CircuitBreakerState :=
  let count := failureCount cb + 1 in
  {| state := if failureThreshold config <=? count then CbOpen else state cb;
     failureCount := count;
     lastFailureTime := n |}.

(** The test at the entry of [withCircuitBreaker]: an open breaker rejects
    the call until [recoveryTimeout] has passed since the last failure, and
    then lets one through as half-open. *)
Definition gate (context : string) (config : CircuitBreakerOptions)
    (circuitBreaker : CircuitBreakerState) : M unit :=
  match state circuitBreaker with
  | CbOpen =>
      let* n := dateNow in
      if n - lastFailureTime circuitBreaker <? recoveryTimeout config
      then throw (circuitOpenError context)
      else updateBreaker context halfOpen
  | _ => ret tt
  end.

(** The [try]/[catch] around the operation: what the breaker records. *)
Definition settle {T} (context : string) (config : CircuitBreakerOptions)
    (outcome : Result T) : M T :=
  match outcome with
  | inr result => updateBreaker context onSuccess >> ret result
  | inl error =>
      let* n := dateNow in
      updateBreaker context (onFailure config n) >> throw error
  end.

(** [Resilience.withCircuitBreaker(operation, context, options)] *)
Definition withCircuitBreaker {T} (operation : M T) (context : string)
    (options : PartialCircuitBreakerOptions) : M T :=
  let config := circuitBreakerConfig options in
  let* circuitBreaker := getOrCreateCircuitBreaker context in
  gate context config circuitBreaker >>
  let* outcome := attempt operation in
  settle context config outcome.

(** [Resilience.withResilience(operation, context, retryOptions,
    circuitBreakerOptions)] *)
Definition withResilience {T} (operation : M T) (context : string)
    (retryOptions : PartialRetryOptions)
    (circuitBreakerOptions : PartialCircuitBreakerOptions) : M T :=
  withCircuitBreaker (withRetry operation context retryOptions) context
    circuitBreakerOptions.

Definition resetCircuitBreaker (context : string) : M unit :=
  modify (fun w => setCircuitBreakers (delete context (circuitBreakers w)) w).

Definition resetAllCircuitBreakers : M unit :=
  modify (setCircuitBreakers ∅).

(** An entry of the record built by [getHealthStatus]. *)
Record BreakerReport : Type := mkBreakerReport {
  reportedState : BreakerStatus;
  reportedFailureCount : Z;
  reportedLastFailureTime : Z;
  isHealthy : bool
}.

Definition report (circuitBreaker : CircuitBreakerState) : BreakerReport :=
  {| reportedState := state circuitBreaker;
     reportedFailureCount := failureCount circuitBreaker;
     reportedLastFailureTime := lastFailureTime circuitBreaker;
     isHealthy := match state circuitBreaker with CbClosed => true | _ => false end |}.

(** [Resilience.getHealthStatus()]: [status[context] = {...}] for every
    entry of the table.  On a plain object the assignment to the key
    [__proto__] sets the prototype and creates no property, so that one
    context never shows in the record. *)
Definition getHealthStatus (w : World) : gmap string BreakerReport :=
  report <$> delete "__proto__" (circuitBreakers w).

End Resilience.

(** ** monitoring.ts: what is read from the registry *)

Module Reports.

Inductive HealthStatus : Type := Healthy | Degraded | Unhealthy.

(** [metrics.performance.successRate < 95] *)
Definition lowSuccessRate (m : MonitoringState) : bool :=
  negb (Qle_bool 95 (successRate (performance m))).

(** The contexts for which [getHealthSummary] pushes an issue. *)
Definition openBreakers (status : gmap string Resilience.BreakerReport)
    : list string :=
  List.map fst
    (List.filter
       (fun entry =>
          match Resilience.reportedState (snd entry) with
          | CbOpen => true
          | _ => false
          end)
       (map_to_list status)).

(** [metrics.errors.count > 50] *)
Definition highErrorCount (m : MonitoringState) : bool := 50 <? errorsCount m.

(** [issues.length] at the end of [getHealthSummary]. *)
Definition issueCount (w : World) : nat :=
  ((if lowSuccessRate (metrics w) then 1 else 0) +
   length (openBreakers (Resilience.getHealthStatus w)) +
   (if highErrorCount (metrics w) then 1 else 0))%nat.

(** The [status] field of [Monitoring.getHealthSummary()]. *)
Definition getHealthSummary (w : World) : HealthStatus :=
  let issues := issueCount w in
  if (0 <? issues)%nat then
    if (2 <? issues)%nat then Unhealthy else Degraded
  else Healthy.

(** [Monitoring.resetMetrics()] *)
Definition resetMetrics : M unit := modify (setMetrics Monitoring.initial).

End Reports.

(** ** error-handler.ts *)

(** The body of a [Response], before serialisation. *)
Inductive Body : Type :=
| SseError (message : string) (retryable : bool)
| JsonError (message : string) (retryable : bool)
| SseMessage (content : string)
| ResumableStream (appId : string).

Record Response : Type := mkResponse {
  status : Z;
  headers : list (string * string);
  body : Body
}.

Definition sseHeaders : list (string * string) :=
  [("content-type", "text/event-stream"); ("cache-control", "no-cache");
   ("connection", "keep-alive"); ("x-vercel-ai-ui-message-stream", "v1");
   ("x-accel-buffering", "no")].

Module ErrorHandler.

Definition retryableErrors : list string :=
  ["ECONNRESET"; "ETIMEDOUT"; "ENOTFOUND"; "ECONNREFUSED"; "NETWORK_ERROR";
   "TIMEOUT"].

Definition isRetryableError (error : JsError) : bool :=
  match error with
  | ErrorObj message => includesAny retryableErrors message
  | Thrown _ => false
  end.

Definition getStatusCode (error : JsError) : Z :=
  match error with
  | ErrorObj message =>
      if includes message "not found" then 404
      else if includes message "unauthorized" then 401
      else if includes message "forbidden" then 403
      else if includes message "validation" then 400
      else if includes message "timeout" then 408
      else 500
  | Thrown _ => 500
  end.

Definition connectionIssue : string := "Connection issue. Please try again.".
Definition timedOut : string := "Request timed out. Please try again.".
Definition unexpected : string := "An unexpected error occurred. Please try again.".

Definition getErrorMessage (error : JsError) : string :=
  match error with
  | ErrorObj message =>
      if includes message "ECONN" || includes message "ENOTFOUND"
      then connectionIssue
      else if includes message "timeout" then timedOut
      else message
  | Thrown _ => unexpected
  end.

(** [ErrorHandler.handleError(error, context)] *)
Definition handleError (error : JsError) (context : string) : Response :=
  let isRetryable := isRetryableError error in
  let statusCode := getStatusCode error in
  let message := getErrorMessage error in
  if includes context "chat" || includes context "stream" then
    {| status := statusCode; headers := sseHeaders;
       body := SseError message isRetryable |}
  else
    {| status := statusCode;
       headers := [("content-type", "application/json")];
       body := JsonError message isRetryable |}.

(** [ErrorHandler.createStreamSuccessResponse(message)] *)
Definition createStreamSuccessResponse (message : string) : Response :=
  {| status := 200; headers := sseHeaders; body := SseMessage message |}.

(** Whether a response carries an error. *)
Definition isErrorResponse (r : Response) : bool :=
  match body r with
  | SseError _ _ | JsonError _ _ => true
  | SseMessage _ | ResumableStream _ => false
  end.

(** The message a caller reads in a response. *)
Definition messageOf (r : Response) : option string :=
  match body r with
  | SseError m _ | JsonError m _ | SseMessage m => Some m
  | ResumableStream _ => None
  end.

(** [ErrorHandler.validateRequest(req, requiredHeaders)].  The request is
    what [req.headers.get] answers for a name: the value, [None] for [null],
    or what the platform throws. *)
Fixpoint validateRequest (get : string -> Result (option string))
    (requiredHeaders : list string) : Result (option Response) :=
  match requiredHeaders with
  | [] => inr None
  | header :: rest =>
      match get header with
      | inl thrown => inl thrown
      | inr value =>
          (* [!value]: [null] and the empty string *)
          if match value with Some v => String.eqb v "" | None => true end
          then inr (Some (handleError
                            (ErrorObj ("Missing required header: " +:+ header))
                            "request-validation"))
          else validateRequest get rest
      end
  end.

End ErrorHandler.


(** ** ai-service.ts, as far as the stream manager calls it *)

Module AIService.

(** The durable-memory collaborator has a fault schedule of its own. *)
Definition memoryCall : M unit :=
  fun w => match memoryFaults w with
           | true :: rest =>
               (inl (ErrorObj "Memory unavailable"), setMemoryFaults rest w)
           | false :: rest => (inr tt, setMemoryFaults rest w)
           | [] => (inr tt, w)
           end.

Definition getUnsavedMessages (appId : string) : M (list string) :=
  memoryCall >> gets (fun w => default [] (unsavedMessages w !! appId)).

Definition saveMessagesToMemory (appId : string) (messages : list string)
    : M unit :=
  memoryCall >> log (EvSave appId messages).

(** The next producer behaviour of the script; past its end the producer
    answers with a well-formed stream and fires no hook. *)
Definition quietProducer : Producer :=
  {| hooks := []; result := Returns (mkStreamObject true true);
     resumable := Created |}.

Definition nextProducer : M Producer :=
  fun w => match producers w with
           | p :: rest => (inr p, setProducers rest w)
           | [] => (inr quietProducer, w)
           end.

End AIService.

(** ** stream-manager.ts *)

Module StreamManager.

Definition stateKey (appId : string) : string :=
  "app:" +:+ appId +:+ ":stream-state".

Definition eventsChannel (appId : string) : string := "events:" +:+ appId.

Definition getStreamState (appId : string) : M (option string) :=
  Redis.get (stateKey appId).

Definition isRunning (state : option string) : bool :=
  match state with
  | Some v => String.eqb v "running"
  | None => false
  end.

Definition isStreamRunning (appId : string) : M bool :=
  let* state := Redis.get (stateKey appId) in
  ret (isRunning state).

Definition stopStream (appId : string) : M unit :=
  Redis.publish (eventsChannel appId) AbortStream >>
  Redis.del (stateKey appId).

(** [!state] *)
Definition falsy (state : option string) : bool :=
  match state with
  | Some v => String.eqb v ""
  | None => true
  end.

Fixpoint waitLoop (attempts : nat) (appId : string) : M bool :=
  match attempts with
  | O => ret false
  | S attempts' =>
      let* state := Redis.get (stateKey appId) in
      if falsy state then ret true
      else log (EvTimeout 1000) >> elapse 1000 >> waitLoop attempts' appId
  end.

(** [waitForStreamToStop(appId, maxAttempts = 60)] *)
Definition waitForStreamToStop (appId : string) (maxAttempts : Z) : M bool :=
  waitLoop (Z.to_nat maxAttempts) appId.

Definition clearStreamState (appId : string) : M unit :=
  Redis.del (stateKey appId).

Definition setupAbortCallback (appId : string) : M unit :=
  Redis.subscribe (eventsChannel appId).

Definition updateKeepAlive (appId : string) : M unit :=
  Redis.setEx (stateKey appId) "running" 15.

Inductive LifecycleEvent : Type := Start | Finish | Error.

Definition handleStreamLifecycle (appId : string) (event : LifecycleEvent)
    : M unit :=
  match event with
  | Start => updateKeepAlive appId
  | Finish | Error => clearStreamState appId
  end.

(** *** [streamHealth], a [Map] kept in insertion order *)

Definition STREAM_TIMEOUT : Z := 5 * 60 * 1000.
Definition STREAM_HEALTH_CHECK_INTERVAL : Z := 30 * 1000.

Definition hasKey (appId : string) (entry : string * StreamHealthRecord) : bool :=
  String.eqb (fst entry) appId.

Definition healthGet (appId : string) (m : list (string * StreamHealthRecord))
    : option StreamHealthRecord :=
  snd <$> List.find (hasKey appId) m.

Definition healthSet (appId : string) (h : StreamHealthRecord)
    (m : list (string * StreamHealthRecord)) : list (string * StreamHealthRecord) :=
  if existsb (hasKey appId) m
  then List.map (fun entry => if hasKey appId entry then (appId, h) else entry) m
  else m ++ [(appId, h)].

Definition healthDelete (appId : string) (m : list (string * StreamHealthRecord))
    : list (string * StreamHealthRecord) :=
  List.filter (fun entry => negb (hasKey appId entry)) m.

Definition streamHealthDelete (appId : string) : M unit :=
  modify (fun w => setStreamHealth (healthDelete appId (streamHealth w)) w).

(** *** [activeStreams], a [Set] kept in insertion order *)

Definition MAX_CONCURRENT_STREAMS : nat := 10.

Definition setAdd (appId : string) (s : list string) : list string :=
  if existsb (String.eqb appId) s then s else s ++ [appId].

Definition setDelete (appId : string) (s : list string) : list string :=
  List.filter (fun x => negb (String.eqb appId x)) s.

Definition canStartNewStream : M bool :=
  gets (fun w => (length (activeStreams w) <? MAX_CONCURRENT_STREAMS)%nat).

Definition reserveStreamSlot (appId : string) : M bool :=
  let* can := canStartNewStream in
  if can then
    modify (fun w => setActiveStreams (setAdd appId (activeStreams w)) w) >>
    log (EvReserve appId true) >> ret true
  else log (EvReserve appId false) >> ret false.

Definition releaseStreamSlot (appId : string) : M unit :=
  modify (fun w => setActiveStreams (setDelete appId (activeStreams w)) w).

(** [forceCleanupStream]: whatever fails inside is caught and logged. *)
Definition forceCleanupStream (appId : string) : M unit :=
  log (EvForceCleanup appId) >>
  tryCatch
    (clearStreamState appId >>
     streamHealthDelete appId >>
     releaseStreamSlot appId >>
     Redis.del ("stream:" +:+ appId) >>
     Redis.del ("stream:" +:+ appId +:+ ":keepalive") >>
     Redis.del ("stream:" +:+ appId +:+ ":events"))
    (fun _ => ret tt).

(** The callback of [setInterval(..., STREAM_HEALTH_CHECK_INTERVAL)]. *)
Definition healthCheck : M unit :=
  let* n := dateNow in
  let* entries := gets streamHealth in
  forEach entries (fun entry =>
    let appId := fst entry in
    let health := snd entry in
    when (STREAM_TIMEOUT <? n - lastActivity health) (forceCleanupStream appId) >>
    when (10 * 60 * 1000 <? n - startTime health) (forceCleanupStream appId)).

Definition healthy (n : Z) (health : StreamHealthRecord) : bool :=
  let timeSinceLastActivity := n - lastActivity health in
  let streamAge := n - startTime health in
  (timeSinceLastActivity <? STREAM_TIMEOUT) && (streamAge <? 10 * 60 * 1000).

Definition isStreamHealthy (appId : string) : M bool :=
  let* health := gets (fun w => healthGet appId (streamHealth w)) in
  match health with
  | None => ret false
  | Some health => let* n := dateNow in ret (healthy n health)
  end.

Definition ensureSingleStream (appId : string) : M unit :=
  tryCatch
    (let* running := isStreamRunning appId in
     let* _ :=
       if running then
         let* isHealthy := isStreamHealthy appId in
         if isHealthy then
           stopStream appId >>
           let* _ := waitForStreamToStop appId 60 in ret tt
         else forceCleanupStream appId
       else ret tt in
     clearStreamState appId >>
     modify (fun w =>
       setStreamHealth
         (healthSet appId
            {| lastActivity := now w; startTime := now w; messageCount := 0 |}
            (streamHealth w)) w))
    (fun _ => forceCleanupStream appId).

Definition touch (n : Z) (count : option Z) (h : StreamHealthRecord)
    : StreamHealthRecord :=
  {| lastActivity := n; startTime := startTime h;
     messageCount := default (messageCount h) count |}.

Definition updateStreamHealth (appId : string) (messageCount : option Z)
    : M unit :=
  modify (fun w =>
    match healthGet appId (streamHealth w) with
    | Some h =>
        setStreamHealth
          (healthSet appId (touch (now w) messageCount h) (streamHealth w)) w
    | None => w
    end).

(** *** The hooks of one [sendMessageWithStreaming] call *)

(** The local variables the hooks of a call close over. *)
Record CallContext : Type := mkCallContext {
  lastKeepAlive : Z;
  shouldAbort : bool;
  fallbackToMemory : bool;
  aborted : bool
}.

(** A hook is an [async] function of the manager run by the producer: when
    it rejects, the rejection is the producer's to deal with, and what the
    producer does next is what its script says. *)
Definition hookBody (m : M unit) : M bool :=
  let* r := attempt m in
  ret (match r with inr _ => true | inl _ => false end).

Definition onChunk (appId : string) (c : CallContext) : M CallContext :=
  let* n := dateNow in
  if 5000 <? n - lastKeepAlive c then
    let* _ := hookBody (updateKeepAlive appId >> updateStreamHealth appId None) in
    ret (mkCallContext n (shouldAbort c) (fallbackToMemory c) (aborted c))
  else ret c.

Definition onStepFinish (appId : string) (c : CallContext) : M CallContext :=
  updateStreamHealth appId None >>
  if shouldAbort c then
    let* cleared := hookBody (handleStreamLifecycle appId Error) in
    if cleared then
      log (EvAbort "Aborted stream after step finish") >>
      let* _ :=
        hookBody
          (let* messages := AIService.getUnsavedMessages appId in
           AIService.saveMessagesToMemory appId messages) in
      ret (mkCallContext (lastKeepAlive c) (shouldAbort c) (fallbackToMemory c) true)
    else ret c
  else ret c.

Definition onError (appId : string) (c : CallContext) : M CallContext :=
  let* _ :=
    hookBody
      (handleStreamLifecycle appId Error >>
       streamHealthDelete appId >>
       releaseStreamSlot appId) in
  ret (mkCallContext (lastKeepAlive c) (shouldAbort c) true (aborted c)).

Definition onFinish (appId : string) (c : CallContext) : M CallContext :=
  let* _ :=
    hookBody
      (handleStreamLifecycle appId Finish >>
       streamHealthDelete appId >>
       releaseStreamSlot appId) in
  ret c.

Definition deliver (appId : string) (c : CallContext) (e : HookEvent)
    : M CallContext :=
  match e with
  | Chunk => onChunk appId c
  | StepFinish => onStepFinish appId c
  | ErrorHook => onError appId c
  | FinishHook => onFinish appId c
  | AbortSignal =>
      ret (mkCallContext (lastKeepAlive c) true (fallbackToMemory c) (aborted c))
  | Elapse ms => elapse ms >> ret c
  end.

Fixpoint deliverAll (appId : string) (c : CallContext) (es : list HookEvent)
    : M CallContext :=
  match es with
  | [] => ret c
  | e :: rest => let* c' := deliver appId c e in deliverAll appId c' rest
  end.

(** *** Responses *)

(** What [sendMessageWithStreaming] resolves to: the resumable stream of the
    session, or the synthetic completion of the fallback path. *)
Inductive StreamResponse : Type :=
| Resumable (appId : string)
| SavedToMemory.

(** [streamResponse.response()] *)
Definition response (r : StreamResponse) : M Response :=
  match r with
  | Resumable appId =>
      Redis.subscribe (eventsChannel appId) >>
      ret {| status := 200; headers := sseHeaders; body := ResumableStream appId |}
  | SavedToMemory =>
      ret {| status := 200;
             headers := [("content-type", "text/event-stream");
                         ("cache-control", "no-cache");
                         ("connection", "keep-alive")];
             body := SseMessage "Message processed and saved to memory" |}
  end.

(** [setStream(appId, prompt, stream)] *)
Definition setStream (appId : string) (stream : StreamObject)
    (created : ResumableOutcome) : M StreamResponse :=
  if negb (hasToUIMessageStreamResponse stream) then
    throw (ErrorObj "Stream missing required toUIMessageStreamResponse method")
  else if negb (hasBody stream) then
    throw (ErrorObj "Error creating resumable stream: response body is undefined")
  else
    Redis.setEx (stateKey appId) "running" 15 >>
    match created with
    | Rejects error => throw error
    | ReturnsNull => throw (ErrorObj "Failed to create resumable stream")
    | Created => ret (Resumable appId)
    end.

(** *** [sendMessageWithStreaming] *)

Definition poolExhausted : JsError :=
  ErrorObj "Unable to reserve stream slot - connection pool exhausted".

(** The inner [try] block: the producer call and the stream set-up. *)
Definition startProducer (appId : string) (c : CallContext) : M StreamResponse :=
  let* producer := AIService.nextProducer in
  log (EvProducer appId) >>
  let* _ := deliverAll appId c (hooks producer) in
  match result producer with
  | Throws error => throw error
  | Returns stream =>
      if negb (hasToUIMessageStreamResponse stream) then
        throw (ErrorObj "Invalid stream format - missing toUIMessageStreamResponse method")
      else
        let* resumableStream := setStream appId stream (resumable producer) in
        setupAbortCallback appId >>
        handleStreamLifecycle appId Start >>
        ret resumableStream
  end.

(** The fallback block. *)
Definition fallback (appId : string) : M StreamResponse :=
  log (EvFallback appId) >>
  tryCatch
    (let* unsavedMessages := AIService.getUnsavedMessages appId in
     when (0 <? length unsavedMessages)%nat
       (AIService.saveMessagesToMemory appId unsavedMessages) >>
     ret SavedToMemory)
    (fun _ => throw (ErrorObj "Failed to process message and fallback failed")).

(** Its first block: when the pool is full, the two streams that entered
    it first are cleaned up by force. *)
Definition makeRoom : M unit :=
  let* can := canStartNewStream in
  when (negb can)
    (let* oldestStreams := gets (fun w => firstn 2 (activeStreams w)) in
     forEach oldestStreams forceCleanupStream).

(** What follows the reservation of a slot.  When the inner [try] block
    throws, the [catch] sets [fallbackToMemory], so the fallback block always
    runs after it. *)
Definition serveStream (appId : string) : M StreamResponse :=
  ensureSingleStream appId >>
  setupAbortCallback appId >>
  let* lastKeepAlive := dateNow in
  let* outcome :=
    attempt (startProducer appId (mkCallContext lastKeepAlive false false false)) in
  match outcome with
  | inr resumableStream => ret resumableStream
  | inl _ =>
      streamHealthDelete appId >>
      releaseStreamSlot appId >>
      fallback appId
  end.

(** The body of the promise built by [sendMessageWithStreaming(agent, appId,
    mcpUrl, fs, message)]. *)
Definition sendMessageWithStreaming (appId : string) : M StreamResponse :=
  makeRoom >>
  let* reserved := reserveStreamSlot appId in
  if negb reserved then throw poolExhausted else serveStream appId.

End StreamManager.

(** ** chat-service.ts *)

Module ChatService.
Import StreamManager.

(** What the entry point learns from its surroundings: the parsed body of
    the request ([None] when it has no [messages]) and the answer of
    [getApp] (the repository of the app, [None] when there is no app). *)
Record ChatRequest : Type := mkChatRequest {
  json : Result (option (list string));
  app : Result (option string)
}.

(** [freestyle.requestDevServer]: the next outcome of the script. *)
Definition requestDevServer : M string :=
  fun w => match devServers w with
           | r :: rest => (r, setDevServers rest w)
           | [] => (inr "mcp", w)
           end.

Definition recordSuccess (duration : Z) : M unit :=
  modify (fun w => setMetrics (Monitoring.recordSuccess duration (metrics w)) w).

Definition recordFailure (duration : Z) (context error : string) : M unit :=
  modify (fun w =>
    setMetrics (Monitoring.recordFailure (now w) duration context error (metrics w)) w).

Definition manageStreamLifecycle (appId : string) : M unit :=
  let* running := isStreamRunning appId in
  if running then
    stopStream appId >>
    let* stopped := waitForStreamToStop appId 60 in
    if negb stopped then
      clearStreamState appId >>
      throw (ErrorObj "Previous stream is still shutting down, please try again")
    else ret tt
  else ret tt.

Definition handleStreamingFallback (appId : string) : M Response :=
  tryCatch
    (let* unsavedMessages := AIService.getUnsavedMessages appId in
     when (0 <? length unsavedMessages)%nat
       (AIService.saveMessagesToMemory appId unsavedMessages) >>
     ret (ErrorHandler.createStreamSuccessResponse
            "Message processed and saved to memory. Streaming will resume on next request."))
    (fun _ => throw (ErrorObj "Failed to process message. Please try again.")).

Definition mcpRetry : Resilience.PartialRetryOptions :=
  Resilience.mkPartialRetryOptions (Some 2) (Some 500) None None.
Definition mcpBreaker : Resilience.PartialCircuitBreakerOptions :=
  Resilience.mkPartialCircuitBreakerOptions (Some 3) (Some 15000) None.
Definition streamingRetry : Resilience.PartialRetryOptions :=
  Resilience.mkPartialRetryOptions (Some 2) (Some 1000) None None.
Definition streamingBreaker : Resilience.PartialCircuitBreakerOptions :=
  Resilience.mkPartialCircuitBreakerOptions (Some 2) (Some 10000) None.

(** The part of [processChatRequest] inside the outer [try]. *)
Definition serve (req : ChatRequest) (appId : string) (startTime : Z)
    : M Response :=
  let* parsed := (fun w => (json req, w)) in
  match parsed with
  | None | Some [] => throw (ErrorObj "No messages provided")
  | Some _ =>
      let* found := (fun w => (app req, w)) in
      match found with
      | None => throw (ErrorObj "App not found")
      | Some _ =>
          manageStreamLifecycle appId >>
          let* _ :=
            Resilience.withResilience requestDevServer "mcp-server-request"
              mcpRetry mcpBreaker in
          tryCatch
            (let* resumableStream :=
               Resilience.withResilience (sendMessageWithStreaming appId)
                 "streaming" streamingRetry streamingBreaker in
             let* n := dateNow in
             recordSuccess (n - startTime) >>
             response resumableStream)
            (fun _ =>
               let* fallbackResponse := handleStreamingFallback appId in
               let* n := dateNow in
               recordSuccess (n - startTime) >>
               ret fallbackResponse)
      end
  end.

(** [ChatService.processChatRequest(req, appId)] *)
Definition processChatRequest (req : ChatRequest) (appId : string) : M Response :=
  let* startTime := dateNow in
  tryCatch (serve req appId startTime)
    (fun error =>
       let* n := dateNow in
       recordFailure (n - startTime) "chat-processing" (toString error) >>
       ret (ErrorHandler.handleError error "chat-processing")).

(** [ChatService.validateChatRequest(req)] *)
Definition validateChatRequest (get : string -> Result (option string))
    : Result (option Response) :=
  match ErrorHandler.validateRequest get ["Adorable-App-Id"] with
  | inl thrown => inl thrown
  | inr (Some validationError) => inr (Some validationError)
  | inr None =>
      match get "content-type" with
      | inl thrown => inl thrown
      | inr contentType =>
          (* [!contentType?.includes("application/json")] *)
          if negb (match contentType with
                   | Some v => includes v "application/json"
                   | None => false
                   end)
          then inr (Some (ErrorHandler.handleError
                            (ErrorObj "Invalid content type. Expected application/json")
                            "request-validation"))
          else inr None
      end
  end.

End ChatService.


(** ** Histories of calls *)

Module History.
Import StreamManager.

(** [Resilience.withCircuitBreaker] called once per operation of the list,
    each caller dealing with its own outcome. *)
Fixpoint callEach {T} (operations : list (M T)) (context : string)
    (options : Resilience.PartialCircuitBreakerOptions) : M unit :=
  match operations with
  | [] => ret tt
  | operation :: rest =>
      let* _ := attempt (Resilience.withCircuitBreaker operation context options) in
      callEach rest context options
  end.

(** The delays of the [Resilience.sleep] calls seen in a trace. *)
Definition sleeps (events : list Event) : list Z :=
  flat_map (fun e => match e with EvSleep ms => [ms] | _ => [] end) events.

(** What can happen to one server instance, one step at a time: calls of
    the exported functions, the periodic health check, hooks of earlier
    calls firing while their stream is consumed, and the surroundings
    (time passing, another instance refreshing a token, scripts of the
    collaborators being set). *)
Inductive Op : Type :=
| StartSession (appId : string)
| ForceCleanup (appId : string)
| HealthCheck
| Hook (appId : string) (c : CallContext) (e : HookEvent)
| StopStream (appId : string)
| ClearStreamState (appId : string)
| TimePasses (ms : Z)
| RemoteKeepAlive (appId : string)
| StoreFaults (schedule : list bool)
| MemoryFaults (schedule : list bool)
| Producers (script : list Producer).

Definition perform (op : Op) : M unit :=
  match op with
  | StartSession appId => sendMessageWithStreaming appId >> ret tt
  | ForceCleanup appId => forceCleanupStream appId
  | HealthCheck => healthCheck
  | Hook appId c e => deliver appId c e >> ret tt
  | StopStream appId => stopStream appId
  | ClearStreamState appId => clearStreamState appId
  | TimePasses ms => elapse ms
  | RemoteKeepAlive appId =>
      modify (fun w =>
        setStore (<[stateKey appId := mkEntry "running" (Some (now w + 15000))]> (store w)) w)
  | StoreFaults schedule => modify (setStoreFaults schedule)
  | MemoryFaults schedule => modify (setMemoryFaults schedule)
  | Producers script => modify (setProducers script)
  end.

(** The world after a history; a step that throws leaves what it did. *)
Definition run (ops : list Op) (w : World) : World :=
  fold_left (fun w op => snd (perform op w)) ops w.

(** The part of the state the cleanup functions act on. *)
Definition observable (w : World)
    : gmap string StoreEntry * list (string * StreamHealthRecord) * list string :=
  (store w, streamHealth w, activeStreams w).

(** The next [n] store commands succeed. *)
Definition storeAnswers (n : nat) (w : World) : bool :=
  negb (existsb id (firstn n (storeFaults w))).

End History.

(** ** Vocabulary of the properties *)

Module ResilienceSpec.
Import Resilience History.

(** An operation that fails with a transient error whenever it is tried and
    does not itself go through [Resilience.sleep]. *)
Definition failsRetryably {T} (operation : M T) : Prop :=
  forall w, exists e w',
    operation w = (inl e, w') /\ isRetryableError e = true /\
    sleeps (trace w') = sleeps (trace w).

(** The delay before retry [k + 1], as the specification gives it. *)
Definition schedule (k : nat) : Z := Z.min (1000 * 2 ^ Z.of_nat k) 10000.

(** Whether the gate lets a call through at this instant. *)
Definition passes (ctx : string) (config : CircuitBreakerOptions) (w : World) : Prop :=
  state (breakerOf ctx w) <> CbOpen \/
  recoveryTimeout config <= now w - lastFailureTime (breakerOf ctx w).

(** An operation that fails whenever it is tried and leaves the breaker
    table alone. *)
Definition failsQuietly {T} (operation : M T) : Prop :=
  forall w, exists e w',
    operation w = (inl e, w') /\ circuitBreakers w' = circuitBreakers w.

(** The world in which a call that passes the gate runs its operation. *)
Definition pastGate (context : string) (w : World) : World :=
  match state (breakerOf context w) with
  | CbOpen => setCircuitBreakers (alter halfOpen context (circuitBreakers w)) w
  | _ => ensureBreaker context w
  end.

End ResilienceSpec.

Module Relations.
Import StreamManager History.

(** A relation on worlds that every step of a computation respects. *)
Definition Steps (R : World -> World -> Prop) {A} (m : M A) : Prop :=
  forall w, R w (snd (m w)).

(** A relation that the state changes of the stream manager respect: it is
    blind to the clock, the store, the health table and the fault
    schedules, and it allows releasing a slot at any time and taking one
    below capacity. *)
Class FrameCore (R : World -> World -> Prop) : Prop := {
  frame_preorder :: PreOrder R;
  frame_now : forall v w, R w (setNow v w);
  frame_storeFaults : forall v w, R w (setStoreFaults v w);
  frame_store : forall v w, R w (setStore v w);
  frame_streamHealth : forall v w, R w (setStreamHealth v w);
  frame_memoryFaults : forall v w, R w (setMemoryFaults v w);
  frame_release : forall a w,
    R w (setActiveStreams (setDelete a (activeStreams w)) w);
  frame_reserve : forall a w,
    (length (activeStreams w) < MAX_CONCURRENT_STREAMS)%nat ->
    R w (setActiveStreams (setAdd a (activeStreams w)) w)
}.

(** ... and allows new events in the trace *)
Class FrameLog (R : World -> World -> Prop) : Prop :=
  frame_log : forall e w, R w (setTrace (trace w ++ [e]) w).

(** ... and the producer script being consumed or replaced. *)
Class FrameProducers (R : World -> World -> Prop) : Prop :=
  frame_producers : forall v w, R w (setProducers v w).

Definition bounded (w : World) : Prop :=
  (length (activeStreams w) <= MAX_CONCURRENT_STREAMS)%nat.

(** "If the pool was within its bound, it still is." *)
Definition keepsBound (w w' : World) : Prop := bounded w -> bounded w'.

(** "If no id occurred twice in the pool, none does now." *)
Definition keepsDistinct (w w' : World) : Prop :=
  List.NoDup (activeStreams w) -> List.NoDup (activeStreams w').

(** "The trace only grew." *)
Definition extends (w w' : World) : Prop :=
  exists events, trace w' = trace w ++ events.

Definition sameTrace (w w' : World) : Prop := trace w' = trace w.
Definition sameProducers (w w' : World) : Prop := producers w' = producers w.
Definition sameMetrics (w w' : World) : Prop := metrics w' = metrics w.

(** The relation "the breaker table is untouched". *)
Definition sameBreakers (w w' : World) : Prop :=
  circuitBreakers w' = circuitBreakers w.

(** "Whatever was absent for session [a] is still absent." *)
Definition sameSlots (w w' : World) : Prop :=
  streamHealth w' = streamHealth w /\ activeStreams w' = activeStreams w.

Definition Total {A} (m : M A) : Prop := forall w, exists a, fst (m w) = inr a.

(** The streams [makeRoom] cleans up. *)
Definition relief (w : World) : list string :=
  if (length (activeStreams w) <? MAX_CONCURRENT_STREAMS)%nat then []
  else firstn 2 (activeStreams w).

(** The Redis keys [forceCleanupStream] deletes. *)
Definition keysOf (a : string) : list string :=
  [stateKey a; "stream:" +:+ a; "stream:" +:+ a +:+ ":keepalive";
   "stream:" +:+ a +:+ ":events"].

(** Nothing is left of session [a] in the keys [ks], the health table and
    the pool. *)
Definition cleaned (ks : list string) (a : string) (w : World) : Prop :=
  Forall (fun k => store w !! k = None) ks /\
  healthDelete a (streamHealth w) = streamHealth w /\
  setDelete a (activeStreams w) = activeStreams w.

(** "If nothing was left of [a], nothing observable changed." *)
Definition settled (ks : list string) (a : string) (w w' : World) : Prop :=
  cleaned ks a w -> observable w' = observable w.

(** The health judgement of [isStreamHealthy], read off the world. *)
Definition healthyNow (a : string) (w : World) : bool :=
  match healthGet a (streamHealth w) with
  | Some h =>
      (now w - lastActivity h <? 5 * 60 * 1000) &&
      (now w - startTime h <? 10 * 60 * 1000)
  | None => false
  end.

Definition fallbackFailed : JsError :=
  ErrorObj "Failed to process message and fallback failed".

(** How the part of [processChatRequest] inside the outer [try] can end: a
    response that is not an error, after one [recordSuccess]; or an
    exception, and the registry as it was. *)
Definition served (m0 : MonitoringState) (out : Result Response * World) : Prop :=
  match fst out with
  | inr resp =>
      ErrorHandler.isErrorResponse resp = false /\
      exists d, metrics (snd out) = Monitoring.recordSuccess d m0
  | inl _ => metrics (snd out) = m0
  end.

End Relations.

Module RegistrySpec.
Import Monitoring.

(** The error entries a history of calls recorded, oldest first. *)
Definition failuresOf (calls : list Call) : list ErrorEntry :=
  flat_map (fun c => match c with
                     | Failure n _ context error => [mkErrorEntry n context error]
                     | Success _ => []
                     end) calls.

(** The durations a history of calls reported, oldest first. *)
Definition durationsOf (calls : list Call) : list Z :=
  List.map (fun c => match c with
                     | Success d => d
                     | Failure _ d _ _ => d
                     end) calls.

End RegistrySpec.

Module RetrySpec.
Import Resilience History.

(** "No [Resilience.sleep] was added to the trace." *)
Definition sameSleeps (w w' : World) : Prop :=
  sleeps (trace w') = sleeps (trace w).

(** An operation that succeeds whenever it is tried and leaves the breaker
    table alone. *)
Definition succeedsQuietly {T} (operation : M T) : Prop :=
  forall w, exists v w',
    operation w = (inr v, w') /\ circuitBreakers w' = circuitBreakers w.

(** An operation tagged with how it ends: [true] for one that fails. *)
Definition endsAsTagged {T} (call : bool * M T) : Prop :=
  if fst call then ResilienceSpec.failsQuietly (snd call)
  else succeedsQuietly (snd call).

(** "The breaker of [context] is as it was." *)
Definition sameBreakerOf (context : string) (w w' : World) : Prop :=
  circuitBreakers w' !! context = circuitBreakers w !! context.

End RetrySpec.

Module ValidationSpec.
Import ErrorHandler.

(** A header that [validateRequest] accepts: [req.headers.get(header)] is
    a non-empty string. *)
Definition present (get : string -> Result (option string)) (header : string)
    : Prop :=
  exists v, get header = inr (Some v) /\ v <> "".

(** The JSON error response for a header that is missing. *)
Definition missingHeader (header : string) : Response :=
  let error := ErrorObj ("Missing required header: " +:+ header) in
  {| status := getStatusCode error;
     headers := [("content-type", "application/json")];
     body := JsonError (getErrorMessage error) (isRetryableError error) |}.

End ValidationSpec.

Module StreamSpec.
Import StreamManager.

(** The two tests of the periodic health check on one record: either one
    has the session force-cleaned. *)
Definition stale (n : Z) (health : StreamHealthRecord) : bool :=
  (STREAM_TIMEOUT <? n - lastActivity health) ||
  (10 * 60 * 1000 <? n - startTime health).

(** "Nothing of session [b] was touched": its liveness token, its health
    record and its slot are as they were. *)
Definition untouched (b : string) (w w' : World) : Prop :=
  store w' !! stateKey b = store w !! stateKey b /\
  healthGet b (streamHealth w') = healthGet b (streamHealth w) /\
  (In b (activeStreams w') <-> In b (activeStreams w)).

(** "Nothing changed but the breaker table, the script of the dev server
    and the trace." *)
Definition alike (w w' : World) : Prop :=
  now w' = now w /\ storeFaults w' = storeFaults w /\ store w' = store w /\
  streamHealth w' = streamHealth w /\ activeStreams w' = activeStreams w /\
  metrics w' = metrics w /\ producers w' = producers w /\
  memoryFaults w' = memoryFaults w /\ unsavedMessages w' = unsavedMessages w.

End StreamSpec.

(** * Properties *)

Module MonitoringFacts.
Import Monitoring.

Lemma consistent_initial : consistent initial.
Proof. unfold consistent; cbn. repeat split; try lia. Qed.

Lemma rate_formula (s t : Z) :
  (inject_Z s / inject_Z t * 100 == 100 * inject_Z s / inject_Z t)%Q.
Proof. unfold Qdiv. ring. Qed.

Lemma consistent_step m c : consistent m -> consistent (step m c).
Proof.
  destruct m as [[avg tot suc fai rate] recent cnt times].
  unfold consistent; cbn. intros (Hs & Hf & Ht & _).
  destruct c as [d | n d ctx e]; cbn.
  - assert (Hpos : (0 <? tot + 1) = true) by (apply Z.ltb_lt; lia).
    rewrite Hpos; cbn. unfold expectedRate; cbn.
    assert (Hnz : (tot + 1 =? 0) = false) by (apply Z.eqb_neq; lia).
    rewrite Hnz. repeat split; try lia. apply rate_formula.
  - assert (Hpos : (0 <? tot + 1) = true) by (apply Z.ltb_lt; lia).
    rewrite Hpos; cbn. unfold expectedRate; cbn.
    assert (Hnz : (tot + 1 =? 0) = false) by (apply Z.eqb_neq; lia).
    rewrite Hnz. repeat split; try lia. apply rate_formula.
Qed.

Lemma consistent_fold calls : forall m,
  consistent m -> consistent (fold_left step calls m).
Proof.
  induction calls as [| c calls IH]; intros m Hm; cbn; [exact Hm |].
  apply IH, consistent_step, Hm.
Qed.


End MonitoringFacts.

(** ** The monad *)

Module MonadFacts.
Import Relations.

Lemma bind_ok {A B} (m : M A) (k : A -> M B) w a w' :
  m w = (inr a, w') -> bind m k w = k a w'.
Proof. intros H. unfold bind. now rewrite H. Qed.

Lemma bind_err {A B} (m : M A) (k : A -> M B) w e w' :
  m w = (inl e, w') -> bind m k w = (inl e, w').
Proof. intros H. unfold bind. now rewrite H. Qed.

Section Combinators.
Context (R : World -> World -> Prop) `{!PreOrder R}.

Lemma steps_ret {A} (a : A) : Steps R (ret a).
Proof. intros w. reflexivity. Qed.

Lemma steps_throw {A} e : Steps R (@throw A e).
Proof. intros w. reflexivity. Qed.

Lemma steps_gets {A} (f : World -> A) : Steps R (gets f).
Proof. intros w. reflexivity. Qed.

Lemma steps_const {A} (r : Result A) : Steps R (fun w => (r, w)).
Proof. intros w. reflexivity. Qed.

Lemma steps_modify f : (forall w, R w (f w)) -> Steps R (modify f).
Proof. intros H w. apply H. Qed.

Lemma steps_bind {A B} (m : M A) (k : A -> M B) :
  Steps R m -> (forall a, Steps R (k a)) -> Steps R (bind m k).
Proof.
  intros Hm Hk w. unfold bind. specialize (Hm w).
  destruct (m w) as [[e | a] w1]; cbn in *; [exact Hm |].
  etransitivity; [exact Hm | apply Hk].
Qed.

Lemma steps_tryCatch {A} (m : M A) h :
  Steps R m -> (forall e, Steps R (h e)) -> Steps R (tryCatch m h).
Proof.
  intros Hm Hh w. unfold tryCatch. specialize (Hm w).
  destruct (m w) as [[e | a] w1]; cbn in *; [| exact Hm].
  etransitivity; [exact Hm | apply Hh].
Qed.

Lemma steps_attempt {A} (m : M A) : Steps R m -> Steps R (attempt m).
Proof.
  intros Hm w. unfold attempt. specialize (Hm w).
  destruct (m w) as [r w1]. exact Hm.
Qed.

Lemma steps_when b m : Steps R m -> Steps R (when b m).
Proof. intros Hm. destruct b; [exact Hm | apply steps_ret]. Qed.

Lemma steps_forEach {A} (xs : list A) f :
  (forall x, Steps R (f x)) -> Steps R (forEach xs f).
Proof.
  intros Hf. induction xs as [| x xs IH]; cbn; [apply steps_ret |].
  apply steps_bind; [apply Hf | intros _; exact IH].
Qed.

End Combinators.

End MonadFacts.

(** ** Resilience *)

Module ResilienceFacts.
Import Resilience ResilienceSpec Relations MonadFacts History.

#[local] Instance sameBreakers_preorder : PreOrder sameBreakers.
Proof.
  split; [intros w; reflexivity |].
  intros a b c Hab Hbc. unfold sameBreakers in *. congruence.
Qed.

Lemma sleeps_app (l1 l2 : list Event) : sleeps (l1 ++ l2) = sleeps l1 ++ sleeps l2.
Proof. unfold sleeps. apply flat_map_app. Qed.

Lemma sleep_run ms w :
  sleep ms w = (inr tt, setNow (now w + Z.max 0 ms) (setTrace (trace w ++ [EvSleep ms]) w)).
Proof. reflexivity. Qed.

(** *** Retry *)

Lemma retryFrom_sleeps {T} (operation : M T) config :
  failsRetryably operation ->
  forall (n : nat) attempt e0 w,
    maxAttempts config = attempt + Z.of_nat n ->
    sleeps (trace (snd (retryFrom (S n) attempt e0 config operation w))) =
    sleeps (trace w) ++
    List.map (fun i => calculateBackoffDelay (attempt + Z.of_nat i) config) (seq 0 n).
Proof.
  intros Hop. induction n as [| n IH]; intros attempt e0 w Hmax.
  - destruct (Hop w) as (e & w' & Hrun & _ & Hs).
    cbn [retryFrom]. unfold tryCatch. rewrite Hrun.
    assert (Heq : (attempt =? maxAttempts config) = true) by (apply Z.eqb_eq; lia).
    rewrite Heq. cbn. now rewrite Hs, app_nil_r.
  - destruct (Hop w) as (e & w' & Hrun & Hretry & Hs).
    change (retryFrom (S (S n)) attempt e0 config operation w)
      with (tryCatch operation (fun error =>
              if attempt =? maxAttempts config then throw error
              else if negb (isRetryableError error) then throw error
              else sleep (calculateBackoffDelay attempt config) >>
                   retryFrom (S n) (attempt + 1) error config operation) w).
    unfold tryCatch. rewrite Hrun.
    assert (Hne : (attempt =? maxAttempts config) = false) by (apply Z.eqb_neq; lia).
    rewrite Hne, Hretry. cbn [negb].
    erewrite bind_ok by apply sleep_run.
    rewrite IH by lia. cbn [trace setNow setTrace].
    rewrite sleeps_app, Hs. cbn [sleeps flat_map app seq List.map].
    rewrite <- app_assoc. cbn [app]. f_equal. f_equal.
    + f_equal. lia.
    + rewrite <- seq_shift, List.map_map. apply List.map_ext. intros i. f_equal. lia.
Qed.

Lemma default_delay (k : nat) maxA :
  calculateBackoffDelay (1 + Z.of_nat k)
    (retryConfig (mkPartialRetryOptions maxA None None None)) = schedule k.
Proof.
  unfold calculateBackoffDelay, schedule; cbn. f_equal. f_equal. f_equal. lia.
Qed.




(** *** Circuit breaker *)

Lemma lookup_ensure ctx w :
  circuitBreakers (ensureBreaker ctx w) !! ctx = Some (breakerOf ctx w).
Proof.
  unfold ensureBreaker, breakerOf.
  destruct (circuitBreakers w !! ctx) as [b |] eqn:E; cbn; [exact E |].
  apply lookup_insert_eq.
Qed.

Lemma ensure_present ctx w b :
  circuitBreakers w !! ctx = Some b -> ensureBreaker ctx w = w.
Proof. intros H. unfold ensureBreaker. now rewrite H. Qed.

Lemma not_closed_present ctx w :
  state (breakerOf ctx w) <> CbClosed ->
  circuitBreakers w !! ctx = Some (breakerOf ctx w).
Proof.
  unfold breakerOf. destruct (circuitBreakers w !! ctx); cbn; [reflexivity |].
  intros H. now contradiction H.
Qed.

Lemma breakerOf_alter ctx f b w :
  circuitBreakers w !! ctx = Some b ->
  breakerOf ctx (setCircuitBreakers (alter f ctx (circuitBreakers w)) w) = f b.
Proof.
  intros H. unfold breakerOf; cbn. rewrite lookup_alter_eq, H. reflexivity.
Qed.

Lemma lookup_pastGate ctx w :
  circuitBreakers (pastGate ctx w) !! ctx =
  Some (match state (breakerOf ctx w) with
        | CbOpen => halfOpen (breakerOf ctx w)
        | _ => breakerOf ctx w
        end).
Proof.
  unfold pastGate.
  destruct (state (breakerOf ctx w)) eqn:E; try apply lookup_ensure.
  cbn. rewrite lookup_alter_eq, not_closed_present by congruence. reflexivity.
Qed.

Lemma pastGate_frame ctx w : setCircuitBreakers (circuitBreakers w) (pastGate ctx w) = w.
Proof.
  unfold pastGate, ensureBreaker.
  destruct (state (breakerOf ctx w)), (circuitBreakers w !! ctx); now destruct w.
Qed.

Lemma gate_run ctx options w :
  passes ctx (circuitBreakerConfig options) w ->
  (let* cb := getOrCreateCircuitBreaker ctx in gate ctx (circuitBreakerConfig options) cb) w
  = (inr tt, pastGate ctx w).
Proof.
  intros Hp. set (config := circuitBreakerConfig options) in *. clearbody config.
  unfold getOrCreateCircuitBreaker, bind, modify, gets, gate, pastGate.
  cbn. replace (breakerOf ctx (ensureBreaker ctx w)) with (breakerOf ctx w)
    by (unfold breakerOf at 2; now rewrite lookup_ensure).
  destruct (state (breakerOf ctx w)) eqn:E; try reflexivity.
  rewrite (ensure_present ctx w _ (not_closed_present ctx w ltac:(congruence))).
  unfold dateNow, gets, bind.
  destruct Hp as [Hp | Hp]; [congruence |].
  assert (Hlt : (now w - lastFailureTime (breakerOf ctx w)
                 <? recoveryTimeout config) = false)
    by (apply Z.ltb_ge; lia).
  rewrite Hlt. reflexivity.
Qed.

(** A call that passes the gate ends as its operation ends, and the breaker
    records that one outcome. *)
Lemma passing_call {T} (operation : M T) ctx options w r w1 :
  passes ctx (circuitBreakerConfig options) w ->
  operation (pastGate ctx w) = (r, w1) ->
  circuitBreakers w1 = circuitBreakers (pastGate ctx w) ->
  exists w',
    withCircuitBreaker operation ctx options w = (r, w') /\
    now w' = now w1 /\
    setCircuitBreakers (circuitBreakers w1) w' = w1 /\
    breakerOf ctx w' =
      match r with
      | inr _ => onSuccess
      | inl _ => onFailure (circuitBreakerConfig options) (now w1)
      end (match state (breakerOf ctx w) with
           | CbOpen => halfOpen (breakerOf ctx w)
           | _ => breakerOf ctx w
           end).
Proof.
  intros Hp Hrun Hframe.
  pose proof (gate_run ctx options w Hp) as Hgate.
  pose proof (lookup_pastGate ctx w) as Hlook. rewrite <- Hframe in Hlook.
  unfold withCircuitBreaker. unfold bind in *.
  destruct (getOrCreateCircuitBreaker ctx w) as [[e | cb] w0]; [discriminate |].
  rewrite Hgate. unfold attempt. rewrite Hrun.
  destruct r as [e | v]; cbn.
  - eexists; repeat split.
    + now destruct w1.
    + now apply breakerOf_alter.
  - eexists; repeat split.
    + now destruct w1.
    + now apply breakerOf_alter.
Qed.

(** A rejected call: nothing runs, nothing changes. *)
Lemma rejected_call {T} (operation : M T) ctx options w :
  state (breakerOf ctx w) = CbOpen ->
  now w - lastFailureTime (breakerOf ctx w) < recoveryTimeout (circuitBreakerConfig options) ->
  withCircuitBreaker operation ctx options w = (inl (circuitOpenError ctx), w).
Proof.
  intros Hopen Hlt. unfold withCircuitBreaker.
  set (config := circuitBreakerConfig options) in *. clearbody config.
  unfold getOrCreateCircuitBreaker, bind, modify, gets, gate.
  cbn. rewrite (ensure_present ctx w _ (not_closed_present ctx w ltac:(congruence))).
  rewrite Hopen. unfold dateNow, gets, bind.
  apply Z.ltb_lt in Hlt. rewrite Hlt. reflexivity.
Qed.

Lemma failed_call {T} (operation : M T) ctx options w :
  failsQuietly operation ->
  state (breakerOf ctx w) <> CbOpen ->
  exists e w',
    withCircuitBreaker operation ctx options w = (inl e, w') /\
    breakerOf ctx w' =
      onFailure (circuitBreakerConfig options) (now w') (breakerOf ctx w).
Proof.
  intros Hop Hstate.
  destruct (Hop (pastGate ctx w)) as (e & w1 & Hrun & Hframe).
  destruct (passing_call operation ctx options w (inl e) w1) as (w' & Hcall & Hnow & _ & Hb);
    [left; exact Hstate | exact Hrun | exact Hframe |].
  exists e, w'. split; [exact Hcall |]. rewrite Hb, Hnow.
  destruct (state (breakerOf ctx w)); congruence.
Qed.

Lemma failures_open {T} ctx options (operations : list (M T)) :
  Forall failsQuietly operations ->
  forall w,
    operations <> [] ->
    state (breakerOf ctx w) <> CbOpen ->
    failureCount (breakerOf ctx w) + Z.of_nat (length operations)
      = failureThreshold (circuitBreakerConfig options) ->
    let w' := snd (callEach operations ctx options w) in
    state (breakerOf ctx w') = CbOpen /\
    failureCount (breakerOf ctx w') = failureThreshold (circuitBreakerConfig options) /\
    lastFailureTime (breakerOf ctx w') = now w'.
Proof.
  set (config := circuitBreakerConfig options).
  induction 1 as [| operation rest Hop Hrest IH]; intros w Hne Hstate Hcount;
    [congruence |].
  destruct (failed_call operation ctx options w Hop Hstate) as (e & w1 & Hcall & Hb).
  fold config in Hb.
  assert (Hstep : callEach (operation :: rest) ctx options w
                  = callEach rest ctx options w1).
  { cbn [callEach]. unfold bind, attempt. now rewrite Hcall. }
  cbv zeta. rewrite Hstep. clearbody config. cbn [length] in Hcount.
  destruct rest as [| next rest].
  - cbn [callEach ret snd length] in *. rewrite Hb. unfold onFailure.
    cbn [state failureCount lastFailureTime].
    assert (Hle : (failureThreshold config
                   <=? failureCount (breakerOf ctx w) + 1) = true)
      by (apply Z.leb_le; lia).
    rewrite Hle. repeat split. lia.
  - apply IH; [congruence | |].
    + rewrite Hb. unfold onFailure. cbn [state].
      assert (Hgt : (failureThreshold config
                     <=? failureCount (breakerOf ctx w) + 1) = false)
        by (apply Z.leb_gt; cbn [length] in Hcount; lia).
      rewrite Hgt. exact Hstate.
    + rewrite Hb. unfold onFailure. cbn [failureCount].
      cbn [length] in *. lia.
Qed.




(** C5, as stated, fails: with the default threshold a failed probe leaves
    the breaker half-open, and so does the next failure. *)
Lemma failed_probe_stays_half_open :
  let boom := @throw unit (ErrorObj "boom") in
  let options := noCircuitBreakerOptions in
  let w5 := snd (callEach (repeat boom 5) "streaming" options initialWorld) in
  let w6 := snd (withCircuitBreaker boom "streaming" options (setNow 30000 w5)) in
  let w7 := snd (withCircuitBreaker boom "streaming" options w6) in
  state (breakerOf "streaming" w5) = CbOpen /\
  state (breakerOf "streaming" w6) = CbHalfOpen /\
  fst (withCircuitBreaker boom "streaming" options w6) = inl (ErrorObj "boom") /\
  breakerOf "streaming" w7
    = {| state := CbHalfOpen; failureCount := 2; lastFailureTime := 30000 |} /\
  state (breakerOf "streaming" w7) <> CbOpen.
Proof. vm_compute. repeat split; discriminate. Qed.

(** C5, amended. In the half-open state a call runs its operation.  When
    the operation succeeds the breaker is closed and its counter reset;
    when it fails the counter is incremented and the time of the failure
    recorded, and the breaker opens only if the counter has reached
    [failureThreshold]: otherwise it stays half-open. *)
Theorem half_open_outcomes {T} (operation : M T) (context : string)
    (options : PartialCircuitBreakerOptions) (w : World) :
  state (breakerOf context w) = CbHalfOpen ->
  circuitBreakers (snd (operation w)) = circuitBreakers w ->
  let config := circuitBreakerConfig options in
  let cb := breakerOf context w in
  let call := withCircuitBreaker operation context options w in
  fst call = fst (operation w) /\
  breakerOf context (snd call) =
    match fst call with
    | inr _ =>
        {| state := CbClosed; failureCount := 0;
           lastFailureTime := lastFailureTime cb |}
    | inl _ =>
        {| state := if failureThreshold config <=? failureCount cb + 1
                    then CbOpen else CbHalfOpen;
           failureCount := failureCount cb + 1;
           lastFailureTime := now (snd call) |}
    end.
Proof.
  intros Hhalf Hframe config cb call.
  assert (Hadm : pastGate context w = w).
  { unfold pastGate. rewrite Hhalf.
    apply (ensure_present context w (breakerOf context w)).
    apply not_closed_present. congruence. }
  destruct (operation w) as [r w1] eqn:Hrun. cbn [snd fst] in *.
  destruct (passing_call operation context options w r w1) as (w' & Hcall & Hnow & _ & Hb).
  - left. congruence.
  - now rewrite Hadm.
  - now rewrite Hadm.
  - subst call. rewrite Hcall. cbn [fst snd]. split; [reflexivity |].
    rewrite Hb, Hhalf, Hnow. fold cb. fold config.
    destruct r as [e | v].
    + unfold onFailure. subst cb. now rewrite Hhalf.
    + unfold onSuccess. subst cb. now rewrite Hhalf.
Qed.

Lemma half_open_outcomes_witness :
  let boom := @throw unit (ErrorObj "boom") in
  let w :=
    setCircuitBreakers {[ "streaming" := mkBreaker CbHalfOpen 4 1000 ]}
      (setNow 50000 initialWorld) in
  state (breakerOf "streaming" w) = CbHalfOpen /\
  breakerOf "streaming"
    (snd (withCircuitBreaker boom "streaming" noCircuitBreakerOptions w))
  = {| state := CbOpen; failureCount := 5; lastFailureTime := 50000 |} /\
  breakerOf "streaming"
    (snd (withCircuitBreaker (ret tt) "streaming" noCircuitBreakerOptions w))
  = {| state := CbClosed; failureCount := 0; lastFailureTime := 1000 |}.
Proof.
  intros boom w.
  assert (Hhalf : state (breakerOf "streaming" w) = CbHalfOpen)
    by (vm_compute; reflexivity).
  split; [exact Hhalf | split].
  - pose proof (half_open_outcomes boom "streaming" noCircuitBreakerOptions w
                  Hhalf ltac:(vm_compute; reflexivity)) as [_ H].
    vm_compute in H |- *. exact H.
  - pose proof (half_open_outcomes (ret tt) "streaming" noCircuitBreakerOptions w
                  Hhalf ltac:(vm_compute; reflexivity)) as [_ H].
    vm_compute in H |- *. exact H.
Defined.

(** *** Retry inside the breaker *)

Lemma steps_retryFrom R `{!PreOrder R} {T} (operation : M T) config :
  Steps R operation -> (forall ms, Steps R (sleep ms)) ->
  forall n attempt e, Steps R (retryFrom n attempt e config operation).
Proof.
  intros Hop Hsleep. induction n as [| n IH]; intros attempt e; cbn [retryFrom].
  - apply steps_throw; assumption.
  - apply steps_tryCatch; [assumption | exact Hop |]. intros error.
    destruct (attempt =? maxAttempts config); [apply steps_throw; assumption |].
    destruct (negb (isRetryableError error)); [apply steps_throw; assumption |].
    apply steps_bind; [assumption | apply Hsleep | intros _; apply IH].
Qed.

Lemma steps_withRetry R `{!PreOrder R} {T} (operation : M T) ctx options :
  Steps R operation -> (forall ms, Steps R (sleep ms)) ->
  Steps R (withRetry operation ctx options).
Proof. intros Hop Hsleep. unfold withRetry. now apply steps_retryFrom. Qed.

(** C6. [withResilience] puts the breaker around the whole retry loop: a
    call that passes the gate records nothing when the loop ends in success,
    however many attempts failed on the way, and records exactly one
    failure when the loop ends in failure, however many attempts it made. *)
Theorem breaker_sees_final_outcome {T} (operation : M T) (context : string)
    (retryOptions : PartialRetryOptions)
    (circuitBreakerOptions : PartialCircuitBreakerOptions) (w : World) :
  (forall v, circuitBreakers (snd (operation v)) = circuitBreakers v) ->
  let config := circuitBreakerConfig circuitBreakerOptions in
  let cb := breakerOf context w in
  state cb <> CbOpen \/ recoveryTimeout config <= now w - lastFailureTime cb ->
  let call :=
    withResilience operation context retryOptions circuitBreakerOptions w in
  fst call = fst (withRetry operation context retryOptions (pastGate context w)) /\
  match fst call with
  | inr _ =>
      failureCount (breakerOf context (snd call)) =
        match state cb with CbClosed => failureCount cb | _ => 0 end /\
      lastFailureTime (breakerOf context (snd call)) = lastFailureTime cb
  | inl _ =>
      failureCount (breakerOf context (snd call)) =
        match state cb with CbOpen => 0 | _ => failureCount cb end + 1
  end.
Proof.
  intros Hframe config cb Hpass call.
  assert (Hretry : Steps sameBreakers (withRetry operation context retryOptions)).
  { apply steps_withRetry; [typeclasses eauto | exact Hframe |].
    intros ms v. reflexivity. }
  destruct (withRetry operation context retryOptions (pastGate context w))
    as [r w1] eqn:Hrun.
  destruct (passing_call (withRetry operation context retryOptions) context
              circuitBreakerOptions w r w1 Hpass Hrun) as (w' & Hcall & Hnow & _ & Hb).
  { specialize (Hretry (pastGate context w)). rewrite Hrun in Hretry. exact Hretry. }
  subst call. unfold withResilience. rewrite Hcall. cbn [fst snd].
  split; [reflexivity |]. rewrite Hb. fold cb.
  destruct r as [e | v].
  - unfold onFailure. destruct (state cb); reflexivity.
  - unfold onSuccess. destruct (state cb) eqn:E; cbn; rewrite ?E; auto.
Qed.

Lemma breaker_sees_final_outcome_witness :
  let transient := inl (ErrorObj "ECONNRESET") : Result string in
  let options := mkPartialRetryOptions (Some 3) (Some 10) None None in
  let w1 := setDevServers [transient; transient; inr "url"] initialWorld in
  let w2 := setDevServers [transient; transient; transient; inr "url"] initialWorld in
  let ok := withResilience ChatService.requestDevServer "mcp-server-request"
              options noCircuitBreakerOptions w1 in
  let ko := withResilience ChatService.requestDevServer "mcp-server-request"
              options noCircuitBreakerOptions w2 in
  (fst ok = inr "url" /\ devServers (snd ok) = [] /\
   failureCount (breakerOf "mcp-server-request" (snd ok)) = 0) /\
  (fst ko = inl (ErrorObj "ECONNRESET") /\ devServers (snd ko) = [inr "url"] /\
   failureCount (breakerOf "mcp-server-request" (snd ko)) = 1).
Proof.
  intros transient options w1 w2 ok ko.
  assert (Hframe : forall v,
            circuitBreakers (snd (ChatService.requestDevServer v)) = circuitBreakers v).
  { intros v. unfold ChatService.requestDevServer.
    destruct (devServers v); reflexivity. }
  assert (Hp1 : state (breakerOf "mcp-server-request" w1) <> CbOpen)
    by (vm_compute; discriminate).
  assert (Hp2 : state (breakerOf "mcp-server-request" w2) <> CbOpen)
    by (vm_compute; discriminate).
  pose proof (breaker_sees_final_outcome ChatService.requestDevServer
                "mcp-server-request" options noCircuitBreakerOptions w1 Hframe
                (or_introl Hp1)) as [_ H1].
  pose proof (breaker_sees_final_outcome ChatService.requestDevServer
                "mcp-server-request" options noCircuitBreakerOptions w2 Hframe
                (or_introl Hp2)) as [_ H2].
  vm_compute in H1, H2 |- *.
  split.
  - split; [reflexivity | split; [reflexivity | exact (proj1 H1)]].
  - split; [reflexivity | split; [reflexivity | exact H2]].
Defined.

End ResilienceFacts.

(** ** Error handler *)

Module ErrorHandlerFacts.
Import ErrorHandler.

(** C8, as stated, fails: the message of an error that matches neither
    pattern is handed to the caller as it is, and so is the message of a
    timeout spelled the way Node spells it. *)
Lemma raw_detail_reaches_caller :
  messageOf (handleError
               (ErrorObj "SQLITE_ERROR: no such table users (/srv/app/db.ts:41)")
               "chat-processing")
    = Some "SQLITE_ERROR: no such table users (/srv/app/db.ts:41)" /\
  messageOf (handleError (ErrorObj "connect ETIMEDOUT 10.0.0.7:6379")
               "chat-processing")
    = Some "connect ETIMEDOUT 10.0.0.7:6379".
Proof. vm_compute. split; reflexivity. Qed.

(** C8, amended. The message the caller reads is the connection notice for
    an [Error] whose message contains ECONN or ENOTFOUND, the time-out
    notice for any other [Error] whose message contains "timeout", the
    generic notice for a thrown value that is not an [Error], and in every
    other case the message of the [Error] itself, unchanged. *)
Theorem curated_messages (error : JsError) (context : string) :
  messageOf (handleError error context) = Some (getErrorMessage error) /\
  getErrorMessage error =
    match error with
    | ErrorObj message =>
        if includes message "ECONN" || includes message "ENOTFOUND"
        then "Connection issue. Please try again."
        else if includes message "timeout"
             then "Request timed out. Please try again."
             else message
    | Thrown _ => "An unexpected error occurred. Please try again."
    end.
Proof.
  split; [| destruct error; reflexivity].
  unfold handleError, messageOf.
  destruct (includes context "chat" || includes context "stream"); reflexivity.
Qed.

End ErrorHandlerFacts.

(** ** Stream manager: what every step respects *)

Module Frames.
Import StreamManager Relations MonadFacts History.

Ltac frame_leaf :=
  first [ reflexivity | apply frame_now | apply frame_storeFaults
        | apply frame_store | apply frame_streamHealth
        | apply frame_memoryFaults | apply frame_release
        | apply frame_log | apply frame_producers ].

Create HintDb steps.

#[export] Hint Extern 1 (FrameCore _) => typeclasses eauto : steps.
#[export] Hint Extern 1 (FrameLog _) => typeclasses eauto : steps.
#[export] Hint Extern 1 (FrameProducers _) => typeclasses eauto : steps.

Ltac step :=
  lazymatch goal with
  | |- Steps ?R _ =>
    first
      [ solve [auto 3 with steps]
      | apply (steps_ret R) | apply (steps_throw R) | apply (steps_gets R)
      | apply (steps_const R)
      | apply (steps_attempt R) | apply (steps_when R)
      | apply (steps_forEach R); intros ?
      | apply (steps_modify R); intros ?; frame_leaf
      | apply (steps_bind R); [| intros ?]
      | apply (steps_tryCatch R); [| intros ?]
      | match goal with
        | |- Steps _ (if ?b then _ else _) => destruct b
        | |- Steps _ (match ?x with _ => _ end) => destruct x
        end ]
  end.

Ltac steps := repeat step.

Section Core.
Context (R : World -> World -> Prop) `{!FrameCore R}.

Lemma steps_elapse ms : Steps R (elapse ms).
Proof. unfold elapse. steps. Qed.

Lemma steps_command : Steps R Redis.command.
Proof.
  intros w. unfold Redis.command.
  destruct (storeFaults w) as [| [|] rest]; cbn; frame_leaf.
Qed.

Lemma steps_memoryCall : Steps R AIService.memoryCall.
Proof.
  intros w. unfold AIService.memoryCall.
  destruct (memoryFaults w) as [| [|] rest]; cbn; frame_leaf.
Qed.

Hint Resolve steps_elapse steps_command steps_memoryCall : steps.

Lemma steps_get key : Steps R (Redis.get key).
Proof. unfold Redis.get. steps. Qed.

Lemma steps_setEx key value seconds : Steps R (Redis.setEx key value seconds).
Proof. unfold Redis.setEx. steps. Qed.

Lemma steps_del key : Steps R (Redis.del key).
Proof. unfold Redis.del. steps. Qed.

Hint Resolve steps_get steps_setEx steps_del : steps.

Lemma steps_getStreamState a : Steps R (getStreamState a).
Proof. unfold getStreamState. steps. Qed.

Lemma steps_isStreamRunning a : Steps R (isStreamRunning a).
Proof. unfold isStreamRunning. steps. Qed.

Lemma steps_clearStreamState a : Steps R (clearStreamState a).
Proof. unfold clearStreamState. steps. Qed.

Lemma steps_updateKeepAlive a : Steps R (updateKeepAlive a).
Proof. unfold updateKeepAlive. steps. Qed.

Hint Resolve steps_isStreamRunning steps_clearStreamState steps_updateKeepAlive
  : steps.

Lemma steps_handleStreamLifecycle a e : Steps R (handleStreamLifecycle a e).
Proof. unfold handleStreamLifecycle. destruct e; steps. Qed.

Lemma steps_streamHealthDelete a : Steps R (streamHealthDelete a).
Proof. unfold streamHealthDelete. steps. Qed.

Lemma steps_releaseStreamSlot a : Steps R (releaseStreamSlot a).
Proof. unfold releaseStreamSlot. steps. Qed.

Lemma steps_isStreamHealthy a : Steps R (isStreamHealthy a).
Proof. unfold isStreamHealthy, dateNow. steps. Qed.

Lemma steps_updateStreamHealth a c : Steps R (updateStreamHealth a c).
Proof.
  unfold updateStreamHealth. apply (steps_modify R). intros w.
  destruct (healthGet a (streamHealth w)); frame_leaf.
Qed.

Lemma steps_getUnsavedMessages a : Steps R (AIService.getUnsavedMessages a).
Proof. unfold AIService.getUnsavedMessages. steps. Qed.

End Core.

#[export] Hint Resolve steps_elapse steps_command steps_memoryCall steps_get
  steps_setEx steps_del steps_getStreamState steps_isStreamRunning
  steps_clearStreamState steps_updateKeepAlive steps_handleStreamLifecycle
  steps_streamHealthDelete steps_releaseStreamSlot steps_isStreamHealthy
  steps_updateStreamHealth steps_getUnsavedMessages : steps.


Section Logging.
Context (R : World -> World -> Prop) `{!FrameCore R} `{!FrameLog R}.

Lemma steps_log e : Steps R (log e).
Proof. unfold log. steps. Qed.

Hint Resolve steps_log : steps.

Lemma steps_publish channel message : Steps R (Redis.publish channel message).
Proof. unfold Redis.publish. steps. Qed.

Lemma steps_subscribe channel : Steps R (Redis.subscribe channel).
Proof. unfold Redis.subscribe. steps. Qed.

Hint Resolve steps_publish steps_subscribe : steps.

Lemma steps_stopStream a : Steps R (stopStream a).
Proof. unfold stopStream. steps. Qed.

Lemma steps_waitLoop n a : Steps R (waitLoop n a).
Proof. induction n as [| n IH]; cbn [waitLoop]; steps. Qed.

Lemma steps_waitForStreamToStop a n : Steps R (waitForStreamToStop a n).
Proof. unfold waitForStreamToStop. apply steps_waitLoop. Qed.

Lemma steps_setupAbortCallback a : Steps R (setupAbortCallback a).
Proof. unfold setupAbortCallback. steps. Qed.

Lemma steps_reserveStreamSlot a : Steps R (reserveStreamSlot a).
Proof.
  intros w. unfold reserveStreamSlot, canStartNewStream, bind, gets.
  destruct (length (activeStreams w) <? MAX_CONCURRENT_STREAMS)%nat eqn:E;
    unfold modify, log; cbn.
  - etransitivity; [apply (frame_reserve a w); now apply Nat.ltb_lt |].
    exact (frame_log (EvReserve a true)
             (setActiveStreams (setAdd a (activeStreams w)) w)).
  - exact (frame_log (EvReserve a false) w).
Qed.

Hint Resolve steps_stopStream steps_waitForStreamToStop steps_setupAbortCallback
  steps_reserveStreamSlot : steps.

Lemma steps_forceCleanupStream a : Steps R (forceCleanupStream a).
Proof. unfold forceCleanupStream. steps. Qed.

Hint Resolve steps_forceCleanupStream : steps.

Lemma steps_healthCheck : Steps R healthCheck.
Proof. unfold healthCheck, dateNow. steps. Qed.

Lemma steps_ensureSingleStream a : Steps R (ensureSingleStream a).
Proof. unfold ensureSingleStream. steps. Qed.

Lemma steps_saveMessagesToMemory a ms : Steps R (AIService.saveMessagesToMemory a ms).
Proof. unfold AIService.saveMessagesToMemory. steps. Qed.

Hint Resolve steps_healthCheck steps_ensureSingleStream
  steps_saveMessagesToMemory : steps.

Lemma steps_hookBody m : Steps R m -> Steps R (hookBody m).
Proof. intros Hm. unfold hookBody. steps. Qed.

Lemma steps_onChunk a c : Steps R (onChunk a c).
Proof. unfold onChunk, dateNow. steps; apply steps_hookBody; steps. Qed.

Lemma steps_onStepFinish a c : Steps R (onStepFinish a c).
Proof. unfold onStepFinish. steps; apply steps_hookBody; steps. Qed.

Lemma steps_onError a c : Steps R (onError a c).
Proof. unfold onError. steps; apply steps_hookBody; steps. Qed.

Lemma steps_onFinish a c : Steps R (onFinish a c).
Proof. unfold onFinish. steps; apply steps_hookBody; steps. Qed.

Hint Resolve steps_onChunk steps_onStepFinish steps_onError steps_onFinish
  : steps.

Lemma steps_deliver a c e : Steps R (deliver a c e).
Proof. unfold deliver. destruct e; steps. Qed.

Hint Resolve steps_deliver : steps.

Lemma steps_deliverAll a es : forall c, Steps R (deliverAll a c es).
Proof. induction es as [| e es IH]; intros c; cbn [deliverAll]; steps. Qed.

Lemma steps_response r : Steps R (response r).
Proof. unfold response. destruct r; steps. Qed.

Lemma steps_setStream a stream created : Steps R (setStream a stream created).
Proof. unfold setStream. steps. Qed.

Lemma steps_fallback a : Steps R (fallback a).
Proof. unfold fallback. steps. Qed.

Hint Resolve steps_deliverAll steps_response steps_setStream steps_fallback
  : steps.

Lemma steps_manageStreamLifecycle a : Steps R (ChatService.manageStreamLifecycle a).
Proof. unfold ChatService.manageStreamLifecycle. steps. Qed.

Lemma steps_handleStreamingFallback a :
  Steps R (ChatService.handleStreamingFallback a).
Proof. unfold ChatService.handleStreamingFallback. steps. Qed.

Lemma steps_makeRoom : Steps R makeRoom.
Proof. unfold makeRoom, canStartNewStream. steps. Qed.

Context `{!FrameProducers R}.

Hint Resolve steps_makeRoom : steps.

Lemma steps_nextProducer : Steps R AIService.nextProducer.
Proof.
  intros w. unfold AIService.nextProducer.
  destruct (producers w); cbn; frame_leaf.
Qed.

Hint Resolve steps_nextProducer : steps.

Lemma steps_startProducer a c : Steps R (startProducer a c).
Proof. unfold startProducer. steps. Qed.

Hint Resolve steps_startProducer : steps.

Lemma steps_serveStream a : Steps R (serveStream a).
Proof. unfold serveStream, dateNow. steps. Qed.

Hint Resolve steps_serveStream : steps.

Lemma steps_sendMessageWithStreaming a : Steps R (sendMessageWithStreaming a).
Proof. unfold sendMessageWithStreaming. steps. Qed.

Hint Resolve steps_sendMessageWithStreaming : steps.

Lemma steps_perform op : Steps R (perform op).
Proof. unfold perform. destruct op; steps. Qed.

End Logging.

#[export] Hint Resolve steps_log steps_publish steps_subscribe steps_stopStream
  steps_waitLoop steps_waitForStreamToStop steps_setupAbortCallback
  steps_reserveStreamSlot steps_forceCleanupStream steps_healthCheck
  steps_ensureSingleStream steps_saveMessagesToMemory steps_onChunk
  steps_onStepFinish steps_onError steps_onFinish steps_deliver
  steps_deliverAll steps_response steps_setStream steps_fallback
  steps_manageStreamLifecycle steps_handleStreamingFallback
  steps_nextProducer steps_startProducer steps_makeRoom steps_serveStream
  steps_sendMessageWithStreaming
  steps_perform : steps.

End Frames.

(** ** Stream manager: admission *)

Module AdmissionFacts.
Import StreamManager Relations MonadFacts History Frames.

Lemma length_setDelete a s : (length (setDelete a s) <= length s)%nat.
Proof. unfold setDelete. apply List.filter_length_le. Qed.

Lemma length_setAdd a s : (length (setAdd a s) <= S (length s))%nat.
Proof.
  unfold setAdd. destruct (existsb (String.eqb a) s); [lia |].
  rewrite length_app. cbn. lia.
Qed.

#[export] Instance keepsBound_core : FrameCore keepsBound.
Proof.
  split; try (intros; intros H; exact H).
  - split; [intros w H; exact H | intros a b c Hab Hbc H; auto].
  - intros a w H. unfold bounded in *. cbn.
    pose proof (length_setDelete a (activeStreams w)). lia.
  - intros a w Hlt _. unfold bounded, MAX_CONCURRENT_STREAMS in *. cbn.
    pose proof (length_setAdd a (activeStreams w)). lia.
Qed.

#[export] Instance keepsBound_log : FrameLog keepsBound.
Proof. intros e w H. exact H. Qed.

#[export] Instance keepsBound_producers : FrameProducers keepsBound.
Proof. intros v w H. exact H. Qed.

Lemma NoDup_setAdd a s : List.NoDup s -> List.NoDup (setAdd a s).
Proof.
  intros H. unfold setAdd. destruct (existsb (String.eqb a) s) eqn:E; [exact H |].
  apply NoDup_ListNoDup, NoDup_app.
  split; [apply NoDup_ListNoDup; exact H | split].
  - intros x Hx Hin. apply list_elem_of_In in Hx, Hin. destruct Hin as [<- | []].
    assert (Hex : existsb (String.eqb a) s = true)
      by (apply existsb_exists; exists a; split; [exact Hx | apply String.eqb_refl]).
    congruence.
  - apply NoDup_singleton.
Qed.

#[export] Instance keepsDistinct_core : FrameCore keepsDistinct.
Proof.
  split; try (intros; intros H; exact H).
  - split; [intros w H; exact H | intros a b c Hab Hbc H; auto].
  - intros a w H. cbn. now apply List.NoDup_filter.
  - intros a w _ H. cbn. now apply NoDup_setAdd.
Qed.

#[export] Instance keepsDistinct_log : FrameLog keepsDistinct.
Proof. intros e w H. exact H. Qed.

#[export] Instance keepsDistinct_producers : FrameProducers keepsDistinct.
Proof. intros v w H. exact H. Qed.

#[export] Instance extends_core : FrameCore extends.
Proof.
  split; try (intros; exists []; cbn; now rewrite app_nil_r).
  split.
  - intros w. exists []. now rewrite app_nil_r.
  - intros a b c [t1 H1] [t2 H2]. exists (t1 ++ t2).
    now rewrite H2, H1, app_assoc.
Qed.

#[export] Instance extends_log : FrameLog extends.
Proof. intros e w. now exists [e]. Qed.

#[export] Instance extends_producers : FrameProducers extends.
Proof. intros v w. exists []. cbn. now rewrite app_nil_r. Qed.

#[export] Instance sameTrace_core : FrameCore sameTrace.
Proof.
  split; try (intros; reflexivity).
  split; [intros w; reflexivity |].
  intros a b c Hab Hbc. unfold sameTrace in *. congruence.
Qed.

#[export] Instance sameProducers_core : FrameCore sameProducers.
Proof.
  split; try (intros; reflexivity).
  split; [intros w; reflexivity |].
  intros a b c Hab Hbc. unfold sameProducers in *. congruence.
Qed.

#[export] Instance sameProducers_log : FrameLog sameProducers.
Proof. intros e w. reflexivity. Qed.

#[export] Instance sameMetrics_core : FrameCore sameMetrics.
Proof.
  split; try (intros; reflexivity).
  split; [intros w; reflexivity |].
  intros a b c Hab Hbc. unfold sameMetrics in *. congruence.
Qed.

#[export] Instance sameMetrics_log : FrameLog sameMetrics.
Proof. intros e w. reflexivity. Qed.

#[export] Instance sameMetrics_producers : FrameProducers sameMetrics.
Proof. intros v w. reflexivity. Qed.

(** *** Computations that never throw *)

Lemma total_ret {A} (a : A) : Total (ret a).
Proof. intros w. now exists a. Qed.

Lemma total_gets {A} (f : World -> A) : Total (gets f).
Proof. intros w. now exists (f w). Qed.

Lemma total_modify f : Total (modify f).
Proof. intros w. now exists tt. Qed.

Lemma total_bind {A B} (m : M A) (k : A -> M B) :
  Total m -> (forall a, Total (k a)) -> Total (bind m k).
Proof.
  intros Hm Hk w. unfold bind. destruct (Hm w) as [a Ha].
  destruct (m w) as [r w1]. cbn in Ha. subst r. apply Hk.
Qed.

Lemma total_tryCatch {A} (m : M A) h :
  (forall e, Total (h e)) -> Total (tryCatch m h).
Proof.
  intros Hh w. unfold tryCatch. destruct (m w) as [[e | a] w1].
  - apply Hh.
  - now exists a.
Qed.

Lemma total_attempt {A} (m : M A) : Total (attempt m).
Proof. intros w. unfold attempt. destruct (m w) as [r w1]. now exists r. Qed.

Lemma total_run {A} (m : M A) w :
  Total m -> exists a w', m w = (inr a, w').
Proof.
  intros Hm. destruct (Hm w) as [a Ha]. destruct (m w) as [r w'].
  cbn in Ha. subst r. now exists a, w'.
Qed.

Lemma forceCleanupStream_total a : Total (forceCleanupStream a).
Proof.
  unfold forceCleanupStream. apply total_bind; [apply total_modify |].
  intros _. apply total_tryCatch. intros _. apply total_ret.
Qed.

Lemma forceCleanupStream_trace a w :
  trace (snd (forceCleanupStream a w)) = trace w ++ [EvForceCleanup a].
Proof.
  assert (H : Steps sameTrace
                (tryCatch
                   (clearStreamState a >> streamHealthDelete a >>
                    releaseStreamSlot a >> Redis.del ("stream:" +:+ a) >>
                    Redis.del ("stream:" +:+ a +:+ ":keepalive") >>
                    Redis.del ("stream:" +:+ a +:+ ":events"))
                   (fun _ => ret tt))) by steps.
  unfold forceCleanupStream, bind, log, modify.
  exact (H (setTrace (trace w ++ [EvForceCleanup a]) w)).
Qed.

Lemma forEach_forceCleanup l : forall w,
  exists w1,
    forEach l forceCleanupStream w = (inr tt, w1) /\
    trace w1 = trace w ++ List.map EvForceCleanup l /\
    producers w1 = producers w.
Proof.
  induction l as [| a l IH]; intros w; cbn [forEach List.map].
  - exists w. rewrite app_nil_r. repeat split.
  - destruct (total_run (forceCleanupStream a) w (forceCleanupStream_total a))
      as ([] & w0 & Hrun0).
    pose proof (forceCleanupStream_trace a w) as Htr.
    pose proof (steps_forceCleanupStream sameProducers a w) as Hp.
    rewrite Hrun0 in Htr, Hp. cbn in Htr, Hp.
    destruct (IH w0) as (w1 & Hrun & Htr1 & Hp1).
    exists w1. rewrite (bind_ok _ _ _ _ _ Hrun0). split; [exact Hrun |].
    rewrite Htr1, Htr, Hp1, <- app_assoc. split; [reflexivity | exact Hp].
Qed.

Lemma makeRoom_run w :
  exists w1,
    makeRoom w = (inr tt, w1) /\
    trace w1 = trace w ++ List.map EvForceCleanup (relief w) /\
    producers w1 = producers w.
Proof.
  unfold makeRoom, canStartNewStream, relief, bind, gets.
  destruct (length (activeStreams w) <? MAX_CONCURRENT_STREAMS)%nat; cbn [negb when].
  - exists w. rewrite app_nil_r. repeat split.
  - apply forEach_forceCleanup.
Qed.

Lemma reserve_run a w :
  exists granted w2,
    reserveStreamSlot a w = (inr granted, w2) /\
    trace w2 = trace w ++ [EvReserve a granted] /\
    producers w2 = producers w.
Proof.
  unfold reserveStreamSlot, canStartNewStream, bind, gets.
  destruct (length (activeStreams w) <? MAX_CONCURRENT_STREAMS)%nat;
    eexists _, _; repeat split.
Qed.

Lemma admission a w :
  exists granted rest,
    trace (snd (sendMessageWithStreaming a w)) =
      trace w ++ List.map EvForceCleanup (relief w) ++ EvReserve a granted :: rest /\
    (granted = false ->
     fst (sendMessageWithStreaming a w) = inl poolExhausted /\ rest = [] /\
     producers (snd (sendMessageWithStreaming a w)) = producers w).
Proof.
  destruct (makeRoom_run w) as (w1 & Hroom & Htr1 & Hp1).
  destruct (reserve_run a w1) as (granted & w2 & Hres & Htr2 & Hp2).
  unfold sendMessageWithStreaming, bind. rewrite Hroom, Hres.
  exists granted. destruct granted; cbn [negb].
  - destruct (steps_serveStream extends a w2) as [rest Hrest].
    exists rest. split; [| discriminate].
    rewrite Hrest, Htr2, Htr1, <- !app_assoc. reflexivity.
  - exists []. split.
    + cbn. rewrite Htr2, Htr1, <- !app_assoc. reflexivity.
    + intros _. cbn. repeat split. congruence.
Qed.

Lemma bounded_run ops : forall w, bounded w -> bounded (run ops w).
Proof.
  induction ops as [| op ops IH]; intros w Hw; cbn; [exact Hw |].
  apply IH. exact (steps_perform keepsBound op w Hw).
Qed.

Lemma distinct_run ops : forall w,
  List.NoDup (activeStreams w) -> List.NoDup (activeStreams (run ops w)).
Proof.
  induction ops as [| op ops IH]; intros w Hw; cbn; [exact Hw |].
  apply IH. exact (steps_perform keepsDistinct op w Hw).
Qed.




End AdmissionFacts.

(** ** Stream manager: cleanup *)

Module CleanupFacts.
Import StreamManager Relations MonadFacts History Frames.

Lemma healthDelete_idem a m : healthDelete a (healthDelete a m) = healthDelete a m.
Proof.
  unfold healthDelete. induction m as [| x m IH]; cbn; [reflexivity |].
  destruct (negb (hasKey a x)) eqn:E; cbn; rewrite ?E, IH; reflexivity.
Qed.

Lemma setDelete_idem a s : setDelete a (setDelete a s) = setDelete a s.
Proof.
  unfold setDelete. induction s as [| x s IH]; cbn; [reflexivity |].
  destruct (negb (String.eqb a x)) eqn:E; cbn; rewrite ?E, IH; reflexivity.
Qed.

Lemma cleaned_observable ks a w w' :
  observable w' = observable w -> cleaned ks a w -> cleaned ks a w'.
Proof.
  unfold observable, cleaned. intros H. injection H as Hs Hh Ha.
  now rewrite Hs, Hh, Ha.
Qed.

#[local] Instance settled_preorder ks a : PreOrder (settled ks a).
Proof.
  split.
  - intros w _. reflexivity.
  - intros x y z Hxy Hyz Hx. rewrite Hyz, Hxy; try assumption; [reflexivity |].
    apply (cleaned_observable ks a x); auto.
Qed.

Lemma settled_command ks a : Steps (settled ks a) Redis.command.
Proof.
  intros w _. unfold Redis.command.
  destruct (storeFaults w) as [| [|] rest]; reflexivity.
Qed.

Lemma settled_delete ks a k :
  In k ks ->
  Steps (settled ks a) (modify (fun w => setStore (delete k (store w)) w)).
Proof.
  intros Hk. apply (steps_modify (settled ks a)). intros w (Hks & _ & _).
  unfold observable; cbn. rewrite delete_id; [reflexivity |].
  rewrite List.Forall_forall in Hks. now apply Hks.
Qed.

Lemma settled_log ks a e : Steps (settled ks a) (log e).
Proof. intros w _. reflexivity. Qed.

Lemma settled_streamHealthDelete ks a : Steps (settled ks a) (streamHealthDelete a).
Proof.
  intros w (_ & Hh & _). unfold observable; cbn. now rewrite Hh.
Qed.

Lemma settled_releaseStreamSlot ks a : Steps (settled ks a) (releaseStreamSlot a).
Proof.
  intros w (_ & _ & Ha). unfold observable; cbn. now rewrite Ha.
Qed.

Lemma settled_forceCleanupStream a :
  Steps (settled (keysOf a) a) (forceCleanupStream a).
Proof.
  unfold forceCleanupStream.
  apply (steps_bind _); [apply settled_log | intros _].
  apply (steps_tryCatch _); [| intros _; apply (steps_ret _)].
  repeat (apply (steps_bind _); [| intros _]);
    first [ apply settled_command | apply settled_streamHealthDelete
          | apply settled_releaseStreamSlot
          | apply settled_delete; unfold keysOf; cbn [In]; auto 6 ].
Qed.

(** A command that is answered consumes its entry of the schedule. *)
Lemma command_answered n w :
  storeAnswers (S n) w = true ->
  Redis.command w = (inr tt, setStoreFaults (tl (storeFaults w)) w) /\
  storeAnswers n (setStoreFaults (tl (storeFaults w)) w) = true.
Proof.
  unfold storeAnswers, Redis.command. destruct w as [n0 faults s h a b m p mf u d t].
  cbn. destruct faults as [| [|] rest]; cbn; try discriminate.
  - intros _. split; [reflexivity |]. now destruct n.
  - intros H. split; [reflexivity | exact H].
Qed.

Lemma del_answered n k w :
  storeAnswers (S n) w = true ->
  Redis.del k w
    = (inr tt, setStore (delete k (store w)) (setStoreFaults (tl (storeFaults w)) w)) /\
  storeAnswers n
    (setStore (delete k (store w)) (setStoreFaults (tl (storeFaults w)) w)) = true.
Proof.
  intros H. destruct (command_answered n w H) as [Hrun Hn].
  unfold Redis.del. rewrite (bind_ok _ _ _ _ _ Hrun). split; [reflexivity | exact Hn].
Qed.

Lemma clearStreamState_cleans a w :
  storeAnswers 1 w = true ->
  store (snd (clearStreamState a w)) !! stateKey a = None /\
  streamHealth (snd (clearStreamState a w)) = streamHealth w /\
  activeStreams (snd (clearStreamState a w)) = activeStreams w.
Proof.
  intros H. unfold clearStreamState.
  destruct (del_answered 0 (stateKey a) w H) as [-> _]. cbn.
  split; [apply lookup_delete_eq | split; reflexivity].
Qed.

Lemma absent_after_deletes (k : string) (ks : list string)
    (m : gmap string StoreEntry) :
  In k ks -> foldr delete m ks !! k = None.
Proof.
  induction ks as [| k' ks IH]; cbn; [tauto |].
  intros [-> | Hin]; [apply lookup_delete_eq |].
  rewrite lookup_delete. destruct (decide (k' = k)); [reflexivity | auto].
Qed.

Lemma forceCleanupStream_cleans a w :
  storeAnswers 4 w = true ->
  cleaned (keysOf a) a (snd (forceCleanupStream a w)).
Proof.
  intros H. unfold forceCleanupStream, clearStreamState.
  unfold bind at 1, log, modify, tryCatch.
  set (w0 := setTrace (trace w ++ [EvForceCleanup a]) w).
  assert (H0 : storeAnswers 4 w0 = true) by exact H. clearbody w0.
  destruct (del_answered 3 (stateKey a) w0 H0) as [Hrun1 H1].
  rewrite (bind_ok _ _ _ _ _ Hrun1).
  unfold streamHealthDelete, releaseStreamSlot, bind at 1, modify.
  unfold bind at 1.
  match goal with |- context [bind (Redis.del ?k) ?f ?v] =>
    assert (Hv2 : storeAnswers 3 v = true) by exact H1;
    destruct (del_answered 2 k v Hv2) as [Hrun2 H2];
    rewrite (bind_ok _ _ _ _ _ Hrun2)
  end.
  match goal with |- context [bind (Redis.del ?k) ?f ?v] =>
    destruct (del_answered 1 k v H2) as [Hrun3 H3];
    rewrite (bind_ok _ _ _ _ _ Hrun3)
  end.
  match goal with |- context [Redis.del ?k ?v] =>
    destruct (del_answered 0 k v H3) as [Hrun4 _]
  end.
  rewrite Hrun4. cbn.
  split; [| split; [apply healthDelete_idem | apply setDelete_idem]].
  apply List.Forall_forall. intros k Hk.
  change (foldr delete (store w0)
            (rev (keysOf a)) !! k = None).
  apply absent_after_deletes. now apply in_rev in Hk.
Qed.




End CleanupFacts.

(** ** Stream manager: taking over a running session *)

Module TakeoverFacts.
Import StreamManager Relations MonadFacts History Frames AdmissionFacts.

(** With an empty fault schedule every store command is answered. *)
Lemma bind_command {B} (k : unit -> M B) w :
  storeFaults w = [] -> bind Redis.command k w = k tt w.
Proof. intros H. unfold bind, Redis.command. now rewrite H. Qed.

Lemma bind_get {B} key (k : option string -> M B) w :
  storeFaults w = [] -> bind (Redis.get key) k w = k (Redis.read key w) w.
Proof.
  intros H. unfold Redis.get, bind at 1. rewrite (bind_command _ w H). reflexivity.
Qed.

Lemma bind_del {B} key (k : unit -> M B) w :
  storeFaults w = [] ->
  bind (Redis.del key) k w = k tt (setStore (delete key (store w)) w).
Proof.
  intros H. unfold Redis.del, bind at 1. rewrite (bind_command _ w H). reflexivity.
Qed.

Lemma run_del key w :
  storeFaults w = [] ->
  Redis.del key w = (inr tt, setStore (delete key (store w)) w).
Proof. intros H. unfold Redis.del. now rewrite (bind_command _ w H). Qed.

Lemma bind_publish {B} channel message (k : unit -> M B) w :
  storeFaults w = [] ->
  bind (Redis.publish channel message) k w
    = k tt (setTrace (trace w ++ [EvPublish channel message]) w).
Proof.
  intros H. unfold Redis.publish, bind at 1. rewrite (bind_command _ w H). reflexivity.
Qed.

Lemma read_deleted key v w :
  Redis.read key (setStore (delete key v) w) = None.
Proof. unfold Redis.read; cbn. now rewrite lookup_delete_eq. Qed.

Lemma isStreamHealthy_run a w :
  isStreamHealthy a w = (inr (healthyNow a w), w).
Proof.
  unfold isStreamHealthy, healthyNow, bind, gets, dateNow.
  destruct (healthGet a (streamHealth w)); reflexivity.
Qed.

Lemma forceCleanupStream_quiet a w :
  storeFaults w = [] ->
  exists w',
    forceCleanupStream a w = (inr tt, w') /\
    trace w' = trace w ++ [EvForceCleanup a] /\
    storeFaults w' = [] /\ now w' = now w /\
    Redis.read (stateKey a) w' = None.
Proof.
  intros H. unfold forceCleanupStream, log, clearStreamState, tryCatch.
  unfold bind at 1, modify.
  rewrite bind_del by exact H.
  unfold streamHealthDelete, releaseStreamSlot, bind at 1, modify.
  unfold bind at 1.
  rewrite !bind_del by exact H.
  rewrite run_del by exact H.
  eexists. split; [reflexivity |]. cbn.
  repeat split; try assumption.
  unfold Redis.read; cbn [store setStore setActiveStreams setStreamHealth setTrace].
  pose proof (CleanupFacts.absent_after_deletes (stateKey a)
                (rev (keysOf a)) (store w)) as Habs.
  cbn [rev app foldr keysOf] in Habs.
  rewrite Habs; [reflexivity |]. cbn [In]. auto 6.
Qed.

(** With the store answering, what [ensureSingleStream] does to a session
    that reads "running". *)
Lemma ensureSingleStream_running a w :
  storeFaults w = [] ->
  Redis.read (stateKey a) w = Some "running" ->
  exists w',
    ensureSingleStream a w = (inr tt, w') /\
    trace w' = trace w ++
      [if healthyNow a w then EvPublish (eventsChannel a) AbortStream
       else EvForceCleanup a] /\
    storeFaults w' = [] /\ now w' = now w /\
    Redis.read (stateKey a) w' = None.
Proof.
  intros H Hrun. unfold ensureSingleStream, tryCatch, isStreamRunning.
  unfold bind at 1. rewrite bind_get by exact H. rewrite Hrun.
  change (isRunning (Some "running")) with true. unfold ret at 1.
  unfold bind at 1. unfold bind at 1.
  rewrite isStreamHealthy_run.
  destruct (healthyNow a w) eqn:Hh.
  - unfold stopStream, waitForStreamToStop.
    unfold bind at 1. rewrite bind_publish by exact H.
    rewrite run_del by exact H.
    change (Z.to_nat 60) with (S 59). cbn [waitLoop].
    unfold bind at 1. rewrite bind_get by exact H.
    rewrite read_deleted. cbn [falsy]. unfold ret at 1. unfold ret at 1.
    unfold clearStreamState. rewrite bind_del by exact H.
    eexists. split; [reflexivity |]. cbn.
    repeat split; try assumption. apply read_deleted.
  - destruct (forceCleanupStream_quiet a w H) as (w1 & Hfc & Htr & Hq & Hnow & Hread).
    rewrite Hfc. unfold clearStreamState. rewrite bind_del by exact Hq.
    eexists. split; [reflexivity |]. cbn.
    repeat split; try assumption. apply read_deleted.
Qed.

Lemma get_now key w : now (snd (Redis.get key w)) = now w.
Proof.
  unfold Redis.get, bind, Redis.command, gets.
  destruct (storeFaults w) as [| [|] rest]; reflexivity.
Qed.

Lemma waitLoop_step a n w :
  waitLoop (S n) a w =
  match Redis.get (stateKey a) w with
  | (inl e, w1) => (inl e, w1)
  | (inr st, w1) =>
      if falsy st then (inr true, w1)
      else waitLoop n a
             (setNow (now w1 + 1000) (setTrace (trace w1 ++ [EvTimeout 1000]) w1))
  end.
Proof.
  cbn [waitLoop]. unfold bind at 1.
  destruct (Redis.get (stateKey a) w) as [[e | st] w1]; [reflexivity |].
  destruct (falsy st); reflexivity.
Qed.

Lemma waitLoop_bounded a n : forall w,
  0 <= now (snd (waitLoop n a w)) - now w <= Z.of_nat n * 1000.
Proof.
  induction n as [| n IH]; intros w.
  - cbn. lia.
  - rewrite waitLoop_step. pose proof (get_now (stateKey a) w) as Hnow.
    destruct (Redis.get (stateKey a) w) as [[e | st] w1]; cbn [snd] in Hnow |- *;
      [lia |].
    destruct (falsy st); [cbn [snd]; lia |].
    match goal with |- context [waitLoop n a ?v] => specialize (IH v) end.
    cbn in IH. lia.
Qed.




End TakeoverFacts.

(** ** Producer failures *)

Module FailureFacts.
Import StreamManager Relations MonadFacts History Frames AdmissionFacts.

Lemma healthGet_delete a m : healthGet a (healthDelete a m) = None.
Proof.
  unfold healthGet, healthDelete. induction m as [| x m IH]; cbn; [reflexivity |].
  destruct (hasKey a x) eqn:E; cbn; [exact IH |]. now rewrite E.
Qed.

Lemma notin_setDelete a s : ~ In a (setDelete a s).
Proof.
  unfold setDelete. intros H. apply filter_In in H as [_ H].
  now rewrite String.eqb_refl in H.
Qed.

#[local] Instance sameSlots_preorder : PreOrder sameSlots.
Proof.
  split; [intros w; split; reflexivity |].
  intros a b c [H1 H2] [H3 H4]. split; congruence.
Qed.

Lemma sameSlots_memoryCall : Steps sameSlots AIService.memoryCall.
Proof.
  intros w. unfold AIService.memoryCall.
  destruct (memoryFaults w) as [| [|] rest]; split; reflexivity.
Qed.

Lemma sameSlots_log e : Steps sameSlots (log e).
Proof. intros w. split; reflexivity. Qed.

Lemma sameSlots_fallback a : Steps sameSlots (fallback a).
Proof.
  unfold fallback, AIService.getUnsavedMessages, AIService.saveMessagesToMemory.
  apply (steps_bind _); [apply sameSlots_log | intros _].
  apply (steps_tryCatch _); [| intros _; apply (steps_throw _)].
  apply (steps_bind _); [| intros u].
  - apply (steps_bind _); [apply sameSlots_memoryCall | intros _; apply (steps_gets _)].
  - apply (steps_bind _); [| intros _; apply (steps_ret _)].
    apply (steps_when _).
    apply (steps_bind _); [apply sameSlots_memoryCall | intros _; apply sameSlots_log].
Qed.

Lemma fallback_run a w :
  exists r w',
    fallback a w = (r, w') /\
    (r = inr SavedToMemory \/ r = inl fallbackFailed).
Proof.
  unfold fallback, bind at 1, log, modify, tryCatch.
  match goal with |- context [bind ?m ?k ?v] =>
    destruct (bind m k v) as [[e | r] w1] eqn:E
  end.
  - eexists _, _. split; [reflexivity | right; reflexivity].
  - exists (inr r), w1. split; [reflexivity | left].
    unfold bind in E.
    repeat match type of E with
           | context [match ?x with _ => _ end] => destruct x
           end; try discriminate; now inversion E.
Qed.

Lemma fallback_trace a w :
  exists rest, trace (snd (fallback a w)) = trace w ++ EvFallback a :: rest.
Proof.
  unfold fallback, bind at 1, log, modify.
  match goal with |- context [tryCatch ?m ?h ?v] =>
    assert (Hext : Steps extends (tryCatch m h)) by steps;
    destruct (Hext v) as [rest Hrest]
  end.
  exists rest. rewrite Hrest. cbn. now rewrite <- app_assoc.
Qed.

Lemma hookBody_total m : Total (hookBody m).
Proof.
  unfold hookBody. apply total_bind; [apply total_attempt | intros r; apply total_ret].
Qed.

Lemma deliver_total a c e : Total (deliver a c e).
Proof.
  destruct e; cbn [deliver]; unfold onChunk, onStepFinish, onError, onFinish,
    dateNow, updateStreamHealth, log, elapse.
  - apply total_bind; [apply total_gets | intros n].
    destruct (5000 <? n - lastKeepAlive c); [| apply total_ret].
    apply total_bind; [apply hookBody_total | intros _; apply total_ret].
  - apply total_bind; [apply total_modify | intros _].
    destruct (shouldAbort c); [| apply total_ret].
    apply total_bind; [apply hookBody_total | intros cleared].
    destruct cleared; [| apply total_ret].
    apply total_bind; [apply total_modify | intros _].
    apply total_bind; [apply hookBody_total | intros _; apply total_ret].
  - apply total_bind; [apply hookBody_total | intros _; apply total_ret].
  - apply total_bind; [apply hookBody_total | intros _; apply total_ret].
  - apply total_ret.
  - apply total_bind; [apply total_modify | intros _; apply total_ret].
Qed.

Lemma deliverAll_total a es : forall c, Total (deliverAll a c es).
Proof.
  induction es as [| e es IH]; intros c; cbn [deliverAll]; [apply total_ret |].
  apply total_bind; [apply deliver_total | intros c'; apply IH].
Qed.

Lemma ensureSingleStream_total a : Total (ensureSingleStream a).
Proof.
  unfold ensureSingleStream. apply total_tryCatch.
  intros _. apply forceCleanupStream_total.
Qed.

(** The producer call of [startProducer] ends as the script says. *)
Lemma startProducer_throws a c w p ps e :
  producers w = p :: ps -> result p = Throws e ->
  exists w', startProducer a c w = (inl e, w').
Proof.
  intros Hp Hr. unfold startProducer, AIService.nextProducer.
  unfold bind at 1. rewrite Hp. unfold bind at 1, log, modify.
  match goal with |- context [bind (deliverAll a c ?es) ?k ?v] =>
    destruct (total_run (deliverAll a c es) v (deliverAll_total a es c))
      as (c' & w' & Hrun)
  end.
  rewrite (bind_ok _ _ _ _ _ Hrun), Hr. now exists w'.
Qed.

(** When the producer call throws, [serveStream] ends in the fallback
    block, entered with the session out of the health table and the pool. *)
Lemma serveStream_to_fallback a w p ps e :
  producers w = p :: ps -> result p = Throws e ->
  exists v,
    serveStream a w = fallback a v /\
    healthGet a (streamHealth v) = None /\
    ~ In a (activeStreams v).
Proof.
  intros Hp Hr. unfold serveStream.
  destruct (total_run (ensureSingleStream a) w (ensureSingleStream_total a))
    as ([] & w1 & Hens).
  pose proof (steps_ensureSingleStream sameProducers a w) as Hp1.
  rewrite Hens in Hp1. cbn in Hp1. unfold sameProducers in Hp1.
  rewrite (bind_ok _ _ _ _ _ Hens).
  unfold setupAbortCallback, Redis.subscribe, bind at 1, log, modify.
  unfold bind at 1, dateNow, gets. unfold bind at 1, attempt.
  match goal with |- context [startProducer a ?c ?v] =>
    destruct (startProducer_throws a c v p ps e) as (w2 & Hstart);
      [cbn; congruence | exact Hr |]; rewrite Hstart
  end.
  unfold bind at 1, streamHealthDelete, modify.
  unfold bind at 1, releaseStreamSlot, modify.
  eexists. split; [reflexivity |]. cbn. split.
  - apply healthGet_delete.
  - apply notin_setDelete.
Qed.

Lemma serveStream_producer_throws a w p ps e :
  producers w = p :: ps -> result p = Throws e ->
  let call := serveStream a w in
  In (EvFallback a) (trace (snd call)) /\
  healthGet a (streamHealth (snd call)) = None /\
  ~ In a (activeStreams (snd call)) /\
  (fst call = inr SavedToMemory \/ fst call = inl fallbackFailed).
Proof.
  intros Hp Hr call. subst call.
  destruct (serveStream_to_fallback a w p ps e Hp Hr) as (v & -> & Hh & Ha).
  pose proof (sameSlots_fallback a v) as [Hh' Ha'].
  pose proof (fallback_trace a v) as [rest Htr].
  destruct (fallback_run a v) as (r & w3 & Hrun & Hres).
  rewrite Hrun in *. cbn [fst snd] in *.
  rewrite Hh', Ha', Htr. repeat split; try assumption.
  apply in_or_app. right. now left.
Qed.

(** What the [onError] hook leaves behind when the store answers. *)
Lemma onError_answered a c w :
  storeAnswers 1 w = true ->
  onError a c w =
    (inr (mkCallContext (lastKeepAlive c) (shouldAbort c) true (aborted c)),
     setActiveStreams (setDelete a (activeStreams w))
       (setStreamHealth (healthDelete a (streamHealth w))
          (setStore (delete (stateKey a) (store w))
             (setStoreFaults (tl (storeFaults w)) w)))).
Proof.
  intros H.
  unfold onError, hookBody, handleStreamLifecycle, clearStreamState.
  unfold bind at 1, bind at 1, attempt.
  destruct (CleanupFacts.del_answered 0 (stateKey a) w H) as [Hdel _].
  rewrite (bind_ok _ _ _ _ _ Hdel). reflexivity.
Qed.

Lemma onError_run a c w :
  storeAnswers 1 w = true ->
  let call := onError a c w in
  fst call = inr (mkCallContext (lastKeepAlive c) (shouldAbort c) true (aborted c)) /\
  Redis.read (stateKey a) (snd call) = None /\
  healthGet a (streamHealth (snd call)) = None /\
  ~ In a (activeStreams (snd call)) /\
  metrics (snd call) = metrics w.
Proof.
  intros H call. subst call. rewrite (onError_answered a c w H).
  cbn [fst snd]. repeat split.
  - apply TakeoverFacts.read_deleted.
  - apply healthGet_delete.
  - apply notin_setDelete.
Qed.

End FailureFacts.

(** ** Chat service: what the registry records *)

Module ChatFacts.
Import StreamManager ChatService Relations MonadFacts History Frames AdmissionFacts.

Lemma sameMetrics_requestDevServer : Steps sameMetrics requestDevServer.
Proof.
  intros w. unfold requestDevServer. destruct (devServers w); reflexivity.
Qed.

Lemma sameMetrics_withResilience {T} (operation : M T) ctx retryOptions options :
  Steps sameMetrics operation ->
  Steps sameMetrics (Resilience.withResilience operation ctx retryOptions options).
Proof.
  intros Hop.
  assert (Hretry : Steps sameMetrics (Resilience.withRetry operation ctx retryOptions)).
  { apply ResilienceFacts.steps_withRetry; [typeclasses eauto | exact Hop |].
    intros ms w. reflexivity. }
  assert (Hupdate : forall f, Steps sameMetrics (Resilience.updateBreaker ctx f))
    by (intros f w; reflexivity).
  unfold Resilience.withResilience, Resilience.withCircuitBreaker,
    Resilience.getOrCreateCircuitBreaker, Resilience.gate, Resilience.settle, dateNow.
  apply (steps_bind _).
  - apply (steps_bind _); [| intros _; apply (steps_gets _)].
    apply (steps_modify _). intros w. unfold Resilience.ensureBreaker.
    destruct (circuitBreakers w !! ctx); reflexivity.
  - intros cb. apply (steps_bind _).
    + destruct (state cb); try apply (steps_ret _).
      apply (steps_bind _); [apply (steps_gets _) | intros n].
      destruct (n - lastFailureTime cb <? _); [apply (steps_throw _) | apply Hupdate].
    + intros _. apply (steps_bind _); [apply (steps_attempt _), Hretry | intros outcome].
      destruct outcome.
      * apply (steps_bind _); [apply (steps_gets _) | intros n].
        apply (steps_bind _); [apply Hupdate | intros _; apply (steps_throw _)].
      * apply (steps_bind _); [apply Hupdate | intros _; apply (steps_ret _)].
Qed.

Lemma recordSuccess_counts d m :
  let p := performance m in
  let p' := performance (Monitoring.recordSuccess d m) in
  totalRequests p' = totalRequests p + 1 /\
  successfulRequests p' = successfulRequests p + 1 /\
  failedRequests p' = failedRequests p.
Proof.
  destruct m as [[avg tot suc fai rate] recent cnt times].
  unfold Monitoring.recordSuccess, Monitoring.recordRequestTime,
    Monitoring.updateSuccessRate, Monitoring.withPerformance, Monitoring.bumpSuccess.
  cbn [performance totalRequests successfulRequests failedRequests].
  destruct (0 <? tot + 1); cbn [totalRequests successfulRequests failedRequests];
    repeat split.
Qed.

Lemma recordFailure_counts n d ctx e m :
  let p := performance m in
  let p' := performance (Monitoring.recordFailure n d ctx e m) in
  totalRequests p' = totalRequests p + 1 /\
  successfulRequests p' = successfulRequests p /\
  failedRequests p' = failedRequests p + 1.
Proof.
  destruct m as [[avg tot suc fai rate] recent cnt times].
  unfold Monitoring.recordFailure, Monitoring.recordError,
    Monitoring.recordRequestTime, Monitoring.updateSuccessRate,
    Monitoring.withPerformance, Monitoring.bumpFailure.
  cbn [performance totalRequests successfulRequests failedRequests].
  destruct (0 <? tot + 1); cbn [totalRequests successfulRequests failedRequests];
    repeat split.
Qed.

Lemma served_bind {A} (m : M A) k w m0 :
  Steps sameMetrics m -> metrics w = m0 ->
  (forall a w1, metrics w1 = m0 -> served m0 (k a w1)) ->
  served m0 (bind m k w).
Proof.
  intros Hm Hw Hk. unfold bind. specialize (Hm w). unfold sameMetrics in Hm.
  destruct (m w) as [[e | a] w1]; cbn in Hm.
  - unfold served; cbn. congruence.
  - apply Hk. congruence.
Qed.

Lemma response_run r w :
  exists resp w',
    response r w = (inr resp, w') /\
    ErrorHandler.isErrorResponse resp = false /\ metrics w' = metrics w.
Proof. destruct r; eexists _, _; repeat split. Qed.

Lemma handleStreamingFallback_response a w resp w' :
  handleStreamingFallback a w = (inr resp, w') ->
  ErrorHandler.isErrorResponse resp = false.
Proof.
  unfold handleStreamingFallback, tryCatch. intros E.
  match type of E with context [bind ?m ?k w] =>
    destruct (bind m k w) as [[e | r] w0] eqn:EB
  end; [discriminate |].
  inversion E; subst. unfold bind in EB.
  destruct (AIService.getUnsavedMessages a w) as [[e | u] w1]; [discriminate |].
  destruct (when _ _ w1) as [[e | []] w2]; [discriminate |].
  now inversion EB.
Qed.

Lemma serve_outcome req a start w : served (metrics w) (serve req a start w).
Proof.
  unfold serve. unfold bind at 1.
  destruct (json req) as [e | [[| m ms] |]]; try reflexivity.
  unfold bind at 1.
  destruct (app req) as [e | [repo |]]; try reflexivity.
  apply served_bind; [apply steps_manageStreamLifecycle; typeclasses eauto
                     | reflexivity | intros _ w1 Hw1].
  apply served_bind; [apply sameMetrics_withResilience, sameMetrics_requestDevServer
                     | exact Hw1 | intros _ w2 Hw2].
  unfold tryCatch, bind at 1.
  pose proof (sameMetrics_withResilience (sendMessageWithStreaming a) "streaming"
                streamingRetry streamingBreaker
                (steps_sendMessageWithStreaming sameMetrics a) w2) as Hsend.
  unfold sameMetrics in Hsend.
  destruct (Resilience.withResilience _ _ _ _ w2) as [[e | rs] w3]; cbn in Hsend.
  - unfold bind at 1.
    pose proof (steps_handleStreamingFallback sameMetrics a w3) as Hfb.
    unfold sameMetrics in Hfb.
    destruct (handleStreamingFallback a w3) as [[e' | fr] w4] eqn:Efb; cbn in Hfb.
    + unfold served; cbn. congruence.
    + unfold served; cbn. split.
      * exact (handleStreamingFallback_response a w3 fr w4 Efb).
      * eexists. rewrite Hfb, Hsend, Hw2. reflexivity.
  - unfold bind at 1, dateNow, gets, bind at 1, recordSuccess, modify.
    match goal with |- context [response rs ?v] =>
      destruct (response_run rs v) as (resp & w4 & Hresp & Hok & Hm)
    end.
    rewrite Hresp. unfold served; cbn. split; [exact Hok |].
    eexists. rewrite Hm. cbn. rewrite Hsend, Hw2. reflexivity.
Qed.

Lemma processChatRequest_run req a w :
  processChatRequest req a w =
  match serve req a (now w) w with
  | (inr resp, w1) => (inr resp, w1)
  | (inl e, w1) =>
      (inr (ErrorHandler.handleError e "chat-processing"),
       setMetrics
         (Monitoring.recordFailure (now w1) (now w1 - now w) "chat-processing"
            (toString e) (metrics w1)) w1)
  end.
Proof.
  unfold processChatRequest, bind at 1, dateNow, gets, tryCatch.
  destruct (serve req a (now w) w) as [[e | resp] w1]; reflexivity.
Qed.

Lemma processChatRequest_records req a w :
  let call := processChatRequest req a w in
  let before := performance (metrics w) in
  let after := performance (metrics (snd call)) in
  exists resp,
    fst call = inr resp /\
    totalRequests after = totalRequests before + 1 /\
    if ErrorHandler.isErrorResponse resp
    then failedRequests after = failedRequests before + 1 /\
         successfulRequests after = successfulRequests before
    else successfulRequests after = successfulRequests before + 1 /\
         failedRequests after = failedRequests before.
Proof.
  intros call before after. subst call before after.
  rewrite processChatRequest_run.
  pose proof (serve_outcome req a (now w) w) as Hs. unfold served in Hs.
  destruct (serve req a (now w) w) as [[e | resp] w1]; cbn [fst snd] in Hs.
  - cbn [fst snd metrics setMetrics].
    eexists. split; [reflexivity |].
    rewrite Hs.
    assert (Herr : ErrorHandler.isErrorResponse
                     (ErrorHandler.handleError e "chat-processing") = true)
      by reflexivity.
    rewrite Herr.
    destruct (recordFailure_counts (now w1) (now w1 - now w) "chat-processing"
                (toString e) (metrics w)) as (Ht & Hsu & Hf).
    repeat split; assumption.
  - destruct Hs as [Hok [d Hm]]. exists resp. split; [reflexivity |].
    rewrite Hok. cbn [snd]. rewrite Hm.
    destruct (recordSuccess_counts d (metrics w)) as (Ht & Hsu & Hf).
    repeat split; assumption.
Qed.


(** C3, as stated, fails.  A producer that reports an error and whose call
    throws is answered through the fallback path, and the request is then
    recorded as a success, not as a failure; and when the producer reports
    an error through its hook but its call returns a stream, the fallback
    path is not taken at all. *)
Lemma producer_failure_recorded_as_success :
  let req := {| json := inr (Some ["hello"]); app := inr (Some "repo") |} in
  let throwing :=
    {| hooks := [ErrorHook]; result := Throws (ErrorObj "model overloaded");
       resumable := Created |} in
  let returning :=
    {| hooks := [ErrorHook]; result := Returns (mkStreamObject true true);
       resumable := Created |} in
  let call := processChatRequest req "app-1" (setProducers [throwing] initialWorld) in
  let call' := sendMessageWithStreaming "app-1" (setProducers [returning] initialWorld) in
  (trace (snd call) =
     [EvReserve "app-1" true; EvSubscribe "events:app-1"; EvProducer "app-1";
      EvFallback "app-1"] /\
   fst call =
     inr {| status := 200;
            headers := [("content-type", "text/event-stream");
                        ("cache-control", "no-cache"); ("connection", "keep-alive")];
            body := SseMessage "Message processed and saved to memory" |} /\
   failedRequests (performance (metrics (snd call))) = 0 /\
   successfulRequests (performance (metrics (snd call))) = 1 /\
   errorsCount (metrics (snd call)) = 0) /\
  (trace (snd call') =
     [EvReserve "app-1" true; EvSubscribe "events:app-1"; EvProducer "app-1";
      EvSubscribe "events:app-1"] /\
   fst call' = inr (Resumable "app-1") /\
   Redis.read (stateKey "app-1") (snd call') = Some "running").
Proof. vm_compute. repeat split. Qed.

(** C3, amended.  (1) When the producer reports an error through [onError]
    and the store answers, the liveness token is cleared, the health record
    deleted and the slot released; the registry is not touched.  (2) When
    the producer call throws, a call that got its slot deletes the health
    record, releases the slot and goes through the fallback path, which
    answers with the synthetic completion or fails; the registry is not
    touched either.  (3) It is [processChatRequest] that records the
    request: exactly once, as a failure when it answers with an error
    response and as a success otherwise, fallback answers included. *)
Theorem producer_failure_teardown (appId : string) :
  (forall c w,
     storeAnswers 1 w = true ->
     let call := onError appId c w in
     fst call =
       inr (mkCallContext (lastKeepAlive c) (shouldAbort c) true (aborted c)) /\
     Redis.read (stateKey appId) (snd call) = None /\
     healthGet appId (streamHealth (snd call)) = None /\
     ~ In appId (activeStreams (snd call)) /\
     metrics (snd call) = metrics w) /\
  (forall w p ps e,
     producers w = p :: ps -> result p = Throws e ->
     let call := sendMessageWithStreaming appId w in
     metrics (snd call) = metrics w /\
     (fst call = inl poolExhausted \/
      In (EvFallback appId) (trace (snd call)) /\
      healthGet appId (streamHealth (snd call)) = None /\
      ~ In appId (activeStreams (snd call)) /\
      (fst call = inr SavedToMemory \/
       fst call = inl (ErrorObj "Failed to process message and fallback failed")))) /\
  (forall req w,
     let call := processChatRequest req appId w in
     let before := performance (metrics w) in
     let after := performance (metrics (snd call)) in
     exists resp,
       fst call = inr resp /\
       totalRequests after = totalRequests before + 1 /\
       if ErrorHandler.isErrorResponse resp
       then failedRequests after = failedRequests before + 1 /\
            successfulRequests after = successfulRequests before
       else successfulRequests after = successfulRequests before + 1 /\
            failedRequests after = failedRequests before).
Proof.
  split; [| split].
  - intros c w H. apply FailureFacts.onError_run. exact H.
  - intros w p ps e Hp Hr call. subst call. split.
    + exact (steps_sendMessageWithStreaming sameMetrics appId w).
    + destruct (makeRoom_run w) as (w1 & Hroom & _ & Hp1).
      destruct (reserve_run appId w1) as (granted & w2 & Hres & _ & Hp2).
      unfold sendMessageWithStreaming.
      rewrite (bind_ok _ _ _ _ _ Hroom), (bind_ok _ _ _ _ _ Hres).
      destruct granted; cbn [negb]; [right | left; reflexivity].
      apply (FailureFacts.serveStream_producer_throws appId w2 p ps e);
        [congruence | exact Hr].
  - intros req w. apply processChatRequest_records.
Qed.

Lemma producer_failure_teardown_witness :
  let req := {| json := inr (Some ["hello"]); app := inr (Some "repo") |} in
  let throwing :=
    {| hooks := []; result := Throws (ErrorObj "model overloaded");
       resumable := Created |} in
  let started := run [StartSession "app-1"] initialWorld in
  let hooked := onError "app-1" (mkCallContext 0 false false false) started in
  let call := sendMessageWithStreaming "app-1" (setProducers [throwing] initialWorld) in
  (Redis.read (stateKey "app-1") started = Some "running" /\
   activeStreams started = ["app-1"] /\
   Redis.read (stateKey "app-1") (snd hooked) = None /\
   ~ In "app-1" (activeStreams (snd hooked))) /\
  (fst call = inr SavedToMemory /\
   healthGet "app-1" (streamHealth (snd call)) = None /\
   ~ In "app-1" (activeStreams (snd call))).
Proof.
  intros req throwing started hooked call.
  destruct (producer_failure_teardown "app-1") as (Hhook & Hthrow & _).
  split.
  - destruct (Hhook (mkCallContext 0 false false false) started)
      as (_ & Hread & _ & Hout & _); [vm_compute; reflexivity |].
    split; [vm_compute; reflexivity | split; [vm_compute; reflexivity |]].
    split; [exact Hread | exact Hout].
  - destruct (Hthrow (setProducers [throwing] initialWorld) throwing []
                (ErrorObj "model overloaded") eq_refl eq_refl)
      as (_ & [Hno | (_ & Hh & Ha & _)]).
    + exfalso. vm_compute in Hno. discriminate.
    + split; [vm_compute; reflexivity | split; [exact Hh | exact Ha]].
Defined.

End ChatFacts.

(** * Further properties of the code *)

(** ** The registry: windows and health summary *)

Module RegistryFacts.
Import Monitoring RegistrySpec Reports.

Lemma replay_snoc calls c : replay (calls ++ [c]) = step (replay calls) c.
Proof. unfold replay. now rewrite fold_left_app. Qed.

Lemma trim_firstn {A} n (l : list A) :
  (if (n <? length l)%nat then firstn n l else l) = firstn n l.
Proof.
  destruct (Nat.ltb_spec n (length l)); [reflexivity |].
  symmetry. apply firstn_all2. lia.
Qed.

Lemma firstn_cons_firstn {A} n (x : A) l :
  firstn n (x :: firstn n l) = firstn n (x :: l).
Proof.
  destruct n; cbn [firstn]; [reflexivity |].
  f_equal. rewrite firstn_firstn. f_equal. lia.
Qed.

Lemma trim_sliceLast {A} n (l : list A) :
  (if (n <? length l)%nat then sliceLast n l else l) = sliceLast n l.
Proof.
  destruct (Nat.ltb_spec n (length l)); [reflexivity |].
  unfold sliceLast. now replace (length l - n)%nat with 0%nat by lia.
Qed.

Lemma sliceLast_snoc {A} n (l : list A) d :
  (0 < n)%nat -> sliceLast n (sliceLast n l ++ [d]) = sliceLast n (l ++ [d]).
Proof.
  intros Hn. unfold sliceLast.
  rewrite !length_app, length_skipn. cbn [length].
  rewrite !skipn_app, skipn_skipn, length_skipn.
  destruct (Nat.le_gt_cases (length l) n) as [Hle | Hgt].
  - replace (length l - n)%nat with 0%nat by lia.
    rewrite Nat.sub_0_r, Nat.add_0_r. reflexivity.
  - replace (length l - (length l - n) + 1 - n)%nat with 1%nat by lia.
    replace (1 + (length l - n))%nat with (length l + 1 - n)%nat by lia.
    replace (1 - (length l - (length l - n)))%nat with 0%nat by lia.
    replace (length l + 1 - n - length l)%nat with 0%nat by lia.
    reflexivity.
Qed.


Lemma success_step d m :
  errorsRecent (recordSuccess d m) = errorsRecent m /\
  errorsCount (recordSuccess d m) = errorsCount m /\
  failedRequests (performance (recordSuccess d m)) = failedRequests (performance m) /\
  requestTimes (recordSuccess d m) = sliceLast MAX_REQUEST_TIMES (requestTimes m ++ [d]).
Proof.
  destruct m as [[avg tot suc fai rate] recent cnt times].
  unfold recordSuccess, recordRequestTime, updateSuccessRate, withPerformance,
    bumpSuccess.
  cbn [performance errorsRecent errorsCount requestTimes failedRequests totalRequests].
  rewrite trim_sliceLast. destruct (0 <? tot + 1); repeat split.
Qed.

Lemma failure_step n d ctx e m :
  errorsRecent (recordFailure n d ctx e m) =
    firstn MAX_ERRORS (mkErrorEntry n ctx e :: errorsRecent m) /\
  errorsCount (recordFailure n d ctx e m) = errorsCount m + 1 /\
  failedRequests (performance (recordFailure n d ctx e m)) =
    failedRequests (performance m) + 1 /\
  requestTimes (recordFailure n d ctx e m) =
    sliceLast MAX_REQUEST_TIMES (requestTimes m ++ [d]).
Proof.
  destruct m as [[avg tot suc fai rate] recent cnt times].
  unfold recordFailure, recordError, recordRequestTime, updateSuccessRate,
    withPerformance, bumpFailure.
  cbn [performance errorsRecent errorsCount requestTimes failedRequests totalRequests].
  rewrite trim_sliceLast, trim_firstn. destruct (0 <? tot + 1); repeat split.
Qed.

Lemma average_step m c :
  averageResponseTime (performance (step m c)) =
    (inject_Z (sumZ (requestTimes (step m c))) /
     inject_Z (Z.of_nat (length (requestTimes (step m c)))))%Q.
Proof.
  destruct m as [[avg tot suc fai rate] recent cnt times].
  destruct c as [d | n d ctx e]; reflexivity.
Qed.

Lemma replay_errors (calls : list Call) :
  errorsRecent (replay calls) = firstn MAX_ERRORS (rev (failuresOf calls)) /\
  errorsCount (replay calls) = Z.of_nat (length (failuresOf calls)) /\
  failedRequests (performance (replay calls)) = errorsCount (replay calls).
Proof.
  induction calls as [| c calls (IHr & IHc & IHf)] using rev_ind.
  - repeat split.
  - rewrite replay_snoc. unfold failuresOf in *. rewrite flat_map_app.
    destruct c as [d | n d ctx e]; cbn [step flat_map].
    + destruct (success_step d (replay calls)) as (-> & -> & -> & _).
      rewrite !app_nil_r. auto.
    + destruct (failure_step n d ctx e (replay calls)) as (-> & -> & -> & _).
      rewrite IHr, firstn_cons_firstn, rev_app_distr, length_app.
      cbn [app rev length]. repeat split; lia.
Qed.

(** X1. After any history of [recordSuccess] and [recordFailure] calls,
    [errors.recent] holds the failures of the history newest first, cut to
    the latest [MAX_ERRORS] = 100 of them, while [errors.count] counts every
    failure of the history and agrees with [performance.failedRequests]. *)
Theorem recent_errors_window (calls : list Call) :
  let m := replay calls in
  errorsRecent m = firstn MAX_ERRORS (rev (failuresOf calls)) /\
  (length (errorsRecent m) <= 100)%nat /\
  errorsCount m = Z.of_nat (length (failuresOf calls)) /\
  failedRequests (performance m) = errorsCount m.
Proof.
  cbv zeta. destruct (replay_errors calls) as (Hr & Hc & Hf).
  repeat split; try assumption.
  rewrite Hr. apply firstn_le_length.
Qed.

(** X2. After any history of calls, [requestTimes] holds the durations of
    the latest [MAX_REQUEST_TIMES] = 1000 calls in the order they were
    reported, and [averageResponseTime] is the mean of exactly that window
    (0 before the first call). *)
Theorem response_time_window (calls : list Call) :
  let m := replay calls in
  requestTimes m = sliceLast MAX_REQUEST_TIMES (durationsOf calls) /\
  (length (requestTimes m) <= 1000)%nat /\
  averageResponseTime (performance m) =
    match calls with
    | [] => 0%Q
    | _ => (inject_Z (sumZ (requestTimes m)) /
            inject_Z (Z.of_nat (length (requestTimes m))))%Q
    end.
Proof.
  cbv zeta.
  assert (H : requestTimes (replay calls) = sliceLast MAX_REQUEST_TIMES (durationsOf calls)).
  { induction calls as [| c calls IH] using rev_ind; [reflexivity |].
    rewrite replay_snoc. unfold durationsOf in *. rewrite List.map_app.
    cbn [List.map].
    rewrite <- sliceLast_snoc, <- IH by (unfold MAX_REQUEST_TIMES; lia).
    destruct c as [d | n d ctx e]; cbn [step].
    + now destruct (success_step d (replay calls)) as (_ & _ & _ & ->).
    + now destruct (failure_step n d ctx e (replay calls)) as (_ & _ & _ & ->). }
  split; [exact H | split].
  - rewrite H. unfold sliceLast. rewrite length_skipn.
    change MAX_REQUEST_TIMES with 1000%nat. lia.
  - destruct calls as [| c0 calls] using rev_ind; [reflexivity |].
    clear IHcalls. rewrite replay_snoc.
    destruct (calls ++ [c0]) eqn:E; [now destruct calls |].
    apply average_step.
Qed.

(** *** The health summary *)

Lemma no_match_length {A} (f : A -> bool) (l : list A) :
  length (List.filter f l) = 0%nat <-> (forall x, In x l -> f x = false).
Proof.
  induction l as [| y l IH]; cbn [List.filter In].
  - split; [intros _ x [] | reflexivity].
  - destruct (f y) eqn:E; cbn [length].
    + split; [discriminate |]. intros H. specialize (H y (or_introl eq_refl)).
      congruence.
    + rewrite IH. split.
      * intros H x [<- | Hx]; auto.
      * intros H x Hx. apply H. now right.
Qed.

Lemma no_open_breaker (status : gmap string Resilience.BreakerReport) :
  length (openBreakers status) = 0%nat <->
  (forall ctx r, status !! ctx = Some r -> Resilience.reportedState r <> CbOpen).
Proof.
  unfold openBreakers. rewrite length_map, no_match_length. split.
  - intros H ctx r Hr Hopen.
    specialize (H (ctx, r)). cbn [snd] in H. rewrite Hopen in H.
    assert (Hin : In (ctx, r) (map_to_list status))
      by (apply list_elem_of_In, elem_of_map_to_list, Hr).
    specialize (H Hin). discriminate.
  - intros H [ctx r] Hin. cbn [snd].
    apply list_elem_of_In, elem_of_map_to_list in Hin.
    specialize (H ctx r Hin). now destruct (Resilience.reportedState r).
Qed.

Lemma verdict_cases (low high : bool) (n : nat) :
  let issues := ((if low then 1 else 0) + n + (if high then 1 else 0))%nat in
  let verdict :=
    if (0 <? issues)%nat then if (2 <? issues)%nat then Unhealthy else Degraded
    else Healthy in
  (verdict = Healthy <-> low = false /\ high = false /\ n = 0%nat) /\
  (n = 0%nat -> verdict <> Unhealthy).
Proof.
  destruct low, high, n as [| [| [| n]]]; cbn; split;
    try (intros; discriminate);
    (split; [try discriminate; auto | intros (? & ? & ?); try discriminate; auto]).
Qed.

(** X3. [getHealthSummary] answers "healthy" exactly when the success rate
    is at least 95, at most 50 errors were counted and no reported breaker
    is open; it answers "unhealthy" only when some breaker is open, since
    the two registry checks give at most two issues; and the breakers it
    looks at are those of the resilience table, state for state (the
    context [__proto__] apart, which the record does not keep). *)
Theorem health_summary_verdict (w : World) :
  let noneOpen :=
    forall ctx r,
      Resilience.getHealthStatus w !! ctx = Some r ->
      Resilience.reportedState r <> CbOpen in
  (getHealthSummary w = Healthy <->
     (95 <= successRate (performance (metrics w)))%Q /\
     errorsCount (metrics w) <= 50 /\ noneOpen) /\
  (noneOpen -> getHealthSummary w <> Unhealthy) /\
  (forall ctx,
     ctx <> "__proto__" ->
     Resilience.reportedState <$> (Resilience.getHealthStatus w !! ctx) =
     state <$> (circuitBreakers w !! ctx)).
Proof.
  intros noneOpen.
  pose proof (no_open_breaker (Resilience.getHealthStatus w)) as Hopen.
  fold noneOpen in Hopen.
  pose proof (verdict_cases (lowSuccessRate (metrics w)) (highErrorCount (metrics w))
                (length (openBreakers (Resilience.getHealthStatus w)))) as [Hh Hu].
  cbv zeta in Hh, Hu. fold (issueCount w) in Hh, Hu. fold (getHealthSummary w) in Hh, Hu.
  assert (Hlow : lowSuccessRate (metrics w) = false <->
                 (95 <= successRate (performance (metrics w)))%Q).
  { unfold lowSuccessRate. rewrite negb_false_iff. apply Qle_bool_iff. }
  assert (Hhigh : highErrorCount (metrics w) = false <-> errorsCount (metrics w) <= 50).
  { unfold highErrorCount. rewrite Z.ltb_ge. reflexivity. }
  split; [| split].
  - rewrite Hh, Hlow, Hhigh, Hopen. tauto.
  - intros Hno. apply Hu, Hopen, Hno.
  - intros ctx Hctx. unfold Resilience.getHealthStatus.
    rewrite lookup_fmap, lookup_delete_ne by congruence.
    now destruct (circuitBreakers w !! ctx).
Qed.

Lemma health_summary_verdict_witness :
  let w := setMetrics (replay [Failure 0 12 "chat-processing" "Error: boom"])
             initialWorld in
  getHealthSummary w = Degraded /\ getHealthSummary w <> Unhealthy.
Proof.
  intros w. split; [vm_compute; reflexivity |].
  apply (proj1 (proj2 (health_summary_verdict w))).
  intros ctx r H. vm_compute in H. discriminate.
Defined.

(** X4. Once more than 50 failures have been recorded, [getHealthSummary]
    never answers "healthy" again, however many successes follow and
    whatever the breakers show: [errors.count] only grows.  The way back is
    [resetMetrics], after which the answer is "healthy" as soon as no
    reported breaker is open. *)
Theorem many_failures_never_healthy (calls : list Call) (w : World) :
  metrics w = replay calls ->
  (50 < length (failuresOf calls))%nat ->
  getHealthSummary w <> Healthy /\
  ((forall ctx r,
      Resilience.getHealthStatus w !! ctx = Some r ->
      Resilience.reportedState r <> CbOpen) ->
   getHealthSummary (snd (resetMetrics w)) = Healthy).
Proof.
  intros Hm Hmany. destruct (replay_errors calls) as (_ & Hc & _). split.
  - pose proof (verdict_cases (lowSuccessRate (metrics w)) (highErrorCount (metrics w))
                  (length (openBreakers (Resilience.getHealthStatus w)))) as [Hh _].
    cbv zeta in Hh. fold (issueCount w) in Hh. fold (getHealthSummary w) in Hh.
    rewrite Hh. intros (_ & Hhigh & _).
    unfold highErrorCount in Hhigh. rewrite Hm, Hc in Hhigh.
    apply Z.ltb_ge in Hhigh. lia.
  - intros Hno. apply (no_open_breaker (Resilience.getHealthStatus w)) in Hno.
    unfold getHealthSummary, issueCount, resetMetrics, modify. cbn [snd].
    change (Resilience.getHealthStatus (setMetrics initial w))
      with (Resilience.getHealthStatus w).
    rewrite Hno. reflexivity.
Qed.

Lemma many_failures_never_healthy_witness :
  let calls :=
    repeat (Failure 0 5 "chat-processing" "Error: boom") 51 ++
    repeat (Success 5) 2000 in
  let w := setMetrics (replay calls) initialWorld in
  (50 < length (failuresOf calls))%nat /\
  getHealthSummary w <> Healthy /\
  getHealthSummary (snd (resetMetrics w)) = Healthy.
Proof.
  intros calls w.
  assert (Hmany : (50 < length (failuresOf calls))%nat) by (vm_compute; lia).
  split; [exact Hmany |].
  destruct (many_failures_never_healthy calls w eq_refl Hmany) as [Hnot Hreset].
  split; [exact Hnot |]. apply Hreset.
  intros ctx r H. vm_compute in H. discriminate.
Defined.

End RegistryFacts.

(** ** Retry and circuit breaker: edges and composition *)

Module RetryFacts.
Import Resilience ResilienceSpec RetrySpec Relations MonadFacts History ResilienceFacts.

Lemma retryFrom_first {T} (operation : M T) config n attempt e0 w :
  (forall v w', operation w = (inr v, w') ->
     retryFrom (S n) attempt e0 config operation w = (inr v, w')) /\
  (forall e w', operation w = (inl e, w') -> isRetryableError e = false ->
     retryFrom (S n) attempt e0 config operation w = (inl e, w')).
Proof.
  cbn [retryFrom]. unfold tryCatch. split.
  - intros v w' ->. reflexivity.
  - intros e w' -> ->. cbn [negb]. now destruct (attempt =? maxAttempts config).
Qed.

(** X5. [withRetry] with at least one attempt allowed ends at once with the
    outcome of the first attempt when that attempt succeeds, and when it
    fails with an error that is not retryable: the operation ran once and
    nothing was slept. *)
Theorem retry_stops_at_first_outcome {T} (operation : M T) (context : string)
    (options : PartialRetryOptions) (w : World) :
  0 < maxAttempts (retryConfig options) ->
  (forall v w', operation w = (inr v, w') ->
     withRetry operation context options w = (inr v, w')) /\
  (forall e w', operation w = (inl e, w') -> isRetryableError e = false ->
     withRetry operation context options w = (inl e, w')).
Proof.
  intros Hmax. unfold withRetry.
  set (config := retryConfig options) in *. clearbody config.
  replace (Z.to_nat (maxAttempts config))
    with (S (Z.to_nat (maxAttempts config - 1))) by lia.
  apply retryFrom_first.
Qed.

Lemma retry_stops_at_first_outcome_witness :
  withRetry (@throw unit (ErrorObj "App not found")) "streaming" noRetryOptions
    initialWorld
  = (inl (ErrorObj "App not found"), initialWorld).
Proof.
  apply (proj2 (retry_stops_at_first_outcome (@throw unit (ErrorObj "App not found"))
                  "streaming" noRetryOptions initialWorld ltac:(cbn; lia)));
    reflexivity.
Defined.

(** X6. With [maxAttempts] at most 0 the loop of [withRetry] has no
    iteration: the operation is never run, nothing changes, and what is
    thrown is the initial value of [lastError], [undefined]. *)
Theorem retry_without_attempts {T} (operation : M T) (context : string)
    (options : PartialRetryOptions) (w : World) :
  maxAttempts (retryConfig options) <= 0 ->
  withRetry operation context options w = (inl (Thrown "undefined"), w).
Proof.
  intros Hmax. unfold withRetry.
  replace (Z.to_nat (maxAttempts (retryConfig options))) with 0%nat by lia.
  reflexivity.
Qed.

Lemma retry_without_attempts_witness :
  withRetry (ret 7) "streaming" (mkPartialRetryOptions (Some 0) None None None)
    initialWorld
  = (inl (Thrown "undefined"), initialWorld).
Proof.
  apply retry_without_attempts. cbn. lia.
Defined.

Lemma retryFrom_bounded {T} (operation : M T) config :
  Steps sameSleeps operation ->
  forall (n : nat) attempt e0 w,
    maxAttempts config = attempt + Z.of_nat n ->
    exists delays,
      sleeps (trace (snd (retryFrom (S n) attempt e0 config operation w))) =
        sleeps (trace w) ++ delays /\
      (length delays <= n)%nat /\
      Forall (fun d => d <= maxDelay config) delays.
Proof.
  intros Hop. induction n as [| n IH]; intros attempt e0 w Hmax.
  - exists []. rewrite app_nil_r. split; [| split; [cbn; lia | constructor]].
    cbn [retryFrom]. unfold tryCatch. specialize (Hop w). unfold sameSleeps in Hop.
    destruct (operation w) as [[e | v] w1]; cbn [snd] in *; [| exact Hop].
    assert (Heq : (attempt =? maxAttempts config) = true) by (apply Z.eqb_eq; lia).
    rewrite Heq. exact Hop.
  - change (retryFrom (S (S n)) attempt e0 config operation w)
      with (tryCatch operation (fun error =>
              if attempt =? maxAttempts config then throw error
              else if negb (isRetryableError error) then throw error
              else sleep (calculateBackoffDelay attempt config) >>
                   retryFrom (S n) (attempt + 1) error config operation) w).
    unfold tryCatch. pose proof (Hop w) as Hw. unfold sameSleeps in Hw.
    destruct (operation w) as [[e | v] w1]; cbn [snd] in *.
    + destruct (attempt =? maxAttempts config);
        [exists []; rewrite app_nil_r; split; [exact Hw | split; [cbn; lia | constructor]] |].
      destruct (isRetryableError e); cbn [negb];
        [| exists []; rewrite app_nil_r; split; [exact Hw | split; [cbn; lia | constructor]]].
      erewrite bind_ok by apply sleep_run.
      match goal with |- context [retryFrom (S n) _ _ _ _ ?v] =>
        destruct (IH (attempt + 1) e v ltac:(lia)) as (delays & Hs & Hlen & Hall)
      end.
      exists (calculateBackoffDelay attempt config :: delays).
      rewrite Hs. cbn [trace setNow setTrace]. rewrite sleeps_app, Hw.
      cbn [sleeps flat_map app]. rewrite <- app_assoc. cbn [app length].
      split; [reflexivity | split; [lia |]].
      constructor; [| exact Hall]. unfold calculateBackoffDelay. lia.
    + exists []. rewrite app_nil_r. split; [exact Hw | split; [cbn; lia | constructor]].
Qed.

(** X7. Whatever the operation does (as long as it does not itself sleep
    through [Resilience.sleep]), [withRetry] sleeps fewer times than
    [maxAttempts], and never longer than [maxDelay] at a time. *)
Theorem retry_sleeps_bounded {T} (operation : M T) (context : string)
    (options : PartialRetryOptions) (w : World) :
  Steps sameSleeps operation ->
  let config := retryConfig options in
  exists delays,
    sleeps (trace (snd (withRetry operation context options w))) =
      sleeps (trace w) ++ delays /\
    Z.of_nat (length delays) <= Z.max 0 (maxAttempts config - 1) /\
    Forall (fun d => d <= maxDelay config) delays.
Proof.
  intros Hop config. unfold withRetry. fold config. clearbody config.
  destruct (Z.le_gt_cases (maxAttempts config) 0) as [Hle | Hgt].
  - replace (Z.to_nat (maxAttempts config)) with 0%nat by lia.
    exists []. rewrite app_nil_r. split; [reflexivity | split; [cbn; lia | constructor]].
  - replace (Z.to_nat (maxAttempts config))
      with (S (Z.to_nat (maxAttempts config - 1))) by lia.
    destruct (retryFrom_bounded operation config Hop
                (Z.to_nat (maxAttempts config - 1)) 1 (Thrown "undefined") w
                ltac:(lia)) as (delays & Hs & Hlen & Hall).
    exists delays. split; [exact Hs | split; [lia | exact Hall]].
Qed.

Lemma retry_sleeps_bounded_witness :
  exists delays,
    sleeps (trace (snd (withRetry (@throw unit (ErrorObj "ETIMEDOUT")) "streaming"
                          noRetryOptions initialWorld))) = [] ++ delays /\
    Z.of_nat (length delays) <= 2 /\
    Forall (fun d => d <= 10000) delays.
Proof.
  apply (retry_sleeps_bounded (@throw unit (ErrorObj "ETIMEDOUT")) "streaming"
           noRetryOptions initialWorld).
  intros w. reflexivity.
Defined.

(** X8. Every error the error handler reports to the client as retryable is
    one [withRetry] retries on the server; the converse fails, since the
    retry loop also retries [RATE_LIMIT] and [SERVICE_UNAVAILABLE]. *)
Theorem handler_retryable_is_retried :
  (forall error,
     ErrorHandler.isRetryableError error = true -> isRetryableError error = true) /\
  (exists error,
     isRetryableError error = true /\ ErrorHandler.isRetryableError error = false).
Proof.
  split.
  - intros [message | value]; [| discriminate].
    unfold ErrorHandler.isRetryableError, isRetryableError, includesAny.
    rewrite !existsb_exists. intros (p & Hin & Hp). exists p. split; [| exact Hp].
    unfold ErrorHandler.retryableErrors in Hin. unfold retryableErrors.
    cbn [In] in *. tauto.
  - exists (ErrorObj "RATE_LIMIT exceeded"). split; reflexivity.
Qed.

Lemma handler_retryable_is_retried_witness :
  isRetryableError (ErrorObj "connect ETIMEDOUT 10.0.0.1:443") = true.
Proof.
  apply (proj1 handler_retryable_is_retried). reflexivity.
Defined.

End RetryFacts.

Module BreakerFacts.
Import Resilience ResilienceSpec RetrySpec Relations MonadFacts History ResilienceFacts.

#[local] Instance sameBreakerOf_preorder ctx : PreOrder (sameBreakerOf ctx).
Proof.
  split; [intros w; reflexivity |].
  intros a b c Hab Hbc. unfold sameBreakerOf in *. congruence.
Qed.

Lemma sameBreakerOf_update ctx other f :
  ctx <> other -> Steps (sameBreakerOf other) (updateBreaker ctx f).
Proof.
  intros Hne w. unfold sameBreakerOf; cbn. now rewrite lookup_alter_ne.
Qed.

Lemma sameBreakerOf_call {T} (operation : M T) ctx other options :
  ctx <> other -> Steps sameBreakers operation ->
  Steps (sameBreakerOf other) (withCircuitBreaker operation ctx options).
Proof.
  intros Hne Hop.
  assert (Hop' : Steps (sameBreakerOf other) operation).
  { intros w. specialize (Hop w). unfold sameBreakers in Hop.
    unfold sameBreakerOf. now rewrite Hop. }
  unfold withCircuitBreaker, getOrCreateCircuitBreaker, gate, settle, dateNow.
  apply (steps_bind _).
  - apply (steps_bind _); [| intros _; apply (steps_gets _)].
    apply (steps_modify _). intros w. unfold ensureBreaker, sameBreakerOf.
    destruct (circuitBreakers w !! ctx); cbn; [reflexivity |].
    now rewrite lookup_insert_ne.
  - intros cb. apply (steps_bind _).
    + destruct (state cb); try apply (steps_ret _).
      apply (steps_bind _); [apply (steps_gets _) | intros n].
      destruct (n - lastFailureTime cb <? _);
        [apply (steps_throw _) | now apply sameBreakerOf_update].
    + intros _. apply (steps_bind _); [apply (steps_attempt _), Hop' | intros outcome].
      destruct outcome.
      * apply (steps_bind _); [apply (steps_gets _) | intros n].
        apply (steps_bind _);
          [now apply sameBreakerOf_update | intros _; apply (steps_throw _)].
      * apply (steps_bind _);
          [now apply sameBreakerOf_update | intros _; apply (steps_ret _)].
Qed.

(** X9. Breakers are kept per context: a call through the breaker of one
    context, whether it is rejected, succeeds or fails, leaves the entry of
    every other context as it was (absent entries included). *)
Theorem breaker_contexts_independent {T} (operation : M T)
    (context other : string) (options : PartialCircuitBreakerOptions) (w : World) :
  context <> other ->
  Steps sameBreakers operation ->
  let w' := snd (withCircuitBreaker operation context options w) in
  circuitBreakers w' !! other = circuitBreakers w !! other /\
  breakerOf other w' = breakerOf other w.
Proof.
  intros Hne Hop w'.
  pose proof (sameBreakerOf_call operation context other options Hne Hop w) as H.
  unfold sameBreakerOf in H. fold w' in H.
  split; [exact H |]. unfold breakerOf. now rewrite H.
Qed.

Lemma breaker_contexts_independent_witness :
  let w :=
    setCircuitBreakers {[ "streaming" := mkBreaker CbHalfOpen 1 1000 ]}
      (setNow 50000 initialWorld) in
  breakerOf "streaming"
    (snd (withCircuitBreaker (@throw unit (ErrorObj "boom")) "mcp-server-request"
            ChatService.mcpBreaker w))
  = mkBreaker CbHalfOpen 1 1000.
Proof.
  intros w.
  pose proof (breaker_contexts_independent (@throw unit (ErrorObj "boom"))
                "mcp-server-request" "streaming" ChatService.mcpBreaker w) as H.
  assert (Hne : "mcp-server-request" <> "streaming") by discriminate.
  assert (Hop : Steps sameBreakers (@throw unit (ErrorObj "boom")))
    by (intros v; reflexivity).
  destruct (H Hne Hop) as [_ Hb]. rewrite Hb. vm_compute. reflexivity.
Defined.

Lemma passing_fst {T} (operation : M T) ctx options w :
  passes ctx (circuitBreakerConfig options) w ->
  fst (withCircuitBreaker operation ctx options w) = fst (operation (pastGate ctx w)).
Proof.
  intros Hp. unfold withCircuitBreaker.
  pose proof (gate_run ctx options w Hp) as Hgate.
  unfold bind in *.
  destruct (getOrCreateCircuitBreaker ctx w) as [[e | cb] w0]; [discriminate |].
  rewrite Hgate. unfold attempt.
  destruct (operation (pastGate ctx w)) as [[e | v] w1]; reflexivity.
Qed.

(** X10. [resetCircuitBreaker] forgets the breaker of its context only: the
    context is back to a closed breaker with no failure counted, so the next
    call runs its operation even if the breaker was open a moment ago, and
    the entries of the other contexts are untouched;
    [resetAllCircuitBreakers] does so for every context. *)
Theorem reset_closes_breaker {T} (operation : M T) (context : string)
    (options : PartialCircuitBreakerOptions) (w : World) :
  let w1 := snd (resetCircuitBreaker context w) in
  breakerOf context w1 = freshBreaker /\
  (forall other, other <> context ->
     circuitBreakers w1 !! other = circuitBreakers w !! other) /\
  (exists w2,
     breakerOf context w2 = freshBreaker /\
     setCircuitBreakers (circuitBreakers w1) w2 = w1 /\
     fst (withCircuitBreaker operation context options w1) = fst (operation w2)) /\
  (forall other, breakerOf other (snd (resetAllCircuitBreakers w)) = freshBreaker).
Proof.
  intros w1.
  assert (Hfresh : breakerOf context w1 = freshBreaker).
  { subst w1. unfold breakerOf; cbn. now rewrite lookup_delete_eq. }
  split; [exact Hfresh | split; [| split]].
  - intros other Hne. subst w1; cbn. now rewrite lookup_delete_ne.
  - exists (pastGate context w1). split; [| split].
    + unfold breakerOf at 1. rewrite lookup_pastGate, Hfresh. reflexivity.
    + apply pastGate_frame.
    + apply passing_fst. left. rewrite Hfresh. discriminate.
  - intros other. unfold breakerOf; cbn. now rewrite lookup_empty.
Qed.

Lemma callEach_run {T} (operations : list (M T)) ctx options : forall w,
  fst (callEach operations ctx options w) = inr tt.
Proof.
  induction operations as [| operation rest IH]; intros w; cbn [callEach];
    [reflexivity |].
  unfold bind at 1, attempt.
  destruct (withCircuitBreaker operation ctx options w) as [r w1]. apply IH.
Qed.

Lemma callEach_app {T} (first second : list (M T)) ctx options : forall w,
  callEach (first ++ second) ctx options w =
  callEach second ctx options (snd (callEach first ctx options w)).
Proof.
  induction first as [| operation rest IH]; intros w; cbn [callEach app];
    [reflexivity |].
  unfold bind, attempt.
  destruct (withCircuitBreaker operation ctx options w) as [r w1]. apply IH.
Qed.

Lemma succeeded_call {T} (operation : M T) ctx options w :
  succeedsQuietly operation ->
  state (breakerOf ctx w) = CbClosed ->
  breakerOf ctx (snd (withCircuitBreaker operation ctx options w)) = breakerOf ctx w.
Proof.
  intros Hop Hstate.
  destruct (Hop (pastGate ctx w)) as (v & w1 & Hrun & Hframe).
  destruct (passing_call operation ctx options w (inr v) w1) as (w' & Hcall & _ & _ & Hb);
    [left; congruence | exact Hrun | exact Hframe |].
  rewrite Hcall. cbn [snd]. rewrite Hb, Hstate. unfold onSuccess. now rewrite Hstate.
Qed.

Lemma closed_counter {T} ctx options (calls : list (bool * M T)) :
  Forall endsAsTagged calls ->
  forall w,
    state (breakerOf ctx w) = CbClosed ->
    failureCount (breakerOf ctx w) + Z.of_nat (length (List.filter fst calls))
      < failureThreshold (circuitBreakerConfig options) ->
    let w' := snd (callEach (List.map snd calls) ctx options w) in
    state (breakerOf ctx w') = CbClosed /\
    failureCount (breakerOf ctx w') =
      failureCount (breakerOf ctx w) + Z.of_nat (length (List.filter fst calls)).
Proof.
  set (config := circuitBreakerConfig options).
  induction 1 as [| [fails operation] rest Hop Hrest IH]; intros w Hstate Hcount.
  - cbn. split; [exact Hstate | lia].
  - assert (Hstep : forall r w1,
              withCircuitBreaker operation ctx options w = (r, w1) ->
              callEach (List.map snd ((fails, operation) :: rest)) ctx options w
              = callEach (List.map snd rest) ctx options w1).
    { intros r w1 Hcall. cbn [List.map snd callEach]. unfold bind, attempt.
      now rewrite Hcall. }
    unfold endsAsTagged in Hop. cbn [fst snd] in Hop.
    cbn [List.filter fst] in *. cbv zeta. destruct fails; cbn [length] in *.
    + destruct (failed_call operation ctx options w Hop) as (e & w1 & Hcall & Hb);
        [congruence |].
      fold config in Hb. rewrite (Hstep _ _ Hcall).
      assert (Hgt : (failureThreshold config <=? failureCount (breakerOf ctx w) + 1) = false)
        by (apply Z.leb_gt; lia).
      assert (Hs1 : state (breakerOf ctx w1) = CbClosed)
        by (rewrite Hb; unfold onFailure; cbn [state]; now rewrite Hgt).
      assert (Hc1 : failureCount (breakerOf ctx w1) = failureCount (breakerOf ctx w) + 1)
        by (rewrite Hb; reflexivity).
      destruct (IH w1 Hs1 ltac:(lia)) as [IHs IHc].
      split; [exact IHs | rewrite IHc; lia].
    + pose proof (succeeded_call operation ctx options w Hop Hstate) as Hb.
      destruct (withCircuitBreaker operation ctx options w) as [r w1] eqn:Hcall.
      cbn [snd] in Hb. rewrite (Hstep _ _ eq_refl).
      destruct (IH w1 ltac:(now rewrite Hb) ltac:(rewrite Hb; lia)) as [IHs IHc].
      split; [exact IHs | now rewrite IHc, Hb].
Qed.

(** X11. A closed breaker counts the failures since it was created or last
    closed by a probe, not the failures in a row: successes in between leave
    the count as it is, so once the failures of a history of calls add up to
    [failureThreshold] the breaker opens, however many successes the
    history holds. *)
Theorem successes_do_not_forgive {T} (context : string)
    (options : PartialCircuitBreakerOptions) (calls : list (bool * M T))
    (last : M T) (w : World) :
  let config := circuitBreakerConfig options in
  let failures := Z.of_nat (length (List.filter fst calls)) in
  Forall endsAsTagged calls ->
  failsQuietly last ->
  state (breakerOf context w) = CbClosed ->
  failureCount (breakerOf context w) + failures + 1 = failureThreshold config ->
  let w1 := snd (callEach (List.map snd calls) context options w) in
  let w2 := snd (callEach (List.map snd calls ++ [last]) context options w) in
  state (breakerOf context w1) = CbClosed /\
  failureCount (breakerOf context w1) = failureCount (breakerOf context w) + failures /\
  state (breakerOf context w2) = CbOpen.
Proof.
  intros config failures Hcalls Hlast Hstate Hcount w1 w2.
  destruct (closed_counter context options calls Hcalls w Hstate) as [Hs1 Hc1];
    [fold config; fold failures; lia |].
  fold w1 in Hs1, Hc1. fold failures in Hc1.
  split; [exact Hs1 | split; [exact Hc1 |]].
  subst w2. rewrite callEach_app. fold w1. cbn [callEach].
  unfold bind, attempt.
  destruct (failed_call last context options w1 Hlast) as (e & w' & Hcall & Hb);
    [congruence |].
  rewrite Hcall. cbn [ret snd]. rewrite Hb. unfold onFailure. cbn [state].
  fold config.
  assert (Hle : (failureThreshold config <=? failureCount (breakerOf context w1) + 1) = true)
    by (apply Z.leb_le; lia).
  now rewrite Hle.
Qed.

Lemma successes_do_not_forgive_witness :
  let boom := @throw unit (ErrorObj "boom") in
  let fine := ret tt in
  state (breakerOf "streaming"
           (snd (callEach [boom; fine; fine; boom; fine; boom; fine; boom; fine; boom]
                   "streaming" noCircuitBreakerOptions initialWorld))) = CbOpen.
Proof.
  intros boom fine.
  assert (Hboom : failsQuietly boom)
    by (intros w; exists (ErrorObj "boom"), w; split; reflexivity).
  assert (Hfine : succeedsQuietly fine)
    by (intros w; exists tt, w; split; reflexivity).
  refine (proj2 (proj2 (successes_do_not_forgive "streaming" noCircuitBreakerOptions
            [(true, boom); (false, fine); (false, fine); (true, boom); (false, fine);
             (true, boom); (false, fine); (true, boom); (false, fine)]
            boom initialWorld _ Hboom _ _))).
  - repeat constructor; assumption.
  - reflexivity.
  - reflexivity.
Defined.

End BreakerFacts.

(** ** Error responses and request validation *)

Module ResponseFacts.
Import ErrorHandler ValidationSpec.

(** X12. Whatever the error and the context, the status of the response
    built by [handleError] is one of 400, 401, 403, 404, 408 and 500; a
    response with status 408 always carries one of the two fixed notices,
    never the message of the error; and a thrown value that is not an
    [Error] is answered with status 500 and is not marked retryable. *)
Theorem error_response_status (error : JsError) (context : string) :
  let r := handleError error context in
  In (status r) [400; 401; 403; 404; 408; 500] /\
  isErrorResponse r = true /\
  (status r = 408 ->
   messageOf r = Some timedOut \/ messageOf r = Some connectionIssue) /\
  (forall value, error = Thrown value ->
     status r = 500 /\
     (body r = SseError unexpected false \/ body r = JsonError unexpected false)).
Proof.
  cbv zeta. unfold handleError, messageOf, isErrorResponse.
  destruct (includes context "chat" || includes context "stream");
    cbn [status body].
  all: destruct error as [message | value]; cbn [getStatusCode getErrorMessage isRetryableError].
  all: repeat split; try (intros; discriminate); try (cbn [In]; tauto).
  all: try (destruct (includes message "not found"), (includes message "unauthorized"),
              (includes message "forbidden"), (includes message "validation"),
              (includes message "timeout"); cbn [In]; tauto).
  all: try (intros H408;
            destruct (includes message "not found"); [discriminate |];
            destruct (includes message "unauthorized"); [discriminate |];
            destruct (includes message "forbidden"); [discriminate |];
            destruct (includes message "validation"); [discriminate |];
            destruct (includes message "timeout"); [| discriminate];
            destruct (includes message "ECONN" || includes message "ENOTFOUND");
            auto).
  all: auto.
Qed.

Lemma error_response_status_witness :
  let r := handleError (ErrorObj "upstream timeout after 30s: key=sk-123") "chat-processing" in
  messageOf r = Some timedOut \/ messageOf r = Some connectionIssue.
Proof.
  intros r.
  apply (proj1 (proj2 (proj2 (error_response_status
           (ErrorObj "upstream timeout after 30s: key=sk-123") "chat-processing")))).
  reflexivity.
Defined.

Lemma present_dec get header :
  present get header <->
  match get header with
  | inr value => (if match value with Some v => String.eqb v "" | None => true end
                  then false else true) = true
  | inl _ => False
  end.
Proof.
  unfold present. destruct (get header) as [e | [v |]].
  - split; [intros (v & H & _); discriminate | tauto].
  - destruct (String.eqb_spec v "") as [-> | Hne].
    + split; [intros (v' & H & Hv); inversion H; subst; now contradiction Hv | discriminate].
    + split; [reflexivity | intros _; now exists v].
  - split; [intros (v & H & _); discriminate | discriminate].
Qed.

(** X13. [validateRequest] lets a request through exactly when every
    required header has a non-empty value.  Otherwise it answers for the
    first required header that has none (the later ones are not looked at),
    with a JSON error body built by [handleError]; and when the lookup of a
    header throws, that is what the call throws. *)
Theorem validate_request_first_missing (get : string -> Result (option string))
    (requiredHeaders : list string) :
  (validateRequest get requiredHeaders = inr None <->
     Forall (present get) requiredHeaders) /\
  (forall r, validateRequest get requiredHeaders = inr (Some r) ->
     exists before header after,
       requiredHeaders = before ++ header :: after /\
       Forall (present get) before /\
       ~ present get header /\
       r = missingHeader header) /\
  (forall thrown, validateRequest get requiredHeaders = inl thrown ->
     exists before header after,
       requiredHeaders = before ++ header :: after /\
       Forall (present get) before /\
       get header = inl thrown).
Proof.
  induction requiredHeaders as [| header rest (IHnone & IHsome & IHthrown)];
    cbn [validateRequest].
  - repeat split; try discriminate. constructor.
  - pose proof (present_dec get header) as Hdec.
    destruct (get header) as [e | value] eqn:E.
    + split; [| split].
      * split; [discriminate |]. intros H. inversion H; subst. tauto.
      * discriminate.
      * intros thrown H. inversion H; subst.
        exists [], header, rest. repeat split; [apply List.Forall_nil | congruence].
    + destruct (match value with Some v => String.eqb v "" | None => true end).
      * assert (Hno : ~ present get header) by (rewrite Hdec; discriminate).
        split; [| split].
        -- split; [discriminate |]. intros H. inversion H; subst. tauto.
        -- intros r H. inversion H; subst.
           exists [], header, rest. repeat split; [constructor | exact Hno].
        -- discriminate.
      * assert (Hyes : present get header) by (now rewrite Hdec).
        split; [| split].
        -- rewrite IHnone. split; [now constructor | intros H; now inversion H].
        -- intros r H. destruct (IHsome r H) as (before & h & after & -> & Hb & Hh & Hr).
           exists (header :: before), h, after. repeat split; try assumption.
           now constructor.
        -- intros thrown H.
           destruct (IHthrown thrown H) as (before & h & after & -> & Hb & Hh).
           exists (header :: before), h, after. repeat split; try assumption.
           now constructor.
Qed.

Lemma validate_request_first_missing_witness :
  let get := fun name : string =>
    if String.eqb name "Adorable-App-Id" then inr (Some "app-1")
    else inr None : Result (option string) in
  exists before header after,
    ["Adorable-App-Id"; "X-Trace"; "X-Other"] = before ++ header :: after /\
    Forall (present get) before /\
    ~ present get header /\
    missingHeader "X-Trace" = missingHeader header.
Proof.
  intros get.
  apply (proj1 (proj2 (validate_request_first_missing get
           ["Adorable-App-Id"; "X-Trace"; "X-Other"]))).
  reflexivity.
Defined.

(** X14. [validateChatRequest] lets a request through exactly when it has a
    non-empty [Adorable-App-Id] header and a content type that mentions
    [application/json].  Every request it turns down is answered with status
    500 and a JSON error body that is not marked retryable; the header is
    checked before the content type. *)
Theorem chat_request_validation (get : string -> Result (option string))
    (appId contentType : option string) :
  get "Adorable-App-Id" = inr appId ->
  get "content-type" = inr contentType ->
  let jsonContent :=
    match contentType with
    | Some v => includes v "application/json"
    | None => false
    end in
  (ChatService.validateChatRequest get = inr None <->
     present get "Adorable-App-Id" /\ jsonContent = true) /\
  (forall r, ChatService.validateChatRequest get = inr (Some r) ->
     status r = 500 /\
     headers r = [("content-type", "application/json")] /\
     body r =
       JsonError
         (if match appId with Some v => String.eqb v "" | None => true end
          then "Missing required header: Adorable-App-Id"
          else "Invalid content type. Expected application/json")
         false).
Proof.
  intros Happ Hct jsonContent.
  pose proof (present_dec get "Adorable-App-Id") as Hdec. rewrite Happ in Hdec.
  unfold ChatService.validateChatRequest. cbn [validateRequest].
  rewrite Happ.
  destruct (match appId with Some v => String.eqb v "" | None => true end).
  - split.
    + split; [discriminate |]. intros [H _]. apply Hdec in H. discriminate.
    + intros r H. inversion H; subst. repeat split.
  - rewrite Hct. fold jsonContent. destruct jsonContent; cbn [negb].
    + split; [| discriminate]. split; [| reflexivity].
      intros _. split; [now apply Hdec | reflexivity].
    + split.
      * split; [discriminate | intros [_ H]; discriminate].
      * intros r H. inversion H; subst. repeat split.
Qed.

Lemma chat_request_validation_witness :
  let get := fun name : string =>
    if String.eqb name "Adorable-App-Id" then inr (Some "app-1")
    else if String.eqb name "content-type" then inr (Some "text/plain")
    else inr None : Result (option string) in
  let r :=
    {| status := 500; headers := [("content-type", "application/json")];
       body := JsonError "Invalid content type. Expected application/json" false |} in
  ChatService.validateChatRequest get = inr (Some r) /\
  (status r = 500 /\
   headers r = [("content-type", "application/json")] /\
   body r = JsonError "Invalid content type. Expected application/json" false).
Proof.
  intros get r.
  assert (Hrun : ChatService.validateChatRequest get = inr (Some r))
    by (vm_compute; reflexivity).
  split; [exact Hrun |].
  exact (proj2 (chat_request_validation get (Some "app-1") (Some "text/plain")
                  eq_refl eq_refl) r Hrun).
Defined.

End ResponseFacts.

(** ** The liveness token: heartbeat, expiry and waiting *)

Module TokenFacts.
Import StreamManager StreamSpec Relations MonadFacts History CleanupFacts TakeoverFacts.

Lemma get_answered n key w :
  storeAnswers (S n) w = true ->
  Redis.get key w = (inr (Redis.read key w), setStoreFaults (tl (storeFaults w)) w) /\
  storeAnswers n (setStoreFaults (tl (storeFaults w)) w) = true.
Proof.
  intros H. destruct (command_answered n w H) as [Hrun Hn].
  unfold Redis.get. rewrite (bind_ok _ _ _ _ _ Hrun). split; [reflexivity | exact Hn].
Qed.

Lemma setEx_answered n key value seconds w :
  storeAnswers (S n) w = true ->
  Redis.setEx key value seconds w
    = (inr tt,
       setStore (<[key := mkEntry value (Some (now w + seconds * 1000))]> (store w))
         (setStoreFaults (tl (storeFaults w)) w)) /\
  storeAnswers n
    (setStore (<[key := mkEntry value (Some (now w + seconds * 1000))]> (store w))
       (setStoreFaults (tl (storeFaults w)) w)) = true.
Proof.
  intros H. destruct (command_answered n w H) as [Hrun Hn].
  unfold Redis.setEx. rewrite (bind_ok _ _ _ _ _ Hrun). split; [reflexivity | exact Hn].
Qed.

(** X15. The heartbeat is a lease of 15 seconds: after [updateKeepAlive],
    and with the store answering, [isStreamRunning] says yes at every instant
    less than 15000 ms later and no from then on, unless the token is
    written again. *)
Theorem heartbeat_expires (appId : string) (w : World) (later : Z) :
  storeAnswers 2 w = true ->
  0 <= later ->
  let w1 := snd (updateKeepAlive appId w) in
  fst (isStreamRunning appId (snd (elapse later w1))) = inr (later <? 15000).
Proof.
  intros H Hlater w1. subst w1. unfold updateKeepAlive.
  destruct (setEx_answered 1 (stateKey appId) "running" 15 w H) as [-> H1].
  cbn [snd elapse modify].
  match goal with |- context [isStreamRunning appId ?v] =>
    assert (Hv : storeAnswers 1 v = true) by exact H1;
    destruct (get_answered 0 (stateKey appId) v Hv) as [Hget _];
    unfold isStreamRunning; rewrite (bind_ok _ _ _ _ _ Hget)
  end.
  cbn [ret fst]. f_equal. unfold Redis.read.
  cbn [store setNow setStore setStoreFaults now]. rewrite lookup_insert_eq.
  unfold Redis.live. cbn [expiresAt entryValue].
  replace (Z.max 0 later) with later by lia.
  destruct (Z.ltb_spec (now w + later) (now w + 15 * 1000)),
           (Z.ltb_spec later 15000); try lia; reflexivity.
Qed.

Lemma heartbeat_expires_witness :
  fst (isStreamRunning "app-1"
         (snd (elapse 14999 (snd (updateKeepAlive "app-1" initialWorld))))) = inr true /\
  fst (isStreamRunning "app-1"
         (snd (elapse 15000 (snd (updateKeepAlive "app-1" initialWorld))))) = inr false.
Proof.
  split.
  - apply (heartbeat_expires "app-1" initialWorld 14999); [reflexivity | lia].
  - apply (heartbeat_expires "app-1" initialWorld 15000); [reflexivity | lia].
Defined.

Lemma falsy_string v : v <> "" -> falsy (Some v) = false.
Proof. intros H. cbn. now apply String.eqb_neq. Qed.

Lemma waitLoop_expiring a v t :
  v <> "" ->
  forall n w,
    storeFaults w = [] ->
    store w !! stateKey a = Some (mkEntry v (Some t)) ->
    t <= now w + 1000 * Z.of_nat n ->
    exists w',
      waitLoop (S n) a w = (inr true, w') /\
      t <= now w' /\ (now w' = now w \/ now w' - 1000 < t).
Proof.
  intros Hv. induction n as [| n IH]; intros w Hq Hs Ht;
    rewrite waitLoop_step; unfold Redis.get; rewrite (bind_command _ w Hq);
    unfold gets, Redis.read; rewrite Hs; unfold Redis.live; cbn [expiresAt entryValue].
  - assert (Hdead : (now w <? t) = false) by (apply Z.ltb_ge; lia).
    rewrite Hdead. cbn [falsy]. exists w. repeat split; [lia | now left].
  - destruct (Z.ltb_spec (now w) t) as [Hlive | Hdead].
    + rewrite (falsy_string v Hv).
      match goal with |- context [waitLoop (S n) a ?v] =>
        destruct (IH v) as (w' & Hrun & Hle & Hor);
          [exact Hq | exact Hs | cbn [now setNow setTrace]; lia |]
      end.
      exists w'. split; [exact Hrun | split; [exact Hle |]].
      cbn [now setNow setTrace] in Hor. right. lia.
    + cbn [falsy]. exists w. repeat split; [lia | now left].
Qed.

Lemma live_earlier n n' e : n' <= n -> Redis.live n e = true -> Redis.live n' e = true.
Proof.
  unfold Redis.live. destruct (expiresAt e) as [t |]; [| reflexivity].
  rewrite !Z.ltb_lt. lia.
Qed.

Lemma waitLoop_live a e :
  entryValue e <> "" ->
  forall n w,
    storeFaults w = [] ->
    store w !! stateKey a = Some e ->
    Redis.live (now w + 1000 * (Z.of_nat n - 1)) e = true ->
    exists w',
      waitLoop n a w = (inr false, w') /\
      now w' = now w + 1000 * Z.of_nat n.
Proof.
  intros Hv. induction n as [| n IH]; intros w Hq Hs Hlive.
  - exists w. split; [reflexivity | lia].
  - rewrite waitLoop_step. unfold Redis.get. rewrite (bind_command _ w Hq).
    unfold gets, Redis.read. rewrite Hs.
    rewrite (live_earlier (now w + 1000 * (Z.of_nat (S n) - 1)) (now w) e ltac:(lia) Hlive).
    rewrite (falsy_string _ Hv).
    match goal with |- context [waitLoop n a ?v] =>
      destruct (IH v) as (w' & Hrun & Hnow); [exact Hq | exact Hs | |]
    end.
    + cbn [now setNow setTrace].
      replace (now w + 1000 + 1000 * (Z.of_nat n - 1))
        with (now w + 1000 * (Z.of_nat (S n) - 1)) by lia.
      exact Hlive.
    + exists w'. split; [exact Hrun |]. rewrite Hnow. cbn [now setNow setTrace]. lia.
Qed.

(** X16. What [waitForStreamToStop] answers when the store answers its
    reads.  Without attempts it says no without looking.  With an absent
    token it says yes at once.  With a token that nobody refreshes it says
    yes at the first poll at or after the expiry of the token, provided that
    poll is among the [maxAttempts] polls one second apart.  With a token
    that is still live at the last poll it says no after [maxAttempts]
    seconds. *)
Theorem wait_for_stop_outcome (appId : string) (maxAttempts : Z) (w : World) :
  storeFaults w = [] ->
  (maxAttempts <= 0 ->
   waitForStreamToStop appId maxAttempts w = (inr false, w)) /\
  (0 < maxAttempts -> Redis.read (stateKey appId) w = None ->
   waitForStreamToStop appId maxAttempts w = (inr true, w)) /\
  (forall value expiry,
     0 < maxAttempts -> value <> "" ->
     store w !! stateKey appId = Some (mkEntry value (Some expiry)) ->
     expiry <= now w + 1000 * (maxAttempts - 1) ->
     exists w',
       waitForStreamToStop appId maxAttempts w = (inr true, w') /\
       expiry <= now w' /\ (now w' = now w \/ now w' - 1000 < expiry)) /\
  (forall entry,
     0 <= maxAttempts -> entryValue entry <> "" ->
     store w !! stateKey appId = Some entry ->
     Redis.live (now w + 1000 * (maxAttempts - 1)) entry = true ->
     exists w',
       waitForStreamToStop appId maxAttempts w = (inr false, w') /\
       now w' = now w + 1000 * maxAttempts).
Proof.
  intros Hq. unfold waitForStreamToStop. repeat split.
  - intros Hmax. now replace (Z.to_nat maxAttempts) with 0%nat by lia.
  - intros Hmax Hread.
    replace (Z.to_nat maxAttempts) with (S (Z.to_nat (maxAttempts - 1))) by lia.
    rewrite waitLoop_step. unfold Redis.get. rewrite (bind_command _ w Hq).
    unfold gets. now rewrite Hread.
  - intros value expiry Hmax Hv Hs Ht.
    replace (Z.to_nat maxAttempts) with (S (Z.to_nat (maxAttempts - 1))) by lia.
    apply (waitLoop_expiring appId value expiry Hv); [exact Hq | exact Hs | lia].
  - intros entry Hmax Hv Hs Hlive.
    destruct (waitLoop_live appId entry Hv (Z.to_nat maxAttempts) w Hq Hs)
      as (w' & Hrun & Hnow).
    + now replace (Z.of_nat (Z.to_nat maxAttempts)) with maxAttempts by lia.
    + exists w'. split; [exact Hrun | lia].
Qed.

Lemma wait_for_stop_outcome_witness :
  let w := snd (updateKeepAlive "app-1" initialWorld) in
  exists w',
    waitForStreamToStop "app-1" 60 w = (inr true, w') /\
    15000 <= now w' /\ (now w' = 0 \/ now w' - 1000 < 15000).
Proof.
  intros w.
  apply (proj1 (proj2 (proj2 (wait_for_stop_outcome "app-1" 60 w eq_refl)))
           "running" 15000); [lia | discriminate | vm_compute; reflexivity | vm_compute; discriminate].
Defined.

End TokenFacts.

(** ** Sessions do not interfere *)

Module ConfinementFacts.
Import StreamManager StreamSpec Relations MonadFacts History.

Lemma length_append_string (a b : string) :
  String.length (a +:+ b) = (String.length a + String.length b)%nat.
Proof.
  induction a as [| c a IH]; [reflexivity |].
  change (String c a +:+ b) with (String c (a +:+ b)).
  cbn [String.length]. now rewrite IH.
Qed.

Lemma append_cancel_r (a b s : string) : a +:+ s = b +:+ s -> a = b.
Proof.
  revert b. induction a as [| c a IH]; intros [| c' b] H.
  - reflexivity.
  - apply (f_equal String.length) in H.
    rewrite !length_append_string in H. cbn [String.length] in H. lia.
  - apply (f_equal String.length) in H.
    rewrite !length_append_string in H. cbn [String.length] in H. lia.
  - change (String c (a +:+ s) = String c' (b +:+ s)) in H.
    injection H as -> H. f_equal. now apply IH.
Qed.

Lemma append_cancel_l (p a b : string) : p +:+ a = p +:+ b -> a = b.
Proof.
  induction p as [| c p IH]; intros H; [exact H |].
  change (String c (p +:+ a) = String c (p +:+ b)) in H.
  injection H as H. now apply IH.
Qed.

Lemma stateKey_inj a b : stateKey a = stateKey b -> a = b.
Proof.
  unfold stateKey. intros H. apply append_cancel_l in H.
  now apply append_cancel_r in H.
Qed.

Lemma stream_key_not_token rest b : "stream:" +:+ rest <> stateKey b.
Proof. unfold stateKey. intros H. vm_compute in H. discriminate. Qed.

#[local] Instance untouched_preorder b : PreOrder (untouched b).
Proof.
  split.
  - intros w. repeat split; auto.
  - intros x y z (Hs1 & Hh1 & Ha1) (Hs2 & Hh2 & Ha2). repeat split.
    + congruence.
    + congruence.
    + intros H. now apply Ha1, Ha2.
    + intros H. now apply Ha2, Ha1.
Qed.

Section Confined.
Context (a b : string) (Hne : a <> b).

Lemma confined_command : Steps (untouched b) Redis.command.
Proof.
  intros w. unfold Redis.command.
  destruct (storeFaults w) as [| [|] rest]; repeat split; auto.
Qed.

Lemma confined_memoryCall : Steps (untouched b) AIService.memoryCall.
Proof.
  intros w. unfold AIService.memoryCall.
  destruct (memoryFaults w) as [| [|] rest]; repeat split; auto.
Qed.

Lemma confined_log e : Steps (untouched b) (log e).
Proof. intros w. repeat split; auto. Qed.

Lemma confined_elapse ms : Steps (untouched b) (elapse ms).
Proof. intros w. repeat split; auto. Qed.

Lemma confined_delete key :
  key <> stateKey b ->
  Steps (untouched b) (modify (fun w => setStore (delete key (store w)) w)).
Proof.
  intros Hk w. repeat split; auto. cbn. now apply lookup_delete_ne.
Qed.

Lemma confined_del key : key <> stateKey b -> Steps (untouched b) (Redis.del key).
Proof.
  intros Hk. unfold Redis.del.
  apply (steps_bind _); [apply confined_command | intros _].
  now apply confined_delete.
Qed.

Lemma confined_token : stateKey a <> stateKey b.
Proof. intros H. now apply stateKey_inj in H. Qed.

Lemma confined_setEx value seconds : Steps (untouched b) (Redis.setEx (stateKey a) value seconds).
Proof.
  unfold Redis.setEx.
  apply (steps_bind _); [apply confined_command | intros _].
  intros w. repeat split; auto. cbn. apply lookup_insert_ne, confined_token.
Qed.

Lemma confined_get key : Steps (untouched b) (Redis.get key).
Proof.
  unfold Redis.get.
  apply (steps_bind _); [apply confined_command | intros _; apply (steps_gets _)].
Qed.

Lemma confined_publish channel message : Steps (untouched b) (Redis.publish channel message).
Proof.
  unfold Redis.publish.
  apply (steps_bind _); [apply confined_command | intros _; apply confined_log].
Qed.

Lemma hasKey_other : forall x, hasKey a x = true -> hasKey b x = false.
Proof.
  intros x. unfold hasKey. rewrite String.eqb_eq. intros ->.
  now apply String.eqb_neq.
Qed.

Lemma healthGet_healthDelete m : healthGet b (healthDelete a m) = healthGet b m.
Proof.
  unfold healthGet, healthDelete. f_equal.
  induction m as [| x m IH]; cbn [List.filter List.find]; [reflexivity |].
  destruct (hasKey a x) eqn:E; cbn [negb List.find].
  - now rewrite (hasKey_other x E).
  - now rewrite IH.
Qed.

Lemma healthGet_healthSet h m : healthGet b (healthSet a h m) = healthGet b m.
Proof.
  assert (Hnew : hasKey b (a, h) = false) by (now apply String.eqb_neq).
  unfold healthGet, healthSet. f_equal. destruct (existsb (hasKey a) m).
  - induction m as [| x m IH]; cbn [List.map List.find]; [reflexivity |].
    destruct (hasKey a x) eqn:E.
    + now rewrite Hnew, (hasKey_other x E).
    + now rewrite IH.
  - induction m as [| x m IH]; cbn [app List.find]; [now rewrite Hnew |].
    now rewrite IH.
Qed.

Lemma In_setDelete s : In b (setDelete a s) <-> In b s.
Proof.
  unfold setDelete. rewrite filter_In. split; [tauto |].
  intros H. split; [exact H |]. apply negb_true_iff. now apply String.eqb_neq.
Qed.

Lemma confined_streamHealthDelete : Steps (untouched b) (streamHealthDelete a).
Proof.
  intros w. repeat split; auto. cbn. apply healthGet_healthDelete.
Qed.

Lemma confined_releaseStreamSlot : Steps (untouched b) (releaseStreamSlot a).
Proof.
  intros w. split; [reflexivity | split; [reflexivity |]]. cbn. apply In_setDelete.
Qed.

Lemma confined_updateStreamHealth count : Steps (untouched b) (updateStreamHealth a count).
Proof.
  intros w. unfold updateStreamHealth, modify. cbn [snd].
  destruct (healthGet a (streamHealth w)); [| reflexivity].
  repeat split; auto. cbn. apply healthGet_healthSet.
Qed.

Lemma confined_clearStreamState : Steps (untouched b) (clearStreamState a).
Proof. apply confined_del, confined_token. Qed.

Lemma confined_forceCleanupStream : Steps (untouched b) (forceCleanupStream a).
Proof.
  unfold forceCleanupStream.
  apply (steps_bind _); [apply confined_log | intros _].
  apply (steps_tryCatch _); [| intros _; apply (steps_ret _)].
  repeat (apply (steps_bind _); [| intros _]);
    first [ apply confined_command | apply confined_streamHealthDelete
          | apply confined_releaseStreamSlot
          | apply confined_delete, confined_token
          | apply confined_delete, stream_key_not_token ].
Qed.

Lemma confined_waitLoop n : Steps (untouched b) (waitLoop n a).
Proof.
  induction n as [| n IH]; cbn [waitLoop]; [apply (steps_ret _) |].
  apply (steps_bind _); [apply confined_get | intros st].
  destruct (falsy st); [apply (steps_ret _) |].
  apply (steps_bind _); [apply confined_log | intros _].
  apply (steps_bind _); [apply confined_elapse | intros _; exact IH].
Qed.

Lemma confined_stopStream : Steps (untouched b) (stopStream a).
Proof.
  unfold stopStream.
  apply (steps_bind _); [apply confined_publish | intros _].
  apply confined_clearStreamState.
Qed.

Lemma confined_ensureSingleStream : Steps (untouched b) (ensureSingleStream a).
Proof.
  unfold ensureSingleStream, isStreamRunning, isStreamHealthy, dateNow,
    waitForStreamToStop.
  apply (steps_tryCatch _); [| intros _; apply confined_forceCleanupStream].
  apply (steps_bind _).
  { apply (steps_bind _); [apply confined_get | intros st; apply (steps_ret _)]. }
  intros running. apply (steps_bind _).
  - destruct running; [| apply (steps_ret _)].
    apply (steps_bind _).
    { apply (steps_bind _); [apply (steps_gets _) | intros [h |]].
      - apply (steps_bind _); [apply (steps_gets _) | intros n; apply (steps_ret _)].
      - apply (steps_ret _). }
    intros isHealthy. destruct isHealthy; [| apply confined_forceCleanupStream].
    apply (steps_bind _); [apply confined_stopStream | intros _].
    apply (steps_bind _); [apply confined_waitLoop | intros _; apply (steps_ret _)].
  - intros _. apply (steps_bind _); [apply confined_clearStreamState | intros _].
    intros w. repeat split; auto. cbn. apply healthGet_healthSet.
Qed.

Lemma confined_hookBody m : Steps (untouched b) m -> Steps (untouched b) (hookBody m).
Proof.
  intros H. unfold hookBody.
  apply (steps_bind _); [apply (steps_attempt _), H | intros r; apply (steps_ret _)].
Qed.

Lemma confined_teardown event :
  Steps (untouched b) (handleStreamLifecycle a event >> streamHealthDelete a >>
           releaseStreamSlot a).
Proof.
  apply (steps_bind _).
  - destruct event; cbn [handleStreamLifecycle];
      [apply confined_setEx | apply confined_clearStreamState
      | apply confined_clearStreamState].
  - intros _. apply (steps_bind _);
      [apply confined_streamHealthDelete | intros _; apply confined_releaseStreamSlot].
Qed.

Lemma confined_deliver c e : Steps (untouched b) (deliver a c e).
Proof.
  destruct e; cbn [deliver]; unfold onChunk, onStepFinish, onError, onFinish, dateNow.
  - apply (steps_bind _); [apply (steps_gets _) | intros n].
    destruct (5000 <? n - lastKeepAlive c); [| apply (steps_ret _)].
    apply (steps_bind _); [| intros _; apply (steps_ret _)].
    apply confined_hookBody.
    apply (steps_bind _); [apply confined_setEx | intros _].
    apply confined_updateStreamHealth.
  - apply (steps_bind _); [apply confined_updateStreamHealth | intros _].
    destruct (shouldAbort c); [| apply (steps_ret _)].
    apply (steps_bind _);
      [apply confined_hookBody, confined_clearStreamState | intros cleared].
    destruct cleared; [| apply (steps_ret _)].
    apply (steps_bind _); [apply confined_log | intros _].
    apply (steps_bind _); [| intros _; apply (steps_ret _)].
    apply confined_hookBody.
    unfold AIService.getUnsavedMessages, AIService.saveMessagesToMemory.
    apply (steps_bind _).
    + apply (steps_bind _); [apply confined_memoryCall | intros _; apply (steps_gets _)].
    + intros ms. apply (steps_bind _); [apply confined_memoryCall | intros _; apply confined_log].
  - apply (steps_bind _); [| intros _; apply (steps_ret _)].
    apply confined_hookBody, confined_teardown.
  - apply (steps_bind _); [| intros _; apply (steps_ret _)].
    apply confined_hookBody, confined_teardown.
  - apply (steps_ret _).
  - apply (steps_bind _); [apply confined_elapse | intros _; apply (steps_ret _)].
Qed.

End Confined.

(** X17. What is done for one session stays within that session: whatever
    the store answers, [forceCleanupStream], [ensureSingleStream] and every
    hook of a call for [appId] leave the liveness token, the health record
    and the slot of any other session as they were. *)
Theorem session_confinement (appId other : string) (w : World) :
  appId <> other ->
  untouched other w (snd (forceCleanupStream appId w)) /\
  untouched other w (snd (ensureSingleStream appId w)) /\
  (forall c e, untouched other w (snd (deliver appId c e w))).
Proof.
  intros Hne. split; [| split].
  - apply (confined_forceCleanupStream appId other Hne).
  - apply (confined_ensureSingleStream appId other Hne).
  - intros c e. apply (confined_deliver appId other Hne).
Qed.

Lemma session_confinement_witness :
  let w := snd (sendMessageWithStreaming "app-2" initialWorld) in
  Redis.read (stateKey "app-2") w = Some "running" /\
  untouched "app-2" w (snd (forceCleanupStream "app-1" w)).
Proof.
  intros w. split; [vm_compute; reflexivity |].
  apply (proj1 (session_confinement "app-1" "app-2" w ltac:(discriminate))).
Defined.

End ConfinementFacts.

(** ** The periodic health check *)

Module SweepFacts.
Import StreamManager StreamSpec Relations MonadFacts History CleanupFacts TakeoverFacts.

Lemma forceCleanup_answered a w :
  storeFaults w = [] ->
  exists w',
    forceCleanupStream a w = (inr tt, w') /\
    storeFaults w' = [] /\ now w' = now w /\
    streamHealth w' = healthDelete a (streamHealth w) /\
    activeStreams w' = setDelete a (activeStreams w) /\
    store w' !! stateKey a = None /\
    (forall k, store w !! k = None -> store w' !! k = None).
Proof.
  intros H. unfold forceCleanupStream, log, clearStreamState, tryCatch.
  unfold bind at 1, modify.
  rewrite bind_del by exact H.
  unfold streamHealthDelete, releaseStreamSlot, bind at 1, modify.
  unfold bind at 1.
  rewrite !bind_del by exact H.
  rewrite run_del by exact H.
  eexists. split; [reflexivity |].
  cbn [storeFaults now streamHealth activeStreams store setStore setActiveStreams
       setStreamHealth setTrace].
  repeat split; try assumption.
  - rewrite !lookup_delete_ne by apply ConfinementFacts.stream_key_not_token.
    apply lookup_delete_eq.
  - intros k Hk. rewrite !lookup_delete.
    repeat (destruct (decide _); [reflexivity |]). exact Hk.
Qed.

Lemma sweep_entry n a h w :
  storeFaults w = [] ->
  exists w',
    (when (STREAM_TIMEOUT <? n - lastActivity h) (forceCleanupStream a) >>
     when (10 * 60 * 1000 <? n - startTime h) (forceCleanupStream a)) w = (inr tt, w') /\
    storeFaults w' = [] /\ now w' = now w /\
    streamHealth w' =
      (if stale n h then healthDelete a (streamHealth w) else streamHealth w) /\
    activeStreams w' =
      (if stale n h then setDelete a (activeStreams w) else activeStreams w) /\
    (stale n h = true -> store w' !! stateKey a = None) /\
    (forall k, store w !! k = None -> store w' !! k = None).
Proof.
  intros H. unfold stale.
  destruct (STREAM_TIMEOUT <? n - lastActivity h);
    destruct (10 * 60 * 1000 <? n - startTime h); cbn [when orb].
  - destruct (forceCleanup_answered a w H) as (w1 & Hr1 & Hq1 & Hn1 & Hh1 & Ha1 & Hs1 & Hk1).
    destruct (forceCleanup_answered a w1 Hq1) as (w2 & Hr2 & Hq2 & Hn2 & Hh2 & Ha2 & Hs2 & Hk2).
    exists w2. rewrite (bind_ok _ _ _ _ _ Hr1). split; [exact Hr2 |].
    rewrite Hh2, Ha2, Hh1, Ha1, healthDelete_idem, setDelete_idem.
    repeat split; auto; congruence.
  - destruct (forceCleanup_answered a w H) as (w1 & Hr1 & Hq1 & Hn1 & Hh1 & Ha1 & Hs1 & Hk1).
    exists w1. rewrite (bind_ok _ _ _ _ _ Hr1). repeat split; auto.
  - destruct (forceCleanup_answered a w H) as (w1 & Hr1 & Hq1 & Hn1 & Hh1 & Ha1 & Hs1 & Hk1).
    exists w1. repeat split; auto.
  - exists w. repeat split; auto. discriminate.
Qed.

Lemma sweep_loop n entries : forall w,
  storeFaults w = [] ->
  exists w',
    forEach entries (fun entry =>
      let appId := fst entry in
      let health := snd entry in
      when (STREAM_TIMEOUT <? n - lastActivity health) (forceCleanupStream appId) >>
      when (10 * 60 * 1000 <? n - startTime health) (forceCleanupStream appId)) w
    = (inr tt, w') /\
    now w' = now w /\
    streamHealth w' =
      fold_left (fun m e => if stale n (snd e) then healthDelete (fst e) m else m)
        entries (streamHealth w) /\
    activeStreams w' =
      fold_left (fun s e => if stale n (snd e) then setDelete (fst e) s else s)
        entries (activeStreams w) /\
    (forall a h, In (a, h) entries -> stale n h = true -> store w' !! stateKey a = None) /\
    (forall k, store w !! k = None -> store w' !! k = None).
Proof.
  induction entries as [| [a h] entries IH]; intros w H; cbn [forEach fold_left].
  - exists w. repeat split; auto. intros a h [].
  - destruct (sweep_entry n a h w H) as (w1 & Hr1 & Hq1 & Hn1 & Hh1 & Ha1 & Hs1 & Hk1).
    destruct (IH w1 Hq1) as (w2 & Hr2 & Hn2 & Hh2 & Ha2 & Hs2 & Hk2).
    exists w2. split.
    { unfold bind at 1. cbn [fst snd]. cbv zeta.
      change (when (STREAM_TIMEOUT <? n - lastActivity h) (forceCleanupStream a) >>
              when (10 * 60 * 1000 <? n - startTime h) (forceCleanupStream a))
        with (bind (when (STREAM_TIMEOUT <? n - lastActivity h) (forceCleanupStream a))
                (fun _ => when (10 * 60 * 1000 <? n - startTime h) (forceCleanupStream a)))
        in Hr1.
      rewrite Hr1. exact Hr2. }
    cbn [fst snd]. rewrite Hh2, Ha2, Hh1, Ha1.
    repeat split; auto; try congruence.
    intros a' h' [Heq | Hin] Hstale.
    + injection Heq as <- <-. auto.
    + eauto.
Qed.

Lemma filter_filter_and {A} (p q : A -> bool) l :
  List.filter p (List.filter q l) = List.filter (fun x => q x && p x) l.
Proof.
  induction l as [| x l IH]; cbn [List.filter]; [reflexivity |].
  destruct (q x); cbn [List.filter andb]; [| exact IH].
  destruct (p x); now rewrite IH.
Qed.

Lemma fold_filter {A B} (cond : B -> bool) (test : B -> A -> bool) entries :
  forall l,
    fold_left
      (fun acc e => if cond e then List.filter (fun x => negb (test e x)) acc else acc)
      entries l
    = List.filter (fun x => forallb (fun e => negb (cond e && test e x)) entries) l.
Proof.
  induction entries as [| e entries IH]; intros l; cbn [fold_left forallb].
  - induction l as [| x l IHl]; cbn [List.filter]; [reflexivity | now rewrite <- IHl].
  - rewrite IH. destruct (cond e); cbn [andb negb].
    + apply filter_filter_and.
    + reflexivity.
Qed.

Lemma unique_key (m : list (string * StreamHealthRecord)) x y :
  List.NoDup (List.map fst m) -> In x m -> In y m -> fst x = fst y -> x = y.
Proof.
  induction m as [| z m IH]; cbn [List.map In]; [tauto |].
  intros Hnd Hx Hy Hk. inversion Hnd as [| k ks Hnotin Hnd']; subst.
  destruct Hx as [-> | Hx], Hy as [-> | Hy]; auto.
  - exfalso. apply Hnotin. rewrite Hk. now apply in_map.
  - exfalso. apply Hnotin. rewrite <- Hk. now apply in_map.
Qed.

Lemma stale_among n (m : list (string * StreamHealthRecord)) x :
  List.NoDup (List.map fst m) -> In x m ->
  forallb (fun e => negb (stale n (snd e) && hasKey (fst e) x)) m
  = negb (stale n (snd x)).
Proof.
  intros Hnd Hx. destruct (stale n (snd x)) eqn:Ex; cbn [negb].
  - apply not_true_is_false. intros Hall.
    rewrite forallb_forall in Hall. specialize (Hall x Hx).
    unfold hasKey in Hall. now rewrite Ex, String.eqb_refl in Hall.
  - apply forallb_forall. intros e He. apply negb_true_iff, andb_false_iff.
    destruct (hasKey (fst e) x) eqn:Ek; [left | now right].
    unfold hasKey in Ek. apply String.eqb_eq in Ek.
    now rewrite (unique_key m e x Hnd He Hx (eq_sym Ek)).
Qed.

(** X18. With the store answering, one run of the periodic health check
    removes from the health table exactly the records that have been idle
    for more than 5 minutes or started more than 10 minutes ago and keeps the
    others in their order; it releases the slots of exactly those sessions
    (a slot without a health record is never released by it) and leaves
    their liveness tokens absent. *)
Theorem sweep_removes_exactly_stale (w : World) :
  storeFaults w = [] ->
  List.NoDup (List.map fst (streamHealth w)) ->
  exists w',
    healthCheck w = (inr tt, w') /\
    now w' = now w /\
    streamHealth w' =
      List.filter (fun e => negb (stale (now w) (snd e))) (streamHealth w) /\
    (forall a,
       In a (activeStreams w') <->
       In a (activeStreams w) /\
       forall h, In (a, h) (streamHealth w) -> stale (now w) h = false) /\
    (forall a h,
       In (a, h) (streamHealth w) -> stale (now w) h = true ->
       Redis.read (stateKey a) w' = None).
Proof.
  intros Hq Hnd.
  destruct (sweep_loop (now w) (streamHealth w) w Hq)
    as (w' & Hrun & Hnow & Hh & Ha & Hs & _).
  exists w'. split; [| split; [exact Hnow | split; [| split]]].
  - unfold healthCheck, dateNow, bind at 1, gets. unfold bind at 1. exact Hrun.
  - rewrite Hh. unfold healthDelete.
    rewrite (fold_filter (fun e => stale (now w) (snd e))
               (fun e x => hasKey (fst e) x)).
    apply filter_ext_in. intros x Hx. now apply stale_among.
  - intros a. rewrite Ha. unfold setDelete.
    rewrite (fold_filter (fun e : string * StreamHealthRecord => stale (now w) (snd e))
               (fun e x => String.eqb (fst e) x)).
    rewrite filter_In, forallb_forall. split.
    + intros [Hin Hall]. split; [exact Hin |]. intros h Hh'.
      specialize (Hall (a, h) Hh'). cbn [fst snd] in Hall.
      rewrite String.eqb_refl, andb_true_r in Hall. now apply negb_true_iff in Hall.
    + intros [Hin Hall]. split; [exact Hin |]. intros [a' h] He. cbn [fst snd].
      apply negb_true_iff, andb_false_iff.
      destruct (String.eqb_spec a' a) as [-> | Hne]; [left | now right].
      now apply Hall.
  - intros a h Hin Hstale. unfold Redis.read. now rewrite (Hs a h Hin Hstale).
Qed.

Lemma sweep_removes_exactly_stale_witness :
  let w :=
    setActiveStreams ["old"; "idle"; "fresh"]
      (setStreamHealth
         [("old", mkHealth 690000 90000 3); ("idle", mkHealth 399999 300000 1);
          ("fresh", mkHealth 400000 100000 7)]
         (setNow 700000 initialWorld)) in
  exists w',
    healthCheck w = (inr tt, w') /\
    now w' = 700000 /\
    streamHealth w' = [("fresh", mkHealth 400000 100000 7)] /\
    (forall a,
       In a (activeStreams w') <->
       In a ["old"; "idle"; "fresh"] /\
       forall h, In (a, h) (streamHealth w) -> stale 700000 h = false) /\
    (forall a h,
       In (a, h) (streamHealth w) -> stale 700000 h = true ->
       Redis.read (stateKey a) w' = None).
Proof.
  intros w. apply (sweep_removes_exactly_stale w); [reflexivity |].
  vm_compute. repeat constructor; cbn; intuition discriminate.
Defined.

End SweepFacts.

(** ** The hooks of a streaming call *)

Module HookFacts.
Import StreamManager StreamSpec Relations MonadFacts History Frames AdmissionFacts
  CleanupFacts TakeoverFacts FailureFacts.

Lemma onChunk_idle a c w :
  now w - lastKeepAlive c <= 5000 -> onChunk a c w = (inr c, w).
Proof.
  intros H. unfold onChunk, dateNow, bind, gets.
  assert (Hle : (5000 <? now w - lastKeepAlive c) = false) by (apply Z.ltb_ge; lia).
  now rewrite Hle.
Qed.

Lemma heartbeat_now a w :
  now (snd (hookBody (updateKeepAlive a >> updateStreamHealth a None) w)) = now w.
Proof.
  unfold hookBody, updateKeepAlive, Redis.setEx, Redis.command, updateStreamHealth,
    bind, attempt, modify.
  destruct (storeFaults w) as [| [|] rest]; cbn [snd fst];
    try reflexivity;
    match goal with |- context [healthGet a ?m] => destruct (healthGet a m) end;
    reflexivity.
Qed.

Lemma onChunk_after a c w c' w' :
  onChunk a c w = (inr c', w') ->
  now w' - lastKeepAlive c' <= 5000 /\
  aborted c' = aborted c /\ shouldAbort c' = shouldAbort c.
Proof.
  unfold onChunk, dateNow. unfold bind at 1, gets.
  destruct (5000 <? now w - lastKeepAlive c) eqn:E.
  - pose proof (heartbeat_now a w) as Hnow. unfold bind.
    destruct (hookBody _ w) as [[e | ok] w1]; [discriminate |].
    intros H. inversion H; subst. cbn in *. repeat split. lia.
  - intros H. inversion H; subst. apply Z.ltb_ge in E. repeat split. lia.
Qed.

Lemma chunks_idle a c n : forall w,
  now w - lastKeepAlive c <= 5000 ->
  deliverAll a c (repeat Chunk n) w = (inr c, w).
Proof.
  induction n as [| n IH]; intros w H; cbn [repeat deliverAll deliver];
    [reflexivity |].
  unfold bind. rewrite (onChunk_idle a c w H). now apply IH.
Qed.

(** X19. The heartbeat is debounced: chunks that arrive within 5 seconds of
    the last heartbeat change nothing at all, so a burst of chunks at one
    instant costs what its first chunk costs, at most one write of the
    token, whatever the store answers. *)
Theorem chunk_burst_one_heartbeat (appId : string) (c : CallContext) (n : nat)
    (w : World) :
  (now w - lastKeepAlive c <= 5000 ->
   deliverAll appId c (repeat Chunk n) w = (inr c, w)) /\
  deliverAll appId c (repeat Chunk (S n)) w = onChunk appId c w.
Proof.
  split; [apply chunks_idle |].
  cbn [repeat deliverAll deliver]. unfold bind.
  destruct (onChunk appId c w) as [[e | c'] w'] eqn:E; [reflexivity |].
  apply chunks_idle. now apply (onChunk_after appId c w c' w').
Qed.

Lemma chunk_burst_one_heartbeat_witness :
  deliverAll "app-1" (mkCallContext 1000 false false false) (repeat Chunk 50)
    (setNow 6000 initialWorld)
  = (inr (mkCallContext 1000 false false false), setNow 6000 initialWorld).
Proof.
  apply (proj1 (chunk_burst_one_heartbeat "app-1" (mkCallContext 1000 false false false)
                  50 (setNow 6000 initialWorld))).
  cbn. lia.
Defined.

Lemma sameTrace_onChunk a c : Steps sameTrace (onChunk a c).
Proof.
  unfold onChunk, dateNow, hookBody.
  apply (steps_bind _); [apply (steps_gets _) | intros n].
  destruct (5000 <? n - lastKeepAlive c); [| apply (steps_ret _)].
  apply (steps_bind _); [| intros _; apply (steps_ret _)].
  apply (steps_bind _); [| intros r; apply (steps_ret _)].
  apply (steps_attempt _).
  apply (steps_bind _); [| intros _].
  - apply steps_updateKeepAlive. typeclasses eauto.
  - apply steps_updateStreamHealth. typeclasses eauto.
Qed.

Lemma chunks_do_not_abort a n : forall c w,
  trace (snd (deliverAll a c (repeat Chunk n) w)) = trace w /\
  exists c',
    fst (deliverAll a c (repeat Chunk n) w) = inr c' /\
    aborted c' = aborted c /\ shouldAbort c' = shouldAbort c.
Proof.
  induction n as [| n IH]; intros c w; cbn [repeat deliverAll deliver].
  - split; [reflexivity |]. now exists c.
  - unfold bind. pose proof (sameTrace_onChunk a c w) as Htr.
    destruct (total_run (deliver a c Chunk) w (deliver_total a c Chunk))
      as (c1 & w1 & Hrun).
    cbn [deliver] in Hrun. rewrite Hrun in Htr |- *. cbn [snd] in Htr.
    destruct (onChunk_after a c w c1 w1 Hrun) as (_ & Ha & Hs).
    destruct (IH c1 w1) as (Htr1 & c' & Hc' & Ha' & Hs').
    split; [unfold sameTrace in Htr; congruence |].
    exists c'. repeat split; congruence.
Qed.

Lemma getUnsaved_answered a w :
  memoryFaults w = [] ->
  AIService.getUnsavedMessages a w = (inr (default [] (unsavedMessages w !! a)), w).
Proof.
  intros H. unfold AIService.getUnsavedMessages, AIService.memoryCall, bind, gets.
  now rewrite H.
Qed.

Lemma save_answered a ms w :
  memoryFaults w = [] ->
  AIService.saveMessagesToMemory a ms w
  = (inr tt, setTrace (trace w ++ [EvSave a ms]) w).
Proof.
  intros H. unfold AIService.saveMessagesToMemory, AIService.memoryCall, bind.
  now rewrite H.
Qed.

Lemma onStepFinish_rejected a c rest w :
  shouldAbort c = true -> storeFaults w = true :: rest ->
  onStepFinish a c w
  = (inr c, setStoreFaults rest (snd (updateStreamHealth a None w))).
Proof.
  intros Hflag Hfaults. unfold onStepFinish. unfold bind at 1.
  change (updateStreamHealth a None w)
    with (@inr JsError unit tt, snd (updateStreamHealth a None w)).
  set (w0 := snd (updateStreamHealth a None w)).
  assert (Hs0 : storeFaults w0 = true :: rest).
  { subst w0. unfold updateStreamHealth, modify. cbn [snd].
    now destruct (healthGet a (streamHealth w)). }
  clearbody w0. rewrite Hflag.
  unfold hookBody, handleStreamLifecycle, clearStreamState, Redis.del,
    Redis.command, bind, attempt.
  now rewrite Hs0.
Qed.



Lemma teardown_rejected a event rest w :
  event <> Start ->
  storeFaults w = true :: rest ->
  observable
    (snd (hookBody (handleStreamLifecycle a event >> streamHealthDelete a >>
                    releaseStreamSlot a) w))
  = observable w.
Proof.
  intros Hev Hfaults.
  unfold hookBody, clearStreamState, Redis.del, Redis.command, bind, attempt.
  destruct event; [congruence | |]; cbn [handleStreamLifecycle];
    unfold clearStreamState, Redis.del, Redis.command, bind;
    rewrite Hfaults; reflexivity.
Qed.

Lemma onFinish_answered a c w :
  storeAnswers 1 w = true ->
  onFinish a c w =
    (inr c,
     setActiveStreams (setDelete a (activeStreams w))
       (setStreamHealth (healthDelete a (streamHealth w))
          (setStore (delete (stateKey a) (store w))
             (setStoreFaults (tl (storeFaults w)) w)))).
Proof.
  intros H.
  unfold onFinish, hookBody, handleStreamLifecycle, clearStreamState.
  unfold bind at 1, bind at 1, attempt.
  destruct (del_answered 0 (stateKey a) w H) as [Hdel _].
  rewrite (bind_ok _ _ _ _ _ Hdel). reflexivity.
Qed.

(** X21. [onFinish] tears the session down like [onError] does: with the
    store answering, the token is absent, the health record deleted and the
    slot released, and nothing is logged.  When the store rejects the
    deletion of the token, neither hook goes further: the health record and
    the slot of the session stay as they were. *)
Theorem finish_teardown (appId : string) (c : CallContext) (w : World) :
  (storeAnswers 1 w = true ->
   let out := onFinish appId c w in
   fst out = inr c /\
   Redis.read (stateKey appId) (snd out) = None /\
   healthGet appId (streamHealth (snd out)) = None /\
   ~ In appId (activeStreams (snd out)) /\
   trace (snd out) = trace w) /\
  (forall rest,
     storeFaults w = true :: rest ->
     observable (snd (onFinish appId c w)) = observable w /\
     observable (snd (onError appId c w)) = observable w).
Proof.
  split.
  - intros H out. subst out. rewrite (onFinish_answered appId c w H).
    cbn [fst snd]. repeat split.
    + apply read_deleted.
    + apply healthGet_delete.
    + apply notin_setDelete.
  - intros rest Hfaults. split.
    + unfold onFinish, bind at 1.
      pose proof (teardown_rejected appId Finish rest w ltac:(discriminate) Hfaults) as H.
      destruct (hookBody _ w) as [[e | ok] w1]; exact H.
    + unfold onError, bind at 1.
      pose proof (teardown_rejected appId Error rest w ltac:(discriminate) Hfaults) as H.
      destruct (hookBody _ w) as [[e | ok] w1]; exact H.
Qed.

Lemma finish_teardown_witness :
  let w := snd (sendMessageWithStreaming "app-1" initialWorld) in
  let c := mkCallContext 0 false false false in
  (In "app-1" (activeStreams w) /\ Redis.read (stateKey "app-1") w = Some "running") /\
  (Redis.read (stateKey "app-1") (snd (onFinish "app-1" c w)) = None /\
   ~ In "app-1" (activeStreams (snd (onFinish "app-1" c w)))) /\
  observable (snd (onFinish "app-1" c (setStoreFaults [true] w))) = observable w.
Proof.
  intros w c. split; [| split].
  - vm_compute. auto.
  - destruct (proj1 (finish_teardown "app-1" c w) eq_refl) as (_ & Hr & _ & Ha & _).
    split; assumption.
  - apply (proj1 (proj2 (finish_teardown "app-1" c (setStoreFaults [true] w)) []
                    eq_refl)).
Defined.

End HookFacts.

(** ** Starting a session *)

Module SessionFacts.
Import StreamManager StreamSpec Relations MonadFacts History Frames AdmissionFacts
  CleanupFacts TakeoverFacts FailureFacts.

Lemma serveStream_errors a w e w' :
  serveStream a w = (inl e, w') -> e = fallbackFailed.
Proof.
  unfold serveStream.
  destruct (total_run (ensureSingleStream a) w (ensureSingleStream_total a))
    as ([] & w1 & Hens).
  rewrite (bind_ok _ _ _ _ _ Hens).
  unfold setupAbortCallback, Redis.subscribe, bind at 1, log, modify.
  unfold bind at 1, dateNow, gets. unfold bind at 1, attempt.
  match goal with |- context [startProducer a ?c ?v] =>
    destruct (startProducer a c v) as [[e1 | r] w2]
  end.
  - unfold bind at 1, streamHealthDelete, modify.
    unfold bind at 1, releaseStreamSlot, modify.
    match goal with |- context [fallback a ?v] =>
      destruct (fallback_run a v) as (r & w3 & Hrun & [-> | ->])
    end; rewrite Hrun; intros H; [discriminate | now inversion H].
  - discriminate.
Qed.

Lemma sendMessage_errors a w e w' :
  sendMessageWithStreaming a w = (inl e, w') ->
  e = poolExhausted \/ e = fallbackFailed.
Proof.
  destruct (makeRoom_run w) as (w1 & Hroom & _).
  destruct (reserve_run a w1) as (granted & w2 & Hres & _).
  unfold sendMessageWithStreaming, bind. rewrite Hroom, Hres.
  destruct granted; cbn [negb].
  - intros H. right. exact (serveStream_errors a w2 e w' H).
  - intros H. left. now inversion H.
Qed.



Lemma total_when b m : Total m -> Total (when b m).
Proof. intros H. destruct b; [exact H | apply total_ret]. Qed.

Lemma total_forEach {A} (xs : list A) f :
  (forall x, Total (f x)) -> Total (forEach xs f).
Proof.
  intros Hf. induction xs as [| x xs IH]; cbn [forEach]; [apply total_ret |].
  apply total_bind; [apply Hf | intros _; exact IH].
Qed.

Lemma healthCheck_total : Total healthCheck.
Proof.
  unfold healthCheck, dateNow.
  apply total_bind; [apply total_gets | intros n].
  apply total_bind; [apply total_gets | intros entries].
  apply total_forEach. intros entry.
  apply total_bind; [| intros _]; apply total_when, forceCleanupStream_total.
Qed.

(** X23. Cleanup never fails its caller: whatever the store answers,
    and whatever state the session is in, [forceCleanupStream],
    [ensureSingleStream] and the periodic health check return normally. *)
Theorem cleanup_never_throws (appId : string) (w : World) :
  fst (forceCleanupStream appId w) = inr tt /\
  fst (ensureSingleStream appId w) = inr tt /\
  fst (healthCheck w) = inr tt.
Proof.
  split; [| split].
  - destruct (forceCleanupStream_total appId w) as [[] H]. exact H.
  - destruct (ensureSingleStream_total appId w) as [[] H]. exact H.
  - destruct (healthCheck_total w) as [[] H]. exact H.
Qed.

Lemma healthGet_set_same a h m : healthGet a (healthSet a h m) = Some h.
Proof.
  assert (Hnew : hasKey a (a, h) = true) by apply String.eqb_refl.
  unfold healthGet, healthSet. destruct (existsb (hasKey a) m) eqn:E.
  - induction m as [| x m IH]; [discriminate |].
    cbn [existsb List.map List.find] in *.
    destruct (hasKey a x) eqn:Ex.
    + now rewrite Hnew.
    + rewrite Ex. apply IH. exact E.
  - induction m as [| x m IH]; cbn [app List.find]; [now rewrite Hnew |].
    cbn [existsb] in E. apply orb_false_iff in E as [Ex E].
    rewrite Ex. now apply IH.
Qed.

Lemma forceCleanup_full a w :
  storeFaults w = [] ->
  exists w',
    forceCleanupStream a w = (inr tt, w') /\
    storeFaults w' = [] /\ now w' = now w /\
    activeStreams w' = setDelete a (activeStreams w) /\
    producers w' = producers w /\ memoryFaults w' = memoryFaults w /\
    unsavedMessages w' = unsavedMessages w.
Proof.
  intros H. unfold forceCleanupStream, log, clearStreamState, tryCatch.
  unfold bind at 1, modify.
  rewrite bind_del by exact H.
  unfold streamHealthDelete, releaseStreamSlot, bind at 1, modify.
  unfold bind at 1.
  rewrite !bind_del by exact H.
  rewrite run_del by exact H.
  eexists. split; [reflexivity |]. cbn. repeat split; assumption.
Qed.

Lemma ensureSingleStream_answered a w :
  storeFaults w = [] ->
  exists v,
    ensureSingleStream a w =
      (inr tt,
       setStreamHealth
         (healthSet a (mkHealth (now v) (now v) 0) (streamHealth v)) v) /\
    now v = now w /\ store v !! stateKey a = None /\ storeFaults v = [] /\
    producers v = producers w /\ memoryFaults v = memoryFaults w /\
    unsavedMessages v = unsavedMessages w /\
    activeStreams v =
      (if isRunning (Redis.read (stateKey a) w) && negb (healthyNow a w)
       then setDelete a (activeStreams w) else activeStreams w).
Proof.
  intros H. unfold ensureSingleStream, tryCatch, isStreamRunning.
  unfold bind at 1. rewrite bind_get by exact H. unfold ret at 1.
  destruct (isRunning (Redis.read (stateKey a) w)) eqn:Erun; cbn [andb].
  - unfold bind at 1. unfold bind at 1.
    rewrite isStreamHealthy_run.
    destruct (healthyNow a w) eqn:Hh; cbn [negb].
    + unfold stopStream, waitForStreamToStop.
      unfold bind at 1. rewrite bind_publish by exact H.
      rewrite run_del by exact H.
      change (Z.to_nat 60) with (S 59). cbn [waitLoop].
      unfold bind at 1. rewrite bind_get by exact H.
      rewrite read_deleted. cbn [falsy]. unfold ret at 1. unfold ret at 1.
      unfold clearStreamState. rewrite bind_del by exact H.
      eexists. split; [reflexivity |]. cbn. repeat split; try assumption.
      apply lookup_delete_eq.
    + destruct (forceCleanup_full a w H)
        as (w1 & Hfc & Hq & Hnow & Ha & Hp & Hm & Hu).
      rewrite Hfc. unfold clearStreamState. rewrite bind_del by exact Hq.
      eexists. split; [reflexivity |]. cbn. repeat split; try assumption.
      apply lookup_delete_eq.
  - unfold bind at 1. unfold ret at 1.
    unfold clearStreamState. rewrite bind_del by exact H.
    eexists. split; [reflexivity |]. cbn. repeat split; try assumption.
    apply lookup_delete_eq.
Qed.

(** X24. With the store answering, [ensureSingleStream] always hands over a
    clean session: whether the session was running or not, healthy or not,
    it ends with the liveness token absent and a health record that starts
    now ([lastActivity] and [startTime] at the present instant, no message
    counted), and it never sleeps on the way. *)
Theorem takeover_starts_fresh (appId : string) (w : World) :
  storeFaults w = [] ->
  let w' := snd (ensureSingleStream appId w) in
  healthGet appId (streamHealth w') = Some (mkHealth (now w) (now w) 0) /\
  Redis.read (stateKey appId) w' = None /\
  now w' = now w.
Proof.
  intros H w'. subst w'.
  destruct (ensureSingleStream_answered appId w H) as (v & -> & Hnow & Hs & _).
  cbn [snd]. split; [| split].
  - cbn [streamHealth setStreamHealth]. rewrite healthGet_set_same, Hnow. reflexivity.
  - unfold Redis.read. cbn [store setStreamHealth]. now rewrite Hs.
  - exact Hnow.
Qed.

Lemma takeover_starts_fresh_witness :
  let w := setNow 900000 (snd (sendMessageWithStreaming "app-1" initialWorld)) in
  healthGet "app-1" (streamHealth w) = Some (mkHealth 0 0 0) /\
  healthGet "app-1" (streamHealth (snd (ensureSingleStream "app-1" w)))
  = Some (mkHealth 900000 900000 0).
Proof.
  intros w. split; [vm_compute; reflexivity |].
  apply (proj1 (takeover_starts_fresh "app-1" w eq_refl)).
Defined.

Lemma startProducer_returns a c u :
  storeFaults u = [] ->
  let p := hd AIService.quietProducer (producers u) in
  hooks p = [] ->
  result p = Returns (mkStreamObject true true) ->
  exists u',
    startProducer a c u =
      (match resumable p with
       | Created => inr (Resumable a)
       | ReturnsNull => inl (ErrorObj "Failed to create resumable stream")
       | Rejects error => inl error
       end, u') /\
    store u' !! stateKey a = Some (mkEntry "running" (Some (now u + 15 * 1000))) /\
    now u' = now u /\ storeFaults u' = [] /\
    streamHealth u' = streamHealth u /\ activeStreams u' = activeStreams u /\
    memoryFaults u' = memoryFaults u /\ unsavedMessages u' = unsavedMessages u.
Proof.
  intros Hq p Hhooks Hresult.
  assert (Hnext : exists u0,
            AIService.nextProducer u = (inr p, u0) /\
            storeFaults u0 = [] /\ store u0 = store u /\ now u0 = now u /\
            streamHealth u0 = streamHealth u /\ activeStreams u0 = activeStreams u /\
            memoryFaults u0 = memoryFaults u /\ unsavedMessages u0 = unsavedMessages u).
  { subst p. unfold AIService.nextProducer.
    destruct (producers u) as [| p0 rest]; eexists; repeat split; assumption. }
  destruct Hnext as (u0 & Hnext & Hq0 & Hs0 & Hn0 & Hh0 & Ha0 & Hm0 & Hu0).
  unfold startProducer. rewrite (bind_ok _ _ _ _ _ Hnext).
  unfold bind at 1, log, modify. rewrite Hhooks. cbn [deliverAll].
  unfold bind at 1, ret at 1. rewrite Hresult.
  cbn [hasToUIMessageStreamResponse hasBody negb]. unfold setStream.
  cbn [hasToUIMessageStreamResponse hasBody negb].
  unfold bind at 1. unfold bind at 1. unfold Redis.setEx at 1.
  rewrite bind_command by exact Hq0. unfold modify at 1.
  destruct (resumable p).
  - unfold ret at 1. unfold setupAbortCallback, Redis.subscribe.
    unfold bind at 1, log, modify.
    unfold handleStreamLifecycle, updateKeepAlive, Redis.setEx.
    unfold bind at 1. rewrite bind_command by exact Hq0.
    eexists. split; [reflexivity |]. cbn.
    rewrite lookup_insert_eq, Hn0. repeat split; assumption.
  - eexists. split; [reflexivity |]. cbn.
    rewrite lookup_insert_eq, Hn0. repeat split; assumption.
  - eexists. split; [reflexivity |]. cbn.
    rewrite lookup_insert_eq, Hn0. repeat split; assumption.
Qed.

Lemma In_setAdd a s : In a (setAdd a s).
Proof.
  unfold setAdd. destruct (existsb (String.eqb a) s) eqn:E.
  - apply existsb_exists in E as (x & Hx & Heq).
    now apply String.eqb_eq in Heq as ->.
  - apply in_or_app. right. now left.
Qed.

Lemma room_and_slot a w :
  (length (activeStreams w) < MAX_CONCURRENT_STREAMS)%nat ->
  sendMessageWithStreaming a w =
  serveStream a
    (setTrace (trace w ++ [EvReserve a true])
       (setActiveStreams (setAdd a (activeStreams w)) w)).
Proof.
  intros Hroom. apply Nat.ltb_lt in Hroom.
  unfold sendMessageWithStreaming, makeRoom, reserveStreamSlot, canStartNewStream,
    bind, gets.
  rewrite Hroom. cbn [negb when ret]. rewrite Hroom. reflexivity.
Qed.

Lemma serveStream_run a w u c :
  ensureSingleStream a w = (inr tt, u) ->
  c = mkCallContext (now u) false false false ->
  serveStream a w =
  match startProducer a c (setTrace (trace u ++ [EvSubscribe (eventsChannel a)]) u) with
  | (inr resumableStream, u') => (inr resumableStream, u')
  | (inl _, u') =>
      fallback a
        (setActiveStreams (setDelete a (activeStreams u'))
           (setStreamHealth (healthDelete a (streamHealth u')) u'))
  end.
Proof.
  intros Hens ->. unfold serveStream. rewrite (bind_ok _ _ _ _ _ Hens).
  unfold setupAbortCallback, Redis.subscribe, bind at 1, log, modify.
  unfold bind at 1, dateNow, gets. unfold bind at 1, attempt.
  cbn [now setTrace].
  destruct (startProducer a _ _) as [[e | r] u']; reflexivity.
Qed.

Lemma sendMessage_started (appId : string) (w : World) :
  storeFaults w = [] ->
  (length (activeStreams w) < MAX_CONCURRENT_STREAMS)%nat ->
  hd AIService.quietProducer (producers w) = AIService.quietProducer ->
  let forced :=
    isRunning (Redis.read (stateKey appId) w) && negb (healthyNow appId w) in
  exists w',
    sendMessageWithStreaming appId w = (inr (Resumable appId), w') /\
    now w' = now w /\
    store w' !! stateKey appId = Some (mkEntry "running" (Some (now w + 15000))) /\
    healthGet appId (streamHealth w') = Some (mkHealth (now w) (now w) 0) /\
    (In appId (activeStreams w') <-> forced = false).
Proof.
  intros Hq Hroom Hp forced. rewrite (room_and_slot appId w Hroom).
  set (w2 := setTrace _ _).
  destruct (ensureSingleStream_answered appId w2 Hq)
    as (v & Hens & Hnow & Hs & Hqv & Hpv & Hmv & Huv & Hav).
  rewrite (serveStream_run appId w2 _ _ Hens eq_refl).
  match goal with |- context [startProducer appId ?c ?u] =>
    destruct (startProducer_returns appId c u Hqv)
      as (u' & Hstart & Hs' & Hn' & _ & Hh' & Ha' & _)
  end.
  { cbn [producers setTrace setStreamHealth]. rewrite Hpv. subst w2. cbn [producers setTrace setActiveStreams].
    now rewrite Hp. }
  { cbn [producers setTrace setStreamHealth]. rewrite Hpv. subst w2. cbn [producers setTrace setActiveStreams].
    now rewrite Hp. }
  cbn [producers setTrace setStreamHealth] in Hstart. rewrite Hpv in Hstart.
  subst w2. cbn [producers setTrace setActiveStreams] in Hstart.
  rewrite Hp in Hstart. cbn [resumable AIService.quietProducer] in Hstart.
  rewrite Hstart. exists u'.
  cbn [now streamHealth activeStreams setTrace setStreamHealth setActiveStreams]
    in Hn', Hh', Ha', Hs', Hnow, Hav.
  split; [reflexivity | split; [congruence | split; [| split]]].
  - rewrite Hs', Hnow. reflexivity.
  - rewrite Hh', healthGet_set_same, Hnow. reflexivity.
  - rewrite Ha', Hav.
    change (Redis.read (stateKey appId)
              (setTrace (trace w ++ [EvReserve appId true])
                 (setActiveStreams (setAdd appId (activeStreams w)) w)))
      with (Redis.read (stateKey appId) w).
    change (healthyNow appId
              (setTrace (trace w ++ [EvReserve appId true])
                 (setActiveStreams (setAdd appId (activeStreams w)) w)))
      with (healthyNow appId w).
    fold forced. destruct forced.
    + split; [intros Hin; now apply notin_setDelete in Hin | discriminate].
    + split; [reflexivity | intros _; apply In_setAdd].
Qed.

(** X28. The start of a session when all goes well: below capacity, with
    the store answering and a producer that answers at once with a
    well-formed stream, [sendMessageWithStreaming] resolves to the resumable
    stream of the session without waiting, the liveness token reads
    "running" for the next 15 seconds and the health record starts now.  The
    session holds a slot of the pool unless its takeover force-cleaned a
    previous stream that was running and unhealthy: that cleanup releases
    the slot reserved a moment before, and the new stream runs outside the
    pool. *)
Theorem session_start_outcome (appId : string) (w : World) :
  storeFaults w = [] ->
  (length (activeStreams w) < MAX_CONCURRENT_STREAMS)%nat ->
  hd AIService.quietProducer (producers w) = AIService.quietProducer ->
  let forced :=
    isRunning (Redis.read (stateKey appId) w) && negb (healthyNow appId w) in
  exists w',
    sendMessageWithStreaming appId w = (inr (Resumable appId), w') /\
    now w' = now w /\
    store w' !! stateKey appId = Some (mkEntry "running" (Some (now w + 15000))) /\
    Redis.read (stateKey appId) w' = Some "running" /\
    healthGet appId (streamHealth w') = Some (mkHealth (now w) (now w) 0) /\
    (In appId (activeStreams w') <-> forced = false).
Proof.
  intros Hq Hroom Hp forced.
  destruct (sendMessage_started appId w Hq Hroom Hp)
    as (w' & Hrun & Hnow & Hs & Hh & Ha).
  exists w'. repeat split; try assumption; try apply Ha.
  unfold Redis.read, Redis.live. rewrite Hs, Hnow. cbn [expiresAt entryValue].
  assert (Hlive : (now w <? now w + 15000) = true) by (apply Z.ltb_lt; lia).
  now rewrite Hlive.
Qed.

Lemma session_start_outcome_witness :
  let w0 := snd (sendMessageWithStreaming "app-1" initialWorld) in
  let w := snd (perform (RemoteKeepAlive "app-1") (setNow 400000 w0)) in
  (In "app-1" (activeStreams w0) /\
   isRunning (Redis.read (stateKey "app-1") w) && negb (healthyNow "app-1" w) = true) /\
  exists w',
    sendMessageWithStreaming "app-1" w = (inr (Resumable "app-1"), w') /\
    now w' = now w /\
    store w' !! stateKey "app-1" = Some (mkEntry "running" (Some (now w + 15000))) /\
    Redis.read (stateKey "app-1") w' = Some "running" /\
    healthGet "app-1" (streamHealth w') = Some (mkHealth (now w) (now w) 0) /\
    (In "app-1" (activeStreams w') <->
     isRunning (Redis.read (stateKey "app-1") w) && negb (healthyNow "app-1" w) = false).
Proof.
  intros w0 w. split; [vm_compute; auto |].
  apply (session_start_outcome "app-1" w).
  - vm_compute; reflexivity.
  - vm_compute; lia.
  - vm_compute; reflexivity.
Defined.

(** X29. A set-up that fails after the token was written leaves the token
    behind: when the producer answers with a well-formed stream but the
    resumable stream cannot be created, and the memory answers, the call
    resolves to the synthetic completion of the fallback with the health
    record deleted and the slot released, while the liveness token keeps
    reading "running" until it expires 15 seconds later. *)
Theorem failed_setup_leaves_token (appId : string) (w : World) :
  storeFaults w = [] ->
  memoryFaults w = [] ->
  (length (activeStreams w) < MAX_CONCURRENT_STREAMS)%nat ->
  let p := hd AIService.quietProducer (producers w) in
  hooks p = [] ->
  result p = Returns (mkStreamObject true true) ->
  resumable p <> Created ->
  exists w',
    sendMessageWithStreaming appId w = (inr SavedToMemory, w') /\
    now w' = now w /\
    store w' !! stateKey appId = Some (mkEntry "running" (Some (now w + 15000))) /\
    healthGet appId (streamHealth w') = None /\
    ~ In appId (activeStreams w').
Proof.
  intros Hq Hmem Hroom p Hhooks Hresult Hres. rewrite (room_and_slot appId w Hroom).
  set (w2 := setTrace _ _).
  destruct (ensureSingleStream_answered appId w2 Hq)
    as (v & Hens & Hnow & Hs & Hqv & Hpv & Hmv & Huv & Hav).
  rewrite (serveStream_run appId w2 _ _ Hens eq_refl).
  assert (Hprod : hd AIService.quietProducer
                    (producers (setTrace (trace
                       (setStreamHealth
                          (healthSet appId (mkHealth (now v) (now v) 0) (streamHealth v)) v)
                       ++ [EvSubscribe (eventsChannel appId)])
                       (setStreamHealth
                          (healthSet appId (mkHealth (now v) (now v) 0) (streamHealth v)) v)))
                  = p).
  { cbn [producers setTrace setStreamHealth]. rewrite Hpv. reflexivity. }
  match goal with |- context [startProducer appId ?c ?u] =>
    destruct (startProducer_returns appId c u Hqv)
      as (u' & Hstart & Hs' & Hn' & _ & Hh' & Ha' & Hm' & Hu')
  end.
  { now rewrite Hprod. }
  { now rewrite Hprod. }
  rewrite Hprod in Hstart.
  cbn [now streamHealth activeStreams memoryFaults setTrace setStreamHealth
       setActiveStreams] in Hn', Hs', Hm', Hnow, Hmv.
  assert (Hmw : memoryFaults u' = []) by (rewrite Hm', Hmv; exact Hmem).
  assert (Hfb : exists w',
            fallback appId
              (setActiveStreams (setDelete appId (activeStreams u'))
                 (setStreamHealth (healthDelete appId (streamHealth u')) u'))
            = (inr SavedToMemory, w') /\
            now w' = now u' /\ store w' = store u' /\
            streamHealth w' = healthDelete appId (streamHealth u') /\
            activeStreams w' = setDelete appId (activeStreams u')).
  { unfold fallback, tryCatch. unfold bind at 1, log, modify.
    unfold bind at 1.
    match goal with |- context [AIService.getUnsavedMessages appId ?x] =>
      assert (Hx : memoryFaults x = []) by exact Hmw;
      rewrite (HookFacts.getUnsaved_answered appId x Hx)
    end.
    match goal with |- context [when ?b ?m] => destruct b end; cbn [when].
    - unfold bind at 1.
      match goal with |- context [AIService.saveMessagesToMemory appId ?ms ?x] =>
        assert (Hx' : memoryFaults x = []) by exact Hmw;
        rewrite (HookFacts.save_answered appId ms x Hx')
      end.
      eexists. split; [reflexivity |]. repeat split.
    - eexists. split; [reflexivity |]. repeat split. }
  destruct Hfb as (w' & Hfb & Hnf & Hsf & Hhf & Haf).
  exists w'.
  destruct (resumable p) eqn:Er; [congruence | |]; rewrite Hstart, Hfb.
  all: split; [reflexivity | split; [| split; [| split]]].
  all: try (rewrite Hsf, Hs', Hnow; reflexivity).
  all: try (rewrite Hnf, Hn', Hnow; reflexivity).
  all: try (rewrite Hhf; apply healthGet_delete).
  all: rewrite Haf; apply notin_setDelete.
Qed.

Lemma failed_setup_leaves_token_witness :
  let w :=
    setProducers [mkProducer [] (Returns (mkStreamObject true true)) ReturnsNull]
      initialWorld in
  exists w',
    sendMessageWithStreaming "app-1" w = (inr SavedToMemory, w') /\
    now w' = now w /\
    store w' !! stateKey "app-1" = Some (mkEntry "running" (Some (now w + 15000))) /\
    healthGet "app-1" (streamHealth w') = None /\
    ~ In "app-1" (activeStreams w').
Proof.
  intros w. apply (failed_setup_leaves_token "app-1" w);
    try reflexivity; [vm_compute; lia | discriminate].
Defined.

End SessionFacts.

(** ** The chat service: requests turned down, fallback, previous stream *)

Module ChatEdgeFacts.
Import StreamManager ChatService Relations MonadFacts History TakeoverFacts ChatFacts.

(** X25. A request without messages, or for an app that does not exist, is
    answered before anything is done for the session: the store, the pool
    and the scripts of the collaborators are untouched, the request is
    counted as one failure, and the answer is an event-stream error that is
    not marked retryable, with status 500 for the missing messages and 404
    for the missing app. *)
Theorem chat_request_rejections (req : ChatRequest) (appId : string) (w : World) :
  let rejected code message :=
    exists duration,
      processChatRequest req appId w =
      (inr {| status := code; headers := sseHeaders;
              body := SseError message false |},
       setMetrics
         (Monitoring.recordFailure (now w) duration "chat-processing"
            ("Error: " +:+ message) (metrics w)) w) in
  (json req = inr None \/ json req = inr (Some []) ->
   rejected 500 "No messages provided") /\
  (forall m ms,
     json req = inr (Some (m :: ms)) -> app req = inr None ->
     rejected 404 "App not found").
Proof.
  intros rejected. subst rejected. cbv beta. split.
  - intros Hjson. exists (now w - now w).
    rewrite processChatRequest_run. unfold serve, bind.
    destruct Hjson as [-> | ->]; reflexivity.
  - intros m ms Hjson Happ. exists (now w - now w).
    rewrite processChatRequest_run. unfold serve.
    unfold bind at 1. rewrite Hjson. unfold bind at 1. rewrite Happ.
    reflexivity.
Qed.

Lemma chat_request_rejections_witness :
  let req := mkChatRequest (inr (Some ["hi"])) (inr None) in
  exists duration,
    processChatRequest req "app-1" initialWorld =
    (inr {| status := 404; headers := sseHeaders;
            body := SseError "App not found" false |},
     setMetrics
       (Monitoring.recordFailure 0 duration "chat-processing"
          "Error: App not found" Monitoring.initial) initialWorld).
Proof.
  intros req.
  exact (proj2 (chat_request_rejections req "app-1" initialWorld)
           "hi" [] eq_refl eq_refl).
Defined.

(** X26. The fallback of the chat service, when the memory answers, saves
    the unsaved messages of the session in one call (none when there is
    nothing to save), touches neither the store nor the pool, and answers
    with the fixed success message; when the memory rejects the first call
    it throws its own fixed error, whatever the memory reported. *)
Theorem streaming_fallback_saves_once (appId : string) (w : World) :
  (memoryFaults w = [] ->
   exists w',
     handleStreamingFallback appId w =
       (inr (ErrorHandler.createStreamSuccessResponse
               "Message processed and saved to memory. Streaming will resume on next request."),
        w') /\
     trace w' = trace w ++
       match default [] (unsavedMessages w !! appId) with
       | [] => []
       | messages => [EvSave appId messages]
       end /\
     observable w' = observable w) /\
  (forall rest,
     memoryFaults w = true :: rest ->
     handleStreamingFallback appId w =
       (inl (ErrorObj "Failed to process message. Please try again."),
        setMemoryFaults rest w)).
Proof.
  split.
  - intros Hmem. unfold handleStreamingFallback, tryCatch.
    unfold bind at 1. rewrite (HookFacts.getUnsaved_answered appId w Hmem).
    destruct (default [] (unsavedMessages w !! appId)) as [| m ms];
      cbn [length Nat.ltb Nat.leb when].
    + exists w. rewrite app_nil_r. repeat split.
    + unfold bind at 1. rewrite (HookFacts.save_answered appId (m :: ms) w Hmem).
      eexists. repeat split.
  - intros rest Hmem. unfold handleStreamingFallback, tryCatch,
      AIService.getUnsavedMessages, AIService.memoryCall, bind.
    rewrite Hmem. reflexivity.
Qed.

Lemma streaming_fallback_saves_once_witness :
  let w := setUnsavedMessages {[ "app-1" := ["a"; "b"] ]} initialWorld in
  exists w',
    handleStreamingFallback "app-1" w =
      (inr (ErrorHandler.createStreamSuccessResponse
              "Message processed and saved to memory. Streaming will resume on next request."),
       w') /\
    trace w' = [] ++
      match default [] (unsavedMessages w !! "app-1") with
      | [] => []
      | messages => [EvSave "app-1" messages]
      end /\
    observable w' = observable w.
Proof.
  intros w. apply (proj1 (streaming_fallback_saves_once "app-1" w)). reflexivity.
Defined.

(** X27. With the store answering, [manageStreamLifecycle] returns with the
    session no longer running and without waiting: a session that was
    running gets exactly one abort message and its token deleted, one that
    was not is left alone; in both cases the health table and the pool are
    not touched. *)
Theorem previous_stream_stopped (appId : string) (w : World) :
  storeFaults w = [] ->
  exists w',
    manageStreamLifecycle appId w = (inr tt, w') /\
    isRunning (Redis.read (stateKey appId) w') = false /\
    now w' = now w /\
    trace w' = trace w ++
      (if isRunning (Redis.read (stateKey appId) w)
       then [EvPublish (eventsChannel appId) AbortStream] else []) /\
    streamHealth w' = streamHealth w /\
    activeStreams w' = activeStreams w.
Proof.
  intros H. unfold manageStreamLifecycle, isStreamRunning.
  unfold bind at 1. rewrite bind_get by exact H. unfold ret at 1.
  destruct (isRunning (Redis.read (stateKey appId) w)) eqn:Erun.
  - unfold stopStream, waitForStreamToStop.
    unfold bind at 1. rewrite bind_publish by exact H.
    rewrite run_del by exact H.
    change (Z.to_nat 60) with (S 59). cbn [waitLoop].
    unfold bind at 1. rewrite bind_get by exact H.
    rewrite read_deleted. cbn [falsy negb]. unfold ret at 1.
    eexists. split; [reflexivity |]. rewrite read_deleted. repeat split.
  - exists w. rewrite app_nil_r. repeat split. exact Erun.
Qed.

Lemma previous_stream_stopped_witness :
  let w := snd (sendMessageWithStreaming "app-1" initialWorld) in
  exists w',
    manageStreamLifecycle "app-1" w = (inr tt, w') /\
    isRunning (Redis.read (stateKey "app-1") w') = false /\
    now w' = now w /\
    trace w' = trace w ++
      (if isRunning (Redis.read (stateKey "app-1") w)
       then [EvPublish (eventsChannel "app-1") AbortStream] else []) /\
    streamHealth w' = streamHealth w /\
    activeStreams w' = activeStreams w.
Proof.
  intros w. apply (previous_stream_stopped "app-1" w). reflexivity.
Defined.

End ChatEdgeFacts.

(** ** The chat service: a request that is served *)

Module ServiceFacts.
Import StreamManager StreamSpec ChatService Resilience ResilienceSpec Relations
  MonadFacts History Frames AdmissionFacts TakeoverFacts ResilienceFacts ChatFacts.

#[local] Instance alike_preorder : PreOrder alike.
Proof.
  split.
  - intros w. repeat split.
  - intros x y z (H1 & H2 & H3 & H4 & H5 & H6 & H7 & H8 & H9)
                 (K1 & K2 & K3 & K4 & K5 & K6 & K7 & K8 & K9).
    repeat split; congruence.
Qed.

Lemma alike_pastGate ctx w : alike w (pastGate ctx w).
Proof.
  unfold pastGate, ensureBreaker.
  destruct (state (breakerOf ctx w)), (circuitBreakers w !! ctx); repeat split.
Qed.

Lemma alike_breakers b w : alike w (setCircuitBreakers b w).
Proof. repeat split. Qed.

Lemma requestDevServer_answers url w :
  hd (inr "mcp") (devServers w) = inr url ->
  exists w',
    requestDevServer w = (inr url, w') /\ alike w w' /\
    circuitBreakers w' = circuitBreakers w.
Proof.
  unfold requestDevServer. destruct (devServers w) as [| r rest]; cbn [hd].
  - intros H. injection H as <-. exists w. repeat split.
  - intros ->. eexists. repeat split.
Qed.

Lemma lookup_pastGate_ne ctx other w :
  other <> ctx ->
  circuitBreakers (pastGate ctx w) !! other = circuitBreakers w !! other.
Proof.
  intros Hne. unfold pastGate, ensureBreaker.
  destruct (state (breakerOf ctx w)), (circuitBreakers w !! ctx); cbn;
    rewrite ?lookup_insert_ne, ?lookup_alter_ne by congruence; reflexivity.
Qed.

(** A call through [withResilience] whose first attempt succeeds. *)
Lemma resilient_success {T} (operation : M T) ctx retryOptions options w v w2 :
  passes ctx (circuitBreakerConfig options) w ->
  0 < maxAttempts (retryConfig retryOptions) ->
  operation (pastGate ctx w) = (inr v, w2) ->
  withResilience operation ctx retryOptions options w
  = (inr v, setCircuitBreakers (alter onSuccess ctx (circuitBreakers w2)) w2).
Proof.
  intros Hp Hmax Hrun. unfold withResilience, withCircuitBreaker.
  pose proof (gate_run ctx options w Hp) as Hgate.
  assert (Hretry : withRetry operation ctx retryOptions (pastGate ctx w) = (inr v, w2)).
  { unfold withRetry.
    set (config := retryConfig retryOptions) in *. clearbody config.
    replace (Z.to_nat (maxAttempts config))
      with (S (Z.to_nat (maxAttempts config - 1))) by lia.
    now apply RetryFacts.retryFrom_first. }
  unfold bind in *.
  destruct (getOrCreateCircuitBreaker ctx w) as [[e | cb] w0]; [discriminate |].
  rewrite Hgate. unfold attempt. rewrite Hretry. reflexivity.
Qed.

Lemma manage_run a w :
  storeFaults w = [] ->
  exists w1,
    manageStreamLifecycle a w = (inr tt, w1) /\
    now w1 = now w /\ storeFaults w1 = [] /\
    streamHealth w1 = streamHealth w /\ activeStreams w1 = activeStreams w /\
    metrics w1 = metrics w /\ producers w1 = producers w /\
    devServers w1 = devServers w /\ circuitBreakers w1 = circuitBreakers w.
Proof.
  intros H. unfold manageStreamLifecycle, isStreamRunning.
  unfold bind at 1. rewrite bind_get by exact H. unfold ret at 1.
  destruct (isRunning (Redis.read (stateKey a) w)).
  - unfold stopStream, waitForStreamToStop.
    unfold bind at 1. rewrite bind_publish by exact H.
    rewrite run_del by exact H.
    change (Z.to_nat 60) with (S 59). cbn [waitLoop].
    unfold bind at 1. rewrite bind_get by exact H.
    rewrite read_deleted. cbn [falsy negb]. unfold ret at 1.
    eexists. split; [reflexivity |]. repeat split; assumption.
  - exists w. repeat split; assumption.
Qed.

(** X30. A request that is served.  With messages in the body, an existing
    app, the store answering, room in the pool, the dev server and the
    producer answering at once and neither breaker open,
    [processChatRequest] answers with status 200 and the resumable stream of
    the session, leaves the session running with a health record that starts
    now, and counts the request as one success. *)
Theorem chat_request_served (req : ChatRequest) (appId : string) (w : World) :
  (exists m ms, json req = inr (Some (m :: ms))) ->
  (exists repo, app req = inr (Some repo)) ->
  storeFaults w = [] ->
  (length (activeStreams w) < MAX_CONCURRENT_STREAMS)%nat ->
  hd AIService.quietProducer (producers w) = AIService.quietProducer ->
  (exists url, hd (inr "mcp") (devServers w) = inr url) ->
  state (breakerOf "mcp-server-request" w) <> CbOpen ->
  state (breakerOf "streaming" w) <> CbOpen ->
  exists w',
    processChatRequest req appId w =
      (inr {| status := 200; headers := sseHeaders; body := ResumableStream appId |},
       w') /\
    Redis.read (stateKey appId) w' = Some "running" /\
    healthGet appId (streamHealth w') = Some (mkHealth (now w) (now w) 0) /\
    exists duration, metrics w' = Monitoring.recordSuccess duration (metrics w).
Proof.
  intros (m & ms & Hjson) (repo & Happ) Hq Hroom Hprod (url & Hurl) Hmcp Hstreaming.
  rewrite processChatRequest_run. unfold serve.
  unfold bind at 1. rewrite Hjson. unfold bind at 1. rewrite Happ.
  (* the previous stream *)
  destruct (manage_run appId w Hq)
    as (w1 & Hrun1 & Hn1 & Hq1 & Hh1 & Ha1 & Hm1 & Hp1 & Hd1 & Hb1).
  rewrite (bind_ok _ _ _ _ _ Hrun1).
  (* the dev server *)
  destruct (requestDevServer_answers url (pastGate "mcp-server-request" w1))
    as (w2 & Hrun2 & Hal2 & Hb2).
  { replace (devServers (pastGate "mcp-server-request" w1)) with (devServers w1);
      [now rewrite Hd1 |].
    unfold pastGate, ensureBreaker.
    destruct (state (breakerOf "mcp-server-request" w1)),
             (circuitBreakers w1 !! "mcp-server-request"); reflexivity. }
  assert (Hpass1 : passes "mcp-server-request" (circuitBreakerConfig mcpBreaker) w1).
  { left. unfold breakerOf in *. now rewrite Hb1. }
  rewrite (bind_ok _ _ _ _ _
             (resilient_success requestDevServer "mcp-server-request" mcpRetry
                mcpBreaker w1 url w2 Hpass1 ltac:(cbn; lia) Hrun2)).
  set (w3 := setCircuitBreakers _ w2).
  assert (Hal3 : alike w1 w3).
  { transitivity (pastGate "mcp-server-request" w1); [apply alike_pastGate |].
    transitivity w2; [exact Hal2 | apply alike_breakers]. }
  assert (Hb3 : circuitBreakers w3 !! "streaming" = circuitBreakers w !! "streaming").
  { subst w3. cbn [circuitBreakers setCircuitBreakers].
    rewrite lookup_alter_ne by discriminate.
    rewrite Hb2, lookup_pastGate_ne by discriminate. now rewrite Hb1. }
  clearbody w3.
  destruct Hal3 as (Hn3 & Hq3 & Hs3 & Hh3 & Ha3 & Hm3 & Hp3 & _ & _).
  (* the stream *)
  set (w4 := pastGate "streaming" w3).
  destruct (alike_pastGate "streaming" w3) as (Hn4 & Hq4 & Hs4 & Hh4 & Ha4 & Hm4 & Hp4 & _ & _).
  fold w4 in Hn4, Hq4, Hs4, Hh4, Ha4, Hm4, Hp4.
  destruct (SessionFacts.sendMessage_started appId w4)
    as (w5 & Hrun5 & Hn5 & Hs5 & Hh5 & _).
  { congruence. }
  { rewrite Ha4, Ha3, Ha1. exact Hroom. }
  { rewrite Hp4, Hp3, Hp1. exact Hprod. }
  assert (Hpass3 : passes "streaming" (circuitBreakerConfig streamingBreaker) w3).
  { left. unfold breakerOf in *. now rewrite Hb3. }
  pose proof (steps_sendMessageWithStreaming sameMetrics appId w4) as Hm5.
  rewrite Hrun5 in Hm5. unfold sameMetrics in Hm5. cbn [snd] in Hm5.
  unfold tryCatch, bind at 1.
  rewrite (resilient_success (sendMessageWithStreaming appId) "streaming"
             streamingRetry streamingBreaker w3 (Resumable appId) w5 Hpass3
             ltac:(cbn; lia) Hrun5).
  unfold bind at 1, dateNow, gets. unfold bind at 1, recordSuccess, modify.
  unfold response, Redis.subscribe, bind, log, modify, ret.
  eexists. split; [reflexivity |].
  cbn [streamHealth metrics setMetrics setTrace setCircuitBreakers].
  assert (Hnow : now w4 = now w) by congruence.
  split; [| split].
  - unfold Redis.read, Redis.live.
    cbn [store now setMetrics setTrace setCircuitBreakers].
    rewrite Hs5, Hn5. cbn [expiresAt entryValue].
    assert (Hlive : (now w4 <? now w4 + 15000) = true) by (apply Z.ltb_lt; lia).
    now rewrite Hlive.
  - rewrite Hh5, Hnow. reflexivity.
  - eexists. rewrite Hm5, Hm4, Hm3, Hm1. reflexivity.
Qed.

Lemma chat_request_served_witness :
  let req := mkChatRequest (inr (Some ["build me a page"])) (inr (Some "repo-1")) in
  exists w',
    processChatRequest req "app-1" initialWorld =
      (inr {| status := 200; headers := sseHeaders; body := ResumableStream "app-1" |},
       w') /\
    Redis.read (stateKey "app-1") w' = Some "running" /\
    healthGet "app-1" (streamHealth w') = Some (mkHealth 0 0 0) /\
    exists duration, metrics w' = Monitoring.recordSuccess duration Monitoring.initial.
Proof.
  intros req. apply (chat_request_served req "app-1" initialWorld).
  - now exists "build me a page", [].
  - now exists "repo-1".
  - reflexivity.
  - vm_compute. lia.
  - reflexivity.
  - now exists "mcp".
  - vm_compute. discriminate.
  - vm_compute. discriminate.
Defined.

End ServiceFacts.
